(** * A shallow embedding of the registry's record store and core service

    This development models three pieces of the registry server and client:
    - the in-memory data store [MemoryDataStore]
      (crates/server/src/datastore/memory.rs),
    - the record pipeline of the core service actor
      (crates/server/src/services/core.rs),
    - the client-side [enqueue] of a pending publish (src/commands/publish.rs).

    Identifiers (log ids, record ids, content digests, checkpoint ids) are
    modelled as natural numbers; an envelope is modelled by its content
    address, so [RecordId::package_record(env)] is the identity on the
    envelope.  Record validators (crate [warg_protocol]) are abstract: every
    theorem below holds for any instance of the [Validator] class.  A Rust
    panic ([unwrap] on [None], [assert!], [unreachable!], an out-of-range
    slice) is modelled as the outcome [Panic]; in the data store it carries
    the state the call leaves behind, as its [RwLock] is not poisoned. *)

From Stdlib Require Import String List Lia Sorted Arith.
From stdpp Require Import base gmap sets list strings pretty.

Import ListNotations.
Local Open Scope nat_scope.

Abbreviation LogId := nat.
Abbreviation RecordId := nat.
Abbreviation AnyHash := nat.
Abbreviation Envelope := nat.
Abbreviation Checkpoint := nat.

(** [Result<A, E>]. *)
Inductive result (A E : Type) : Type :=
| Ok (a : A)
| Err (e : E).
Arguments Ok {A E} a.
Arguments Err {A E} e.

(** [LogLeaf { log_id, record_id }]. *)
Record LogLeaf := mkLogLeaf { leaf_log_id : LogId; leaf_record_id : RecordId }.

(** The interface the server uses of [operator::Validator] and
    [package::Validator]: [Default], [validate] (which mutates the validator
    and returns the content digests a record needs), [snapshot] and
    [rollback].  A validation error is modelled by its display string. *)
Class Validator (V : Type) := {
  validator_default : V;
  validator_validate : V -> Envelope -> V * result (list AnyHash) string;
  Snapshot : Type;
  validator_snapshot : V -> Snapshot;
  validator_rollback : V -> Snapshot -> V
}.

(** [Iterator::position]: index of the first element satisfying [f]. *)
Fixpoint list_position {A} (f : A -> bool) (l : list A) : option nat :=
  match l with
  | [] => None
  | x :: t => if f x then Some 0 else option_map S (list_position f t)
  end.

(** [get_records_before_checkpoint] (identical in memory.rs and core.rs). *)
Definition get_records_before_checkpoint (indices : list nat) (checkpoint_index : nat) : nat :=
  length (List.filter (fun index => index <=? checkpoint_index) indices).

(** Rust's [v[a..b].to_vec()]: panics ([None]) unless [a <= b <= v.len()]. *)
Definition slice {A} (v : list A) (a b : nat) : option (list A) :=
  if (a <=? b) && (b <=? length v) then Some (firstn (b - a) (skipn a v)) else None.

(** ** The in-memory data store (memory.rs) *)

(** [DataStoreError] (datastore/mod.rs). *)
Inductive DataStoreError :=
| LogNotFound (l : LogId)
| RecordNotFound (r : RecordId)
| RecordNotPending (r : RecordId)
| CheckpointNotFound (h : AnyHash)
| OperatorValidationFailed (msg : string)
| PackageValidationFailed (msg : string).

(** Modelled from the spec: the [Display] of [DataStoreError]
    (datastore/mod.rs is not under src/).  A validation failure displays the
    validator's error string (spec section 7: the reason of a rejection is
    the error string). *)
Definition DataStoreError_to_string (e : DataStoreError) : string :=
  match e with
  | LogNotFound _ => "log not found"%string
  | RecordNotFound _ => "record not found"%string
  | RecordNotPending _ => "record is not pending"
  | CheckpointNotFound _ => "checkpoint not found"
  | OperatorValidationFailed msg => msg
  | PackageValidationFailed msg => msg
  end.

(** [struct Log<V, R>]. *)
Record Log (V : Type) := mkLog {
  validator : V;
  entries : list Envelope;
  checkpoint_indices : list nat
}.
Arguments mkLog {V}.
Arguments validator {V}.
Arguments entries {V}.
Arguments checkpoint_indices {V}.

Definition log_default {V} `{Validator V} : Log V := mkLog validator_default [] [].

Definition push_checkpoint_index {V} (log : Log V) (i : nat) : Log V :=
  mkLog (validator log) (entries log) (checkpoint_indices log ++ [i]).

(** [struct Record] ([Record] is a keyword of Rocq). *)
Record LogRecord := mkLogRecord {
  index : nat;
  checkpoint_index : option nat
}.

Inductive PendingRecord :=
| PendingOperator (record : option Envelope)
| PendingPackage (record : option Envelope) (missing : gset AnyHash).

Inductive RejectedRecord :=
| RejectedOperator (record : Envelope) (reason : string)
| RejectedPackage (record : Envelope) (reason : string).

Inductive RecordStatus :=
| Pending (p : PendingRecord)
| Rejected (r : RejectedRecord)
| Validated (r : LogRecord).

Definition is_pending (s : RecordStatus) : bool :=
  match s with Pending _ => true | _ => false end.

(** [struct State]; the [IndexMap] of checkpoints is an association list in
    insertion order. *)
Record State (VO VP : Type) := mkState {
  operators : gmap LogId (Log VO);
  packages : gmap LogId (Log VP);
  checkpoints : list (AnyHash * Checkpoint);
  records : gmap LogId (gmap RecordId RecordStatus)
}.
Arguments mkState {VO VP}.
Arguments operators {VO VP}.
Arguments packages {VO VP}.
Arguments checkpoints {VO VP}.
Arguments records {VO VP}.

Definition state_default {VO VP} : State VO VP := mkState ∅ ∅ [] ∅.

(** [IndexMap::get_index_of]. *)
Definition get_index_of (h : AnyHash) (cps : list (AnyHash * Checkpoint)) : option nat :=
  list_position (fun p => Nat.eqb (fst p) h) cps.

Section MemoryDataStore.
Context {VO VP : Type} `{Validator VO} `{Validator VP}.

Local Abbreviation State := (State VO VP).

(** The outcome of a data store call: the returned [Result] with the state
    left behind, or a panic with the state left behind.  The state sits
    behind a tokio [RwLock], which a panic does not poison: what the call
    wrote before panicking stays visible to later calls. *)
Inductive outcome (A : Type) :=
| Done (r : result A DataStoreError) (st : State)
| Panic (st : State).
Arguments Done {A} r st.
Arguments Panic {A} st.

Definition with_operators (st : State) o : State :=
  mkState o (packages st) (checkpoints st) (records st).
Definition with_packages (st : State) p : State :=
  mkState (operators st) p (checkpoints st) (records st).
Definition with_checkpoints (st : State) c : State :=
  mkState (operators st) (packages st) c (records st).
Definition with_records (st : State) r : State :=
  mkState (operators st) (packages st) (checkpoints st) r.

(** [state.records.entry(log_id).or_default()]. *)
Definition record_map (st : State) (l : LogId) : gmap RecordId RecordStatus :=
  default ∅ (records st !! l).

(** The status of record [r] of log [l]. *)
Definition status (st : State) (l : LogId) (r : RecordId) : option RecordStatus :=
  records st !! l ≫= (fun m => m !! r).

(** [*status = s] through [records.get_mut(l).get_mut(r)]. *)
Definition set_status (st : State) (l : LogId) (r : RecordId) (s : RecordStatus) : State :=
  with_records st (<[l := <[r := s]> (record_map st l)]> (records st)).

(** [records.get_mut(log_id).ok_or(LogNotFound)?.get_mut(record_id).ok_or(RecordNotFound)?]. *)
Definition lookup_status (st : State) (l : LogId) (r : RecordId) : result RecordStatus DataStoreError :=
  match records st !! l with
  | None => Err (LogNotFound l)
  | Some m => match m !! r with
              | None => Err (RecordNotFound r)
              | Some s => Ok s
              end
  end.

Definition store_operator_record (st : State) (l : LogId) (r : RecordId) (record : Envelope)
  : outcome unit :=
  let prev := record_map st l !! r in
  let st' := set_status st l r (Pending (PendingOperator (Some record))) in
  match prev with
  | None => Done (Ok tt) st'
  | Some _ => Panic st' (* assert!(prev.is_none()), after the insert *)
  end.

Definition reject_operator_record (st : State) (l : LogId) (r : RecordId) (reason : string)
  : outcome unit :=
  match lookup_status st l r with
  | Err e => Done (Err e) st
  | Ok (Pending (PendingOperator (Some record))) =>
      Done (Ok tt) (set_status st l r (Rejected (RejectedOperator record reason)))
  | Ok (Pending (PendingOperator None)) => Panic st (* record.take().unwrap() *)
  | Ok _ => Done (Err (RecordNotPending r)) st
  end.

Definition validate_operator_record (st : State) (l : LogId) (r : RecordId) : outcome unit :=
  match lookup_status st l r with
  | Err e => Done (Err e) st
  | Ok (Pending (PendingOperator None)) => Panic st
  | Ok (Pending (PendingOperator (Some record))) =>
      let log := default log_default (operators st !! l) in
      match validator_validate (validator log) record with
      | (v', Ok _) =>
          let index := length (entries log) in
          let st1 := with_operators st
                       (<[l := mkLog v' (entries log ++ [record]) (checkpoint_indices log)]> (operators st)) in
          Done (Ok tt) (set_status st1 l r (Validated (mkLogRecord index None)))
      | (v', Err e) =>
          let err := OperatorValidationFailed e in
          let st1 := with_operators st
                       (<[l := mkLog v' (entries log) (checkpoint_indices log)]> (operators st)) in
          Done (Err err)
               (set_status st1 l r (Rejected (RejectedOperator record (DataStoreError_to_string err))))
      end
  | Ok _ => Done (Err (RecordNotPending r)) st
  end.

(** [store_package_record]; its [debug_assert!] (missing is a subset of the
    record's contents) is not part of release builds and is not modelled. *)
Definition store_package_record (st : State) (l : LogId) (r : RecordId) (record : Envelope)
    (missing : gset AnyHash) : outcome unit :=
  let prev := record_map st l !! r in
  let st' := set_status st l r (Pending (PendingPackage (Some record) missing)) in
  match prev with
  | None => Done (Ok tt) st'
  | Some _ => Panic st' (* assert!(prev.is_none()), after the insert *)
  end.

Definition reject_package_record (st : State) (l : LogId) (r : RecordId) (reason : string)
  : outcome unit :=
  match lookup_status st l r with
  | Err e => Done (Err e) st
  | Ok (Pending (PendingPackage (Some record) _)) =>
      Done (Ok tt) (set_status st l r (Rejected (RejectedPackage record reason)))
  | Ok (Pending (PendingPackage None _)) => Panic st
  | Ok _ => Done (Err (RecordNotPending r)) st
  end.

Definition validate_package_record (st : State) (l : LogId) (r : RecordId) : outcome unit :=
  match lookup_status st l r with
  | Err e => Done (Err e) st
  | Ok (Pending (PendingPackage None _)) => Panic st
  | Ok (Pending (PendingPackage (Some record) _)) =>
      let log := default log_default (packages st !! l) in
      match validator_validate (validator log) record with
      | (v', Ok _) =>
          let index := length (entries log) in
          let st1 := with_packages st
                       (<[l := mkLog v' (entries log ++ [record]) (checkpoint_indices log)]> (packages st)) in
          Done (Ok tt) (set_status st1 l r (Validated (mkLogRecord index None)))
      | (v', Err e) =>
          let err := PackageValidationFailed e in
          let st1 := with_packages st
                       (<[l := mkLog v' (entries log) (checkpoint_indices log)]> (packages st)) in
          Done (Err err)
               (set_status st1 l r (Rejected (RejectedPackage record (DataStoreError_to_string err))))
      end
  | Ok _ => Done (Err (RecordNotPending r)) st
  end.

Definition is_content_missing (st : State) (l : LogId) (r : RecordId) (digest : AnyHash)
  : outcome bool :=
  match lookup_status st l r with
  | Err e => Done (Err e) st
  | Ok (Pending (PendingOperator _)) => Done (Ok false) st
  | Ok (Pending (PendingPackage _ missing)) => Done (Ok (bool_decide (digest ∈ missing))) st
  | Ok _ => Done (Err (RecordNotPending r)) st
  end.

Definition set_content_present (st : State) (l : LogId) (r : RecordId) (digest : AnyHash)
  : outcome bool :=
  match lookup_status st l r with
  | Err e => Done (Err e) st
  | Ok (Pending (PendingOperator _)) => Done (Ok false) st
  | Ok (Pending (PendingPackage record missing)) =>
      if bool_decide (missing = ∅) then Done (Ok false) st
      else
        let missing' := missing ∖ {[digest]} in
        Done (Ok (bool_decide (missing' = ∅)))
             (set_status st l r (Pending (PendingPackage record missing')))
  | Ok _ => Done (Err (RecordNotPending r)) st
  end.

(** One iteration of the [for leaf in participants] loop of
    [store_checkpoint]. *)
Definition store_checkpoint_leaf (cp_index : nat) (st : State) (leaf : LogLeaf) : outcome unit :=
  let l := leaf_log_id leaf in
  let r := leaf_record_id leaf in
  let st1 :=
    match operators st !! l with
    | Some log => Some (with_operators st (<[l := push_checkpoint_index log cp_index]> (operators st)))
    | None =>
        match packages st !! l with
        | Some log => Some (with_packages st (<[l := push_checkpoint_index log cp_index]> (packages st)))
        | None => None (* unreachable!("log not found") *)
        end
    end in
  match st1 with
  | None => Panic st
  | Some st1 =>
      match status st1 l r with
      | Some (Validated rec) =>
          Done (Ok tt) (set_status st1 l r (Validated (mkLogRecord (index rec) (Some cp_index))))
      | _ => Panic st1 (* unwrap() or unreachable!(), after the index was pushed *)
      end
  end.

Fixpoint store_checkpoint_leaves (cp_index : nat) (st : State) (leaves : list LogLeaf) : outcome unit :=
  match leaves with
  | [] => Done (Ok tt) st
  | leaf :: rest =>
      match store_checkpoint_leaf cp_index st leaf with
      | Done _ st' => store_checkpoint_leaves cp_index st' rest
      | Panic st' => Panic st'
      end
  end.

Definition store_checkpoint (st : State) (checkpoint_id : AnyHash) (checkpoint : Checkpoint)
    (participants : list LogLeaf) : outcome unit :=
  match get_index_of checkpoint_id (checkpoints st) with
  | Some i =>
      (* insert_full replaced the entry's value: assert!(prev.is_none()) *)
      Panic (with_checkpoints st (<[i := (checkpoint_id, checkpoint)]> (checkpoints st)))
  | None =>
      let index := length (checkpoints st) in
      let st0 := with_checkpoints st (checkpoints st ++ [(checkpoint_id, checkpoint)]) in
      store_checkpoint_leaves index st0 participants
  end.

Definition get_latest_checkpoint (st : State) : outcome Checkpoint :=
  match last (checkpoints st) with
  | Some (_, c) => Done (Ok c) st
  | None => Panic st
  end.

(** The [start] of a fetch: [records[log_id][since]] must be validated. *)
Definition fetch_start (st : State) (l : LogId) (since : option RecordId) : option nat :=
  match since with
  | None => Some 0
  | Some s =>
      match status st l s with
      | Some (Validated rec) => Some (index rec + 1)
      | _ => None (* index panic or unreachable!() *)
      end
  end.

Definition get_operator_records (st : State) (l : LogId) (root : AnyHash)
    (since : option RecordId) (limit : nat) : outcome (list Envelope) :=
  match operators st !! l with
  | None => Done (Err (LogNotFound l)) st
  | Some log =>
      match get_index_of root (checkpoints st) with
      | None => Done (Err (CheckpointNotFound root)) st
      | Some ci =>
          match fetch_start st l since with
          | None => Panic st
          | Some start =>
              let end_ := get_records_before_checkpoint (checkpoint_indices log) ci in
              match slice (entries log) start (Nat.min end_ (start + limit)) with
              | Some v => Done (Ok v) st
              | None => Panic st
              end
          end
      end
  end.

Definition get_package_records (st : State) (l : LogId) (root : AnyHash)
    (since : option RecordId) (limit : nat) : outcome (list Envelope) :=
  match packages st !! l with
  | None => Done (Err (LogNotFound l)) st
  | Some log =>
      match get_index_of root (checkpoints st) with
      | None => Done (Err (CheckpointNotFound root)) st
      | Some ci =>
          match fetch_start st l since with
          | None => Panic st
          | Some start =>
              let end_ := get_records_before_checkpoint (checkpoint_indices log) ci in
              match slice (entries log) start (Nat.min end_ (start + limit)) with
              | Some v => Done (Ok v) st
              | None => Panic st
              end
          end
      end
  end.

(** The data store's operations as one step function; [None] is a panic
    ([step_persist] below continues past it).
    [get_operator_record], [get_package_record], [get_names] and
    [get_initial_leaves] only take the read lock and are left out. *)
Inductive Op :=
| StoreOperatorRecord (l : LogId) (r : RecordId) (record : Envelope)
| RejectOperatorRecord (l : LogId) (r : RecordId) (reason : string)
| ValidateOperatorRecord (l : LogId) (r : RecordId)
| StorePackageRecord (l : LogId) (r : RecordId) (record : Envelope) (missing : gset AnyHash)
| RejectPackageRecord (l : LogId) (r : RecordId) (reason : string)
| ValidatePackageRecord (l : LogId) (r : RecordId)
| IsContentMissing (l : LogId) (r : RecordId) (digest : AnyHash)
| SetContentPresent (l : LogId) (r : RecordId) (digest : AnyHash)
| StoreCheckpoint (checkpoint_id : AnyHash) (checkpoint : Checkpoint) (participants : list LogLeaf)
| GetLatestCheckpoint
| GetOperatorRecords (l : LogId) (root : AnyHash) (since : option RecordId) (limit : nat)
| GetPackageRecords (l : LogId) (root : AnyHash) (since : option RecordId) (limit : nat).

Definition state_after {A} (o : outcome A) : option State :=
  match o with Done _ st => Some st | Panic _ => None end.

(** The state a call leaves behind, whether it returns or panics. *)
Definition outcome_state {A} (o : outcome A) : State :=
  match o with Done _ st => st | Panic st => st end.

Definition step (st : State) (op : Op) : option State :=
  match op with
  | StoreOperatorRecord l r e => state_after (store_operator_record st l r e)
  | RejectOperatorRecord l r reason => state_after (reject_operator_record st l r reason)
  | ValidateOperatorRecord l r => state_after (validate_operator_record st l r)
  | StorePackageRecord l r e m => state_after (store_package_record st l r e m)
  | RejectPackageRecord l r reason => state_after (reject_package_record st l r reason)
  | ValidatePackageRecord l r => state_after (validate_package_record st l r)
  | IsContentMissing l r d => state_after (is_content_missing st l r d)
  | SetContentPresent l r d => state_after (set_content_present st l r d)
  | StoreCheckpoint cid c ps => state_after (store_checkpoint st cid c ps)
  | GetLatestCheckpoint => state_after (get_latest_checkpoint st)
  | GetOperatorRecords l root since limit => state_after (get_operator_records st l root since limit)
  | GetPackageRecords l root since limit => state_after (get_package_records st l root since limit)
  end.

Fixpoint run_ops (st : State) (ops : list Op) : option State :=
  match ops with
  | [] => Some st
  | op :: rest => match step st op with Some st' => run_ops st' rest | None => None end
  end.

(** A call made after earlier calls may have panicked: the task that
    panicked is gone, the store keeps what it wrote. *)
Definition step_persist (st : State) (op : Op) : State :=
  match op with
  | StoreOperatorRecord l r e => outcome_state (store_operator_record st l r e)
  | RejectOperatorRecord l r reason => outcome_state (reject_operator_record st l r reason)
  | ValidateOperatorRecord l r => outcome_state (validate_operator_record st l r)
  | StorePackageRecord l r e m => outcome_state (store_package_record st l r e m)
  | RejectPackageRecord l r reason => outcome_state (reject_package_record st l r reason)
  | ValidatePackageRecord l r => outcome_state (validate_package_record st l r)
  | IsContentMissing l r d => outcome_state (is_content_missing st l r d)
  | SetContentPresent l r d => outcome_state (set_content_present st l r d)
  | StoreCheckpoint cid c ps => outcome_state (store_checkpoint st cid c ps)
  | GetLatestCheckpoint => outcome_state (get_latest_checkpoint st)
  | GetOperatorRecords l root since limit => outcome_state (get_operator_records st l root since limit)
  | GetPackageRecords l root since limit => outcome_state (get_package_records st l root since limit)
  end.

Fixpoint run_persist (st : State) (ops : list Op) : State :=
  match ops with
  | [] => st
  | op :: rest => run_persist (step_persist st op) rest
  end.

End MemoryDataStore.

Arguments Done {VO VP A} r st.
Arguments Panic {VO VP A} st.

(** ** The core service actor (core.rs) *)

Module Core.

(** [enum RecordState]. *)
Inductive RecordState :=
| Processing
| Published (checkpoint : Checkpoint)
| Rejected (reason : string).

(** [ContentSource]: only its [digest] is read by the core. *)
Record ContentSource := mkContentSource { digest : AnyHash; source_url : string }.

Record PackageRecordInfo := mkPackageRecordInfo {
  record : Envelope;
  content_sources : list ContentSource;
  state : RecordState
}.

Record PackageInfo (V : Type) := mkPackageInfo {
  id : LogId;
  name : string;
  validator : V;
  log : list Envelope;
  checkpoint_indices : list nat;
  records : gmap RecordId PackageRecordInfo
}.
Arguments mkPackageInfo {V}.
Arguments id {V}.
Arguments name {V}.
Arguments validator {V}.
Arguments log {V}.
Arguments checkpoint_indices {V}.
Arguments records {V}.

(** [OperatorInfo]; its record table is not read by any fetch and is
    reduced to the record ids. *)
Record OperatorInfo (V : Type) := mkOperatorInfo {
  op_validator : V;
  op_log : list Envelope;
  op_checkpoint_indices : list nat;
  op_records : gset RecordId
}.
Arguments op_validator {V}.
Arguments op_log {V}.
Arguments op_checkpoint_indices {V}.
Arguments op_records {V}.

(** The actor's [State]; the [Arc<Mutex<PackageInfo>>] values are the
    entries of [package_states] (the actor holds the only handle that
    outlives a message).  [Hash::of(checkpoint)] is the identity. *)
Record CoreState (VO VP : Type) := mkCoreState {
  checkpoints : list Checkpoint;
  checkpoint_index : gmap AnyHash nat;
  operator_info : OperatorInfo VO;
  package_states : gmap LogId (PackageInfo VP)
}.
Arguments mkCoreState {VO VP}.
Arguments checkpoints {VO VP}.
Arguments checkpoint_index {VO VP}.
Arguments operator_info {VO VP}.
Arguments package_states {VO VP}.

Inductive CoreServiceError :=
| CheckpointNotFound (h : AnyHash)
| PackageNameNotFound (n : string)
| PackageNotFound (l : LogId)
| PackageRecordNotFound (r : RecordId)
| OperatorRecordNotFound (r : RecordId).

(** [RecordId::package_record::<Sha256>(env)] and
    [RecordId::operator_record::<Sha256>(env)]: an envelope is its own
    content address in this model. *)
Definition package_record_id (env : Envelope) : RecordId := env.
Definition operator_record_id (env : Envelope) : RecordId := env.

(** [format!("Needed content {} but not provided", needed_content)]. *)
Definition needed_content_reason (needed : AnyHash) : string :=
  ("Needed content " ++ pretty needed ++ " but not provided")%string.

Section CoreService.
Context {VO VP : Type} `{Validator VO} `{Validator VP}.

Definition with_validator (info : PackageInfo VP) (v : VP) : PackageInfo VP :=
  mkPackageInfo (id info) (name info) v (log info) (checkpoint_indices info) (records info).

(** [new_record], from taking the package lock to the end of the task: the
    package info left behind, the state sent on [response], and the leaves
    sent on [transparency_tx].  [response_open] and [transparency_open] say
    whether the receivers of the two channels are still alive when the task
    sends on them; a send to a dropped receiver panics on its [unwrap()],
    which ends the task where it stands (the [tokio] mutex is not poisoned,
    so the package info keeps what was done before the panic). *)
Definition new_record (info : PackageInfo VP) (record : Envelope)
    (content_sources : list ContentSource) (response_open transparency_open : bool)
  : PackageInfo VP * option RecordState * list LogLeaf :=
  let record_id := package_record_id record in
  let snapshot := validator_snapshot (validator info) in
  match validator_validate (validator info) record with
  | (v', Ok contents) =>
      let provided_contents := map digest content_sources in
      match List.find (fun needed => negb (bool_decide (needed ∈ provided_contents))) contents with
      | Some needed =>
          if response_open then
            (with_validator info (validator_rollback v' snapshot),
             Some (Rejected (needed_content_reason needed)), [])
          else
            (* [response.send(state).unwrap()] panics before the rollback *)
            (with_validator info v', None, [])
      | None =>
          if transparency_open then
            let record_info := mkPackageRecordInfo record content_sources Processing in
            (mkPackageInfo (id info) (name info) v' (log info ++ [record]) (checkpoint_indices info)
               (<[record_id := record_info]> (records info)),
             if response_open then Some Processing else None, [mkLogLeaf (id info) record_id])
          else
            (* [transparency_tx.send(..).await.unwrap()] panics *)
            (with_validator info v', None, [])
      end
  | (v', Err error) =>
      let record_info := mkPackageRecordInfo record content_sources (Rejected error) in
      (mkPackageInfo (id info) (name info) v' (log info) (checkpoint_indices info)
         (<[record_id := record_info]> (records info)),
       if response_open then Some (Rejected error) else None, [])
  end.

(** [mark_published]; [None] is the panic of its [unwrap()]. *)
Definition mark_published (info : PackageInfo VP) (record_id : RecordId) (checkpoint : Checkpoint)
    (checkpoint_index : nat) : option (PackageInfo VP) :=
  match records info !! record_id with
  | None => None
  | Some ri =>
      Some (mkPackageInfo (id info) (name info) (validator info) (log info)
              (checkpoint_indices info ++ [checkpoint_index])
              (<[record_id := mkPackageRecordInfo (record ri) (content_sources ri) (Published checkpoint)]>
                 (records info)))
  end.

Definition get_package_record_index (log : list Envelope) (hash : RecordId) : result nat CoreServiceError :=
  match list_position (fun env => Nat.eqb (package_record_id env) hash) log with
  | Some i => Ok i
  | None => Err (PackageRecordNotFound hash)
  end.

Definition get_operator_record_index (log : list Envelope) (hash : RecordId) : result nat CoreServiceError :=
  match list_position (fun env => Nat.eqb (operator_record_id env) hash) log with
  | Some i => Ok i
  | None => Err (OperatorRecordNotFound hash)
  end.

(** [fetch_package_records]: [None] is the panic of the slice. *)
Definition fetch_package_records (info : PackageInfo VP) (since : option RecordId)
    (checkpoint_index : nat) : option (result (list Envelope) CoreServiceError) :=
  let start := match since with
               | Some hash => match get_package_record_index (log info) hash with
                              | Ok i => Ok (i + 1)
                              | Err e => Err e
                              end
               | None => Ok 0
               end in
  match start with
  | Err e => Some (Err e)
  | Ok start =>
      let end_ := get_records_before_checkpoint (checkpoint_indices info) checkpoint_index in
      option_map Ok (slice (log info) start end_)
  end.

Definition fetch_operator_records (info : OperatorInfo VO) (since : option RecordId)
    (checkpoint_index : nat) : option (result (list Envelope) CoreServiceError) :=
  let start := match since with
               | Some hash => match get_operator_record_index (op_log info) hash with
                              | Ok i => Ok (i + 1)
                              | Err e => Err e
                              end
               | None => Ok 0
               end in
  match start with
  | Err e => Some (Err e)
  | Ok start =>
      let end_ := get_records_before_checkpoint (op_checkpoint_indices info) checkpoint_index in
      option_map Ok (slice (op_log info) start end_)
  end.

End CoreService.

(** The actor's mailbox messages, without their [oneshot] response
    senders. *)
Inductive Message :=
| SubmitPackageRecord (package_name : string) (record : Envelope) (content_sources : list ContentSource)
| GetPackageRecordStatus (package_id : LogId) (record_id : RecordId)
| GetPackageRecordInfo (package_id : LogId) (record_id : RecordId)
| NewCheckpoint (checkpoint : Checkpoint) (leaves : list LogLeaf)
| FetchOperatorRecords (root : AnyHash) (since : option RecordId)
| FetchPackageRecords (root : AnyHash) (package_name : string) (since : option RecordId)
| GetLatestCheckpoint.

(** What is sent on a message's [response] channel. *)
Inductive Response :=
| RecordStateResponse (s : RecordState)
| StatusResponse (r : result RecordState CoreServiceError)
| InfoResponse (r : result PackageRecordInfo CoreServiceError)
| OperatorRecordsResponse (r : result (list Envelope) CoreServiceError)
| PackageRecordsResponse (r : result (list Envelope) CoreServiceError)
| CheckpointResponse (c : Checkpoint).

(** A task spawned by the [process] loop, with what it captured.  The
    [Arc<Mutex<PackageInfo>>] it holds is named by the package's log id: an
    entry of [package_states] is never removed or replaced once inserted,
    so the id names the same mutex whenever the task runs. *)
Inductive Task :=
| NewRecordTask (package_id : LogId) (record : Envelope) (content_sources : list ContentSource)
| StatusTask (package_id : LogId) (record_id : RecordId)
| InfoTask (package_id : LogId) (record_id : RecordId)
| MarkPublishedTask (package_id : LogId) (record_id : RecordId) (checkpoint : Checkpoint)
    (checkpoint_index : nat)
| FetchOperatorRecordsTask (since : option RecordId) (checkpoint_index : nat)
| FetchPackageRecordsTask (package_id : LogId) (since : option RecordId) (checkpoint_index : nat).

(** One iteration of the [process] loop: it either completes, with the
    state after it, the tasks it spawned and what it sent itself on the
    message's [response] channel, or panics, and the actor task ends with
    the state and the tasks spawned so far. *)
Inductive LoopOutcome (VO VP : Type) :=
| Continue (st : CoreState VO VP) (spawned : list Task) (resp : option Response)
| ActorPanic (st : CoreState VO VP) (spawned : list Task).
Arguments Continue {VO VP}.
Arguments ActorPanic {VO VP}.

(** The core service: the actor's state, whether the actor task is still
    running, and the spawned tasks that have not run yet (a [tokio] runtime
    may run them in any order, interleaved with the loop). *)
Record Service (VO VP : Type) := mkService {
  core : CoreState VO VP;
  alive : bool;
  tasks : list Task
}.
Arguments mkService {VO VP}.
Arguments core {VO VP}.
Arguments alive {VO VP}.
Arguments tasks {VO VP}.

(** What can happen next: the loop receives a message, or the pending task
    at position [i] runs.  The flags say whether the receivers of the
    channels the step sends on are still alive ([response_open] for the
    message's [response], [transparency_open] for [transparency_tx]). *)
Inductive Event :=
| Receive (msg : Message) (response_open : bool)
| RunTask (i : nat) (response_open transparency_open : bool).

Section Process.
Context {VO VP : Type} `{Validator VO} `{Validator VP}.

(** [LogId::package_log::<Sha256>(name)], a hash of the package name. *)
Variable package_log : string -> LogId.

(** [State::new]; [None] is the panic of [validator.validate(&record).unwrap()]. *)
Definition new_state (init_checkpoint : Checkpoint) (init_record : Envelope) : option (CoreState VO VP) :=
  match validator_validate validator_default init_record with
  | (_, Err _) => None
  | (validator, Ok _) =>
      Some (mkCoreState [init_checkpoint] {[init_checkpoint := 0]}
              (mkOperatorInfo VO validator [init_record] [0] {[operator_record_id init_record]})
              ∅)
  end.

Definition with_package_states (st : CoreState VO VP) (ps : gmap LogId (PackageInfo VP)) : CoreState VO VP :=
  mkCoreState (checkpoints st) (checkpoint_index st) (operator_info st) ps.

(** [package_states.entry(package_id).or_insert_with(..)]: the existing
    package info, or a fresh one. *)
Definition package_entry (st : CoreState VO VP) (package_id : LogId) (package_name : string)
  : PackageInfo VP :=
  default (mkPackageInfo package_id package_name validator_default [] [] ∅)
          (package_states st !! package_id).

(** [response.send(..).unwrap()] in the loop itself: a dropped receiver
    panics the actor. *)
Definition reply (st : CoreState VO VP) (response_open : bool) (resp : Response) : LoopOutcome VO VP :=
  if response_open then Continue st [] (Some resp) else ActorPanic st [].

(** The [for leaf in leaves] loop of [NewCheckpoint]: one [mark_published]
    task per leaf, in order, until [package_states.get(&leaf.log_id).unwrap()]
    panics; [false] is that panic. *)
Fixpoint spawn_mark_published (ps : gmap LogId (PackageInfo VP)) (checkpoint : Checkpoint)
    (checkpoint_index : nat) (leaves : list LogLeaf) : list Task * bool :=
  match leaves with
  | [] => ([], true)
  | leaf :: rest =>
      match ps !! leaf_log_id leaf with
      | None => ([], false)
      | Some _ =>
          let '(spawned, ok) := spawn_mark_published ps checkpoint checkpoint_index rest in
          (MarkPublishedTask (leaf_log_id leaf) (leaf_record_id leaf) checkpoint checkpoint_index :: spawned, ok)
      end
  end.

(** The body of [while let Some(request) = rx.recv().await]. *)
Definition process_message (st : CoreState VO VP) (msg : Message) (response_open : bool)
  : LoopOutcome VO VP :=
  match msg with
  | SubmitPackageRecord package_name record content_sources =>
      let package_id := package_log package_name in
      let package_info := package_entry st package_id package_name in
      Continue (with_package_states st (<[package_id := package_info]> (package_states st)))
               [NewRecordTask package_id record content_sources] None
  | GetPackageRecordStatus package_id record_id =>
      match package_states st !! package_id with
      | Some _ => Continue st [StatusTask package_id record_id] None
      | None => reply st response_open (StatusResponse (Err (PackageNotFound package_id)))
      end
  | GetPackageRecordInfo package_id record_id =>
      match package_states st !! package_id with
      | Some _ => Continue st [InfoTask package_id record_id] None
      | None => reply st response_open (InfoResponse (Err (PackageNotFound package_id)))
      end
  | NewCheckpoint checkpoint leaves =>
      let ci := length (checkpoints st) in
      let st' := mkCoreState (checkpoints st ++ [checkpoint]) (<[checkpoint := ci]> (checkpoint_index st))
                   (operator_info st) (package_states st) in
      let '(spawned, ok) := spawn_mark_published (package_states st) checkpoint ci leaves in
      if ok then Continue st' spawned None else ActorPanic st' spawned
  | FetchOperatorRecords root since =>
      match checkpoint_index st !! root with
      | Some ci => Continue st [FetchOperatorRecordsTask since ci] None
      | None => reply st response_open (OperatorRecordsResponse (Err (CheckpointNotFound root)))
      end
  | FetchPackageRecords root package_name since =>
      match checkpoint_index st !! root with
      | Some ci =>
          let package_id := package_log package_name in
          match package_states st !! package_id with
          | Some _ => Continue st [FetchPackageRecordsTask package_id since ci] None
          | None => reply st response_open (PackageRecordsResponse (Err (PackageNameNotFound package_name)))
          end
      | None => reply st response_open (PackageRecordsResponse (Err (CheckpointNotFound root)))
      end
  | GetLatestCheckpoint =>
      match last (checkpoints st) with
      | Some c => reply st response_open (CheckpointResponse c)
      | None => ActorPanic st []  (* state.checkpoints.last().unwrap() *)
      end
  end.

Definition with_package (st : CoreState VO VP) (package_id : LogId) (info : PackageInfo VP) : CoreState VO VP :=
  with_package_states st (<[package_id := info]> (package_states st)).

(** A spawned task run to its end (or its panic), holding its lock
    throughout: the state after it, what it sent on its [response] channel
    and the leaves it sent on [transparency_tx].  The [None] arms of the
    package lookups cannot be reached from [State::new]: a task names a
    package only once it is in [package_states]. *)
Definition run_task (st : CoreState VO VP) (task : Task) (response_open transparency_open : bool)
  : CoreState VO VP * option Response * list LogLeaf :=
  match task with
  | NewRecordTask package_id record content_sources =>
      match package_states st !! package_id with
      | Some info =>
          let '(info', resp, leaves) := new_record info record content_sources response_open transparency_open in
          (with_package st package_id info', option_map RecordStateResponse resp, leaves)
      | None => (st, None, [])
      end
  | StatusTask package_id record_id =>
      match package_states st !! package_id with
      | Some info =>
          let r := match records info !! record_id with
                   | Some record_info => Ok (state record_info)
                   | None => Err (PackageRecordNotFound record_id)
                   end in
          (st, if response_open then Some (StatusResponse r) else None, [])
      | None => (st, None, [])
      end
  | InfoTask package_id record_id =>
      match package_states st !! package_id with
      | Some info =>
          let r := match records info !! record_id with
                   | Some record_info => Ok record_info
                   | None => Err (PackageRecordNotFound record_id)
                   end in
          (st, if response_open then Some (InfoResponse r) else None, [])
      | None => (st, None, [])
      end
  | MarkPublishedTask package_id record_id checkpoint ci =>
      match package_states st !! package_id with
      | Some info =>
          match mark_published info record_id checkpoint ci with
          | Some info' => (with_package st package_id info', None, [])
          | None => (st, None, [])
          end
      | None => (st, None, [])
      end
  | FetchOperatorRecordsTask since ci =>
      match fetch_operator_records (operator_info st) since ci with
      | Some r => (st, if response_open then Some (OperatorRecordsResponse r) else None, [])
      | None => (st, None, [])
      end
  | FetchPackageRecordsTask package_id since ci =>
      match package_states st !! package_id with
      | Some info =>
          match fetch_package_records info since ci with
          | Some r => (st, if response_open then Some (PackageRecordsResponse r) else None, [])
          | None => (st, None, [])
          end
      | None => (st, None, [])
      end
  end.

(** [CoreService::start]: the actor running on [initial_state], no task
    spawned yet. *)
Definition start (initial_state : CoreState VO VP) : Service VO VP := mkService initial_state true [].

(** One step of the service: the service after it, what was sent on a
    [response] channel and the leaves sent on [transparency_tx].  [None]:
    the event cannot happen (a message is never received once the actor
    has ended, and there is no pending task at position [i]). *)
Definition step_event (s : Service VO VP) (e : Event) : option (Service VO VP * option Response * list LogLeaf) :=
  match e with
  | Receive msg response_open =>
      if alive s then
        match process_message (core s) msg response_open with
        | Continue st spawned resp => Some (mkService st true (tasks s ++ spawned), resp, [])
        | ActorPanic st spawned => Some (mkService st false (tasks s ++ spawned), None, [])
        end
      else None
  | RunTask i response_open transparency_open =>
      match tasks s !! i with
      | Some task =>
          let '(st, resp, leaves) := run_task (core s) task response_open transparency_open in
          Some (mkService st (alive s) (delete i (tasks s)), resp, leaves)
      | None => None
      end
  end.

(** A run of events: the final service, what each event sent on a
    [response] channel, and every leaf sent on [transparency_tx]. *)
Fixpoint run_events (s : Service VO VP) (es : list Event)
  : option (Service VO VP * list (option Response) * list LogLeaf) :=
  match es with
  | [] => Some (s, [], [])
  | e :: rest =>
      match step_event s e with
      | None => None
      | Some (s1, resp, leaves) =>
          match run_events s1 rest with
          | None => None
          | Some (s2, resps, leaves') => Some (s2, resp :: resps, leaves ++ leaves')
          end
      end
  end.

End Process.

End Core.

(** A validator that accepts every record; it instantiates the examples. *)
#[local] Instance accept_all_validator : Validator nat := {|
  validator_default := 0;
  validator_validate v _ := (S v, Ok []);
  Snapshot := nat;
  validator_snapshot v := v;
  validator_rollback _ s := s
|}.

(** Publish [r1..r5] (record ids 11..15) of package log 1 under checkpoint
    [c1] (id 100), then [r6..r8] (16..18) under [c2] (id 200). *)
Definition publish_ops (k : nat) : list Op :=
  [StorePackageRecord 1 (10 + k) (10 + k) ∅; ValidatePackageRecord 1 (10 + k)].

Definition fetch_window_ops : list Op :=
  List.flat_map publish_ops (seq 1 8) ++
  [StoreCheckpoint 100 1 (map (fun k => mkLogLeaf 1 (10 + k)) (seq 1 5));
   StoreCheckpoint 200 2 (map (fun k => mkLogLeaf 1 (10 + k)) (seq 6 3))].

Definition fetch_window_state : option (State nat nat) :=
  run_ops state_default fetch_window_ops.

(** The store reached by [fetch_window_ops], evaluated. *)
Definition fetch_window_store : State nat nat :=
  Eval vm_compute in default state_default fetch_window_state.

(** ** The fetch window as the spec states it *)

(** [log[start .. end]]. *)
Definition spec_window (log : list Envelope) (start end_ : nat) : list Envelope :=
  skipn start (firstn end_ log).

(** [log[start .. end]] additionally capped at [limit]. *)
Definition spec_window_limit (log : list Envelope) (start end_ limit : nat) : list Envelope :=
  firstn limit (spec_window log start end_).

(** ** The client's pending publish (src/commands/publish.rs) *)

Module Publish.

(** [PublishEntry]. *)
Inductive PublishEntry :=
| Init
| Release (version : string) (content : AnyHash)
| Yank (version : string).

Definition is_init (e : PublishEntry) : bool :=
  match e with Init => true | _ => false end.

(** [PublishInfo]. *)
Record PublishInfo := mkPublishInfo {
  package : string;
  head : option RecordId;
  entries : list PublishEntry
}.

(** Modelled from the spec: [PublishInfo::initializing] (crates/client is not
    under src/); the batch initializes the package when it holds an [Init]
    entry. *)
Definition initializing (info : PublishInfo) : bool := existsb is_init (entries info).

(** The outcome of the registry storage's I/O in one command: whether
    [load_publish().await?] fails, and whether the [store_publish(..)
    .await?] of the command fails.  Modelled from the spec: the file-system
    registry storage (crates/client) is not under src/; a failed load or
    store leaves the stored pending publish as it was. *)
Record Io := mkIo {
  load_error : option string;
  store_error : option string
}.

(** Every storage operation succeeds. *)
Definition io_ok : Io := mkIo None None.

(** [enqueue].  [storage] is the pending publish held by the client's
    registry storage; [entry] is the outcome of the [entry(client)] future,
    which is only awaited once the package check has passed.  The result is
    the returned [Result] and the pending publish left in storage. *)
Definition enqueue (io : Io) (storage : option PublishInfo) (name : string)
    (entry : result PublishEntry string) : result (option PublishEntry) string * option PublishInfo :=
  match load_error io with
  | Some e => (Err e, storage)
  | None =>
      match storage with
      | Some info =>
          if negb (String.eqb (package info) name) then
            (Err ("there is already publish in progress for package `" ++ package info ++ "`")%string, storage)
          else
            match entry with
            | Err e => (Err e, storage)
            | Ok entry =>
                if is_init entry && initializing info then
                  (Err ("there is already a pending initializing for package `" ++ name ++ "`")%string, storage)
                else
                  match store_error io with
                  | Some e => (Err e, storage)
                  | None => (Ok None, Some (mkPublishInfo (package info) (head info) (entries info ++ [entry])))
                  end
            end
      | None =>
          match entry with
          | Ok entry => (Ok (Some entry), None)
          | Err e => (Err e, None)
          end
      end
  end.

(** [PublishStartCommand::exec]. *)
Definition publish_start (io : Io) (storage : option PublishInfo) (name : string)
  : result unit string * option PublishInfo :=
  match load_error io with
  | Some e => (Err e, storage)
  | None =>
      match storage with
      | Some info =>
          (Err ("a publish is already in progress for package `" ++ package info ++ "`")%string, storage)
      | None =>
          match store_error io with
          | Some e => (Err e, storage)
          | None => (Ok tt, Some (mkPublishInfo name None []))
          end
      end
  end.

Section Commands.

(** [submit]: signs and publishes a batch, returning the new record id;
    its URL, host and signing key failures are among its errors. *)
Variable submit : PublishInfo -> result RecordId string.

(** [client.wait_for_publish(package, record_id, interval)]. *)
Variable wait_for_publish : string -> RecordId -> result unit string.

(** [PublishSubmitCommand::exec]: the returned result, the pending publish
    left in storage, and the batches handed to [submit]. *)
Definition publish_submit (io : Io) (storage : option PublishInfo) (no_wait : bool)
  : result unit string * option PublishInfo * list PublishInfo :=
  match load_error io with
  | Some e => (Err e, storage, [])
  | None =>
      match storage with
      | Some info =>
          match submit info with
          | Err e => (Err e, storage, [info])
          | Ok record_id =>
              match store_error io with
              | Some e => (Err e, storage, [info])
              | None =>
                  if no_wait then (Ok tt, None, [info])
                  else
                    match wait_for_publish (package info) record_id with
                    | Ok _ => (Ok tt, None, [info])
                    | Err e => (Err e, None, [info])
                    end
              end
          end
      | None => (Err "no pending publish to submit"%string, None, [])
      end
  end.

(** [PublishInitCommand::exec] and [PublishReleaseCommand::exec] once their
    entry future has run ([entry] as in [enqueue]). *)
Definition publish_entry (io : Io) (storage : option PublishInfo) (name : string)
    (entry : result PublishEntry string) (no_wait : bool)
  : result unit string * option PublishInfo * list PublishInfo :=
  match enqueue io storage name entry with
  | (Err e, storage') => (Err e, storage', [])
  | (Ok None, storage') => (Ok tt, storage', [])
  | (Ok (Some entry), storage') =>
      let info := mkPublishInfo name None [entry] in
      match submit info with
      | Err e => (Err e, storage', [info])
      | Ok record_id =>
          if no_wait then (Ok tt, storage', [info])
          else
            match wait_for_publish name record_id with
            | Ok _ => (Ok tt, storage', [info])
            | Err e => (Err e, storage', [info])
            end
      end
  end.

End Commands.

(** [PublishAbortCommand::exec]. *)
Definition publish_abort (io : Io) (storage : option PublishInfo) : result unit string * option PublishInfo :=
  match load_error io with
  | Some e => (Err e, storage)
  | None =>
      match storage with
      | Some _ =>
          match store_error io with
          | Some e => (Err e, storage)
          | None => (Ok tt, None)
          end
      | None => (Err "no pending publish to abort"%string, None)
      end
  end.

End Publish.

(** ** The validation component (components/validation) *)

Module Validation.

(** The component's [ProtoEnvelopeBody] binding. *)
Record ProtoEnvelopeBody := mkProtoEnvelopeBody {
  content_bytes : string;
  key_id : string;
  signature : string
}.

Section Validating.
Context {V : Type} `{Validator V}.

(** [decode(content_bytes).unwrap()], [Signature::from_str(..).unwrap()]
    and [envelope.try_into().unwrap()] together: [None] is a panic. *)
Variable decode_record : ProtoEnvelopeBody -> option Envelope.

(** The first loop of [validate]: every body is decoded before any record
    is validated. *)
Fixpoint decode_records (bodies : list ProtoEnvelopeBody) : option (list Envelope) :=
  match bodies with
  | [] => Some []
  | b :: rest =>
      match decode_record b with
      | None => None
      | Some r =>
          match decode_records rest with
          | None => None
          | Some rs => Some (r :: rs)
          end
      end
  end.

(** The second loop: [package.state.validate(&record)] on one package state,
    pushing [true] on [Ok] and [false] otherwise. *)
Fixpoint validate_records (st : V) (records : list Envelope) : list bool :=
  match records with
  | [] => []
  | r :: rest =>
      match validator_validate st r with
      | (st', Ok _) => true :: validate_records st' rest
      | (st', Err _) => false :: validate_records st' rest
      end
  end.

(** [Validating::validate]; the package state is [PackageInfo::new("foo:bar").state],
    the default log state.  [None] is a panic. *)
Definition validate (package_records : list ProtoEnvelopeBody) : option (result (list bool) unit) :=
  match decode_records package_records with
  | None => None
  | Some records => Some (Ok (validate_records validator_default records))
  end.

End Validating.

End Validation.

(** ** Definitions used by the statements *)

(** [since] names a record validated at log index [start - 1], or is absent
    and [start = 0]. *)
Definition since_at {VO VP} (st : State VO VP) (l : LogId) (since : option RecordId) (start : nat) : Prop :=
  match since with
  | None => start = 0
  | Some s => exists rec, status st l s = Some (Validated rec) /\ start = index rec + 1
  end.

(** The same for the core, where a record is located in the log by its id. *)
Definition core_since_at (log : list Envelope) (id_of : Envelope -> RecordId)
    (since : option RecordId) (start : nat) : Prop :=
  match since with
  | None => start = 0
  | Some h => exists i env, nth_error log i = Some env /\ id_of env = h /\ start = i + 1
  end.

(** How a status may evolve once it has left [Pending]: it stays out of
    [Pending], and a rejection stays the same rejection. *)
Definition settled (s s' : RecordStatus) : Prop :=
  is_pending s' = false /\ (forall rj, s = Rejected rj -> s' = Rejected rj).

(** The [checkpoint_indices] of log [l]: the operator log when there is one
    (the loop of [store_checkpoint] tries [operators] first), else the
    package log. *)
Definition log_checkpoint_indices {VO VP} (st : State VO VP) (l : LogId) : list nat :=
  match operators st !! l with
  | Some log => checkpoint_indices log
  | None => match packages st !! l with
            | Some log => checkpoint_indices log
            | None => []
            end
  end.

(** The number of participant leaves of log [l]. *)
Definition leaves_of (leaves : list LogLeaf) (l : LogId) : nat :=
  length (List.filter (fun leaf => Nat.eqb (leaf_log_id leaf) l) leaves).

Definition core_checkpoint_indices {VP} (ps : gmap LogId (Core.PackageInfo VP)) (l : LogId) : list nat :=
  match ps !! l with Some info => Core.checkpoint_indices info | None => [] end.

(** Record [r] of package [l] is published under [checkpoint]. *)
Definition core_published {VP} (ps : gmap LogId (Core.PackageInfo VP)) (l : LogId) (r : RecordId)
    (checkpoint : Checkpoint) : Prop :=
  exists info ri, ps !! l = Some info /\ Core.records info !! r = Some ri /\
                  Core.state ri = Core.Published checkpoint.

(** [set_content_present] called with each digest of [digests] in turn. *)
Fixpoint set_content_present_all {VO VP} (st : State VO VP) (l : LogId) (r : RecordId)
    (digests : list AnyHash) : option (list bool * State VO VP) :=
  match digests with
  | [] => Some ([], st)
  | d :: ds =>
      match set_content_present st l r d with
      | Done (Ok b) st' =>
          match set_content_present_all st' l r ds with
          | Some (bs, st'') => Some (b :: bs, st'')
          | None => None
          end
      | _ => None
      end
  end.

(** The missing set once [digests] have been reported present. *)
Fixpoint missing_after (missing : gset AnyHash) (digests : list AnyHash) : gset AnyHash :=
  match digests with
  | [] => missing
  | d :: ds => missing_after (missing ∖ {[d]}) ds
  end.

(** The spec's answer for each call: [true] exactly on the call after which
    the missing set is empty for the first time. *)
Fixpoint last_missing_calls (missing : gset AnyHash) (digests : list AnyHash) : list bool :=
  match digests with
  | [] => []
  | d :: ds => bool_decide (missing <> ∅ /\ missing ∖ {[d]} = ∅) :: last_missing_calls (missing ∖ {[d]}) ds
  end.

Definition package_entries {VO VP} (st : State VO VP) (l : LogId) : list Envelope :=
  match packages st !! l with Some log => entries log | None => [] end.

Definition operator_entries {VO VP} (st : State VO VP) (l : LogId) : list Envelope :=
  match operators st !! l with Some log => entries log | None => [] end.

(** Modelled from the spec: the snapshot law of the validators (crate
    [warg_protocol], not under src/), spec section 8:
    [S.snapshot(); S.validate(r); S.rollback() == S]. *)
Definition snapshot_rollback_law (V : Type) `{Validator V} : Prop :=
  forall v record, validator_rollback (fst (validator_validate v record)) (validator_snapshot v) = v.

(** A validator whose every record needs the content with its own digest. *)
Definition release_validator : Validator nat := {|
  validator_default := 0;
  validator_validate v e := (S v, Ok [e]);
  Snapshot := nat;
  validator_snapshot v := v;
  validator_rollback _ s := s
|}.

(** A store with package record 11 of log 1 validated, before and after
    checkpoint 100 publishes it. *)
Definition validated_store : State nat nat :=
  Eval vm_compute in
    default state_default (run_ops state_default
      [StorePackageRecord 1 11 11 ∅; ValidatePackageRecord 1 11]).

Definition checkpointed_store : State nat nat :=
  Eval vm_compute in
    default state_default (run_ops validated_store [StoreCheckpoint 100 1 [mkLogLeaf 1 11]]).

(** A store with package record 5 of log 1 pending. *)
Definition pending_store : State nat nat :=
  Eval vm_compute in default state_default (run_ops state_default [StorePackageRecord 1 5 5 ∅]).

(** A store with package record 5 of log 1 rejected. *)
Definition rejected_store : State nat nat :=
  Eval vm_compute in
    default state_default (run_ops state_default
      [StorePackageRecord 1 5 5 ∅; RejectPackageRecord 1 5 "bad"%string]).

(** A store with package record 11 of log 1 validated and published under
    checkpoint 100, and package record 12 rejected. *)
Definition published_and_rejected_ops : list Op :=
  [StorePackageRecord 1 11 11 ∅; ValidatePackageRecord 1 11;
   StorePackageRecord 1 12 12 ∅; RejectPackageRecord 1 12 "bad"%string;
   StoreCheckpoint 100 1 [mkLogLeaf 1 11]].

(** A store with package record 5 of log 1 pending on digests 7 and 8. *)
Definition pending_missing_store : State nat nat :=
  Eval vm_compute in
    default state_default (run_ops state_default [StorePackageRecord 1 5 5 {[7; 8]}]).

(** The first statement of the participant loop of [store_checkpoint]:
    [st1] is [st] with [cp] pushed on the checkpoint indices of log [l], the
    operator log when there is one, else the package log. *)
Definition checkpoint_pushed {VO VP} (cp : nat) (st : State VO VP) (l : LogId) (st1 : State VO VP) : Prop :=
  (exists log, operators st !! l = Some log /\
               st1 = with_operators st (<[l := push_checkpoint_index log cp]> (operators st))) \/
  (operators st !! l = None /\
   exists log, packages st !! l = Some log /\
               st1 = with_packages st (<[l := push_checkpoint_index log cp]> (packages st))).

(** Every operator and package log's checkpoint indices are sorted and
    below [b]. *)
Definition indices_below {VO VP} (b : nat) (st : State VO VP) : Prop :=
  (forall l log, operators st !! l = Some log ->
     Sorted le (checkpoint_indices log) /\ Forall (fun i => i < b) (checkpoint_indices log)) /\
  (forall l log, packages st !! l = Some log ->
     Sorted le (checkpoint_indices log) /\ Forall (fun i => i < b) (checkpoint_indices log)).

(** ** Record reads of the in-memory data store (memory.rs) *)

(** [super::RecordStatus] as [get_operator_record] and [get_package_record]
    build it (datastore/mod.rs is not under src/; only these four variants
    are constructed). *)
Inductive StoreRecordStatus :=
| StorePending
| StoreRejected (reason : string)
| StoreValidated
| StorePublished.

(** [super::Record]. *)
Record StoreRecord := mkStoreRecord {
  record_status : StoreRecordStatus;
  envelope : Envelope;
  record_checkpoint : option Checkpoint
}.

Section MemoryDataStoreReads.
Context {VO VP : Type}.

Local Abbreviation State := (State VO VP).

(** [r.checkpoint_index.map(|i| state.checkpoints[i].clone())]: [None] is
    the panic of indexing the [IndexMap] out of range. *)
Definition checkpoint_of (st : State) (rec : LogRecord) : option (option Checkpoint) :=
  match checkpoint_index rec with
  | None => Some None
  | Some i => option_map (fun e => Some (snd e)) (nth_error (checkpoints st) i)
  end.

(** The [RecordStatus::Validated(r)] arm once the log is found:
    [log.entries[r.index]] panics out of range. *)
Definition validated_store_record (st : State) (entries : list Envelope) (rec : LogRecord)
  : @outcome VO VP StoreRecord :=
  match checkpoint_of st rec with
  | None => Panic st
  | Some checkpoint =>
      match nth_error entries (index rec) with
      | None => Panic st
      | Some env =>
          Done (Ok (mkStoreRecord (if checkpoint then StorePublished else StoreValidated) env checkpoint)) st
      end
  end.

Definition get_operator_record (st : State) (l : LogId) (r : RecordId) : @outcome VO VP StoreRecord :=
  match lookup_status st l r with
  | Err e => Done (Err e) st
  | Ok (Pending (PendingOperator None)) => Panic st (* record.clone().unwrap() *)
  | Ok (Pending (PendingOperator (Some record))) => Done (Ok (mkStoreRecord StorePending record None)) st
  | Ok (Rejected (RejectedOperator record reason)) =>
      Done (Ok (mkStoreRecord (StoreRejected reason) record None)) st
  | Ok (Validated rec) =>
      match operators st !! l with
      | None => Done (Err (LogNotFound l)) st
      | Some log => validated_store_record st (entries log) rec
      end
  | Ok _ => Done (Err (RecordNotFound r)) st
  end.

Definition get_package_record (st : State) (l : LogId) (r : RecordId) : @outcome VO VP StoreRecord :=
  match lookup_status st l r with
  | Err e => Done (Err e) st
  | Ok (Pending (PendingPackage None _)) => Panic st (* record.clone().unwrap() *)
  | Ok (Pending (PendingPackage (Some record) _)) => Done (Ok (mkStoreRecord StorePending record None)) st
  | Ok (Rejected (RejectedPackage record reason)) =>
      Done (Ok (mkStoreRecord (StoreRejected reason) record None)) st
  | Ok (Validated rec) =>
      match packages st !! l with
      | None => Done (Err (LogNotFound l)) st
      | Some log => validated_store_record st (entries log) rec
      end
  | Ok _ => Done (Err (RecordNotFound r)) st
  end.



End MemoryDataStoreReads.


(** The records whose status a data store call may write: the record it
    addresses, or each participant of a checkpoint. *)
Definition op_touches (op : Op) (l : LogId) (r : RecordId) : Prop :=
  match op with
  | StoreOperatorRecord l0 r0 _ | RejectOperatorRecord l0 r0 _ | ValidateOperatorRecord l0 r0
  | StorePackageRecord l0 r0 _ _ | RejectPackageRecord l0 r0 _ | ValidatePackageRecord l0 r0
  | IsContentMissing l0 r0 _ | SetContentPresent l0 r0 _ => l0 = l /\ r0 = r
  | StoreCheckpoint _ _ ps => In (mkLogLeaf l r) ps
  | _ => False
  end.

(** The core's checkpoint table: nonempty, and [checkpoint_index] maps
    exactly the listed checkpoints, each to a position that holds it. *)
Definition core_index_wf {VO VP} (st : Core.CoreState VO VP) : Prop :=
  Core.checkpoints st <> [] /\
  (forall h i, Core.checkpoint_index st !! h = Some i -> nth_error (Core.checkpoints st) i = Some h) /\
  (forall h, In h (Core.checkpoints st) -> is_Some (Core.checkpoint_index st !! h)).

(** A sequence of [enqueue] calls for one package, each with the outcome
    of its storage I/O and an entry that was produced: the results and the
    pending publish left behind. *)
Fixpoint enqueue_entries (storage : option Publish.PublishInfo) (name : string)
    (calls : list (Publish.Io * Publish.PublishEntry))
  : list (result (option Publish.PublishEntry) string) * option Publish.PublishInfo :=
  match calls with
  | [] => ([], storage)
  | (io, e) :: rest =>
      let '(r, storage') := Publish.enqueue io storage name (Ok e) in
      let '(rs, storage'') := enqueue_entries storage' name rest in
      (r :: rs, storage'')
  end.

(** A core state with the operator log [[0]] published under checkpoint [0]
    and no package. *)
Definition core_example_state : Core.CoreState nat nat :=
  Eval vm_compute in default (Core.mkCoreState [] ∅ (Core.mkOperatorInfo nat 0 [] [] ∅) ∅)
                             (Core.new_state 0 0).

(** The package log id of every name, in the examples. *)
Definition core_example_log (name : string) : LogId := 1.

(** Events after [Core.start core_example_state]: a checkpoint [5] with no
    leaves, the submission of package record [7] of package ["pkg"], and
    its [new_record] task, every receiver alive. *)
Definition core_example_events : list Core.Event :=
  [Core.Receive (Core.NewCheckpoint 5 []) true; Core.Receive (Core.SubmitPackageRecord "pkg" 7 []) true;
   Core.RunTask 0 true true].

(** The service after [core_example_events]. *)
Definition core_example_after : Core.Service nat nat :=
  Eval vm_compute in
    match Core.run_events core_example_log (Core.start core_example_state) core_example_events with
    | Some (s, _, _) => s
    | None => Core.start core_example_state
    end.

(** Two records ([7] and [8]) of package ["pkg"] submitted and accepted, a
    checkpoint [5] with the leaf of [7], a checkpoint [6] with the leaf of
    [8]; the [mark_published] task of the later checkpoint ([1] in the pool)
    runs before the one of the earlier checkpoint. *)
Definition core_out_of_order_events : list Core.Event :=
  [Core.Receive (Core.SubmitPackageRecord "pkg" 7 []) true; Core.RunTask 0 true true;
   Core.Receive (Core.SubmitPackageRecord "pkg" 8 []) true; Core.RunTask 0 true true;
   Core.Receive (Core.NewCheckpoint 5 [mkLogLeaf 1 7]) true;
   Core.Receive (Core.NewCheckpoint 6 [mkLogLeaf 1 8]) true;
   Core.RunTask 1 true true; Core.RunTask 0 true true].

(** The same, with the [mark_published] tasks run in the order they were
    spawned. *)
Definition core_in_order_events : list Core.Event :=
  firstn 6 core_out_of_order_events ++ [Core.RunTask 0 true true; Core.RunTask 0 true true].

(** Every package info of the core sits under its own log id. *)
Definition core_ids_wf {VO VP} (st : Core.CoreState VO VP) : Prop :=
  forall l info, Core.package_states st !! l = Some info -> Core.id info = l.

(** A leaf names a package present in [ps] that holds the leaf's record:
    [mark_published] does not panic on it. *)
Definition core_leaf_present {VP} (ps : gmap LogId (Core.PackageInfo VP)) (leaf : LogLeaf) : Prop :=
  exists info, ps !! leaf_log_id leaf = Some info /\ is_Some (Core.records info !! leaf_record_id leaf).

(** The state a loop iteration leaves behind and the tasks it spawned. *)
Definition loop_state {VO VP} (o : Core.LoopOutcome VO VP) : Core.CoreState VO VP :=
  match o with Core.Continue st _ _ => st | Core.ActorPanic st _ => st end.

Definition loop_spawned {VO VP} (o : Core.LoopOutcome VO VP) : list Core.Task :=
  match o with Core.Continue _ spawned _ => spawned | Core.ActorPanic _ spawned => spawned end.

(** The actor's state only grows from [st] to [st']: the checkpoint list
    grows at the end, and every package stays, under the same id, with its
    log and checkpoint indices grown at the end and its records kept. *)
Definition core_grows {VO VP} (st st' : Core.CoreState VO VP) : Prop :=
  Core.checkpoints st `prefix_of` Core.checkpoints st' /\
  forall l info, Core.package_states st !! l = Some info ->
    exists info', Core.package_states st' !! l = Some info' /\
      Core.log info `prefix_of` Core.log info' /\
      Core.checkpoint_indices info `prefix_of` Core.checkpoint_indices info' /\
      Core.id info' = Core.id info /\
      (forall r, is_Some (Core.records info !! r) -> is_Some (Core.records info' !! r)).

(** The [mark_published] task the [NewCheckpoint] loop spawns for a leaf. *)
Definition mark_task (checkpoint : Checkpoint) (ci : nat) (leaf : LogLeaf) : Core.Task :=
  Core.MarkPublishedTask (leaf_log_id leaf) (leaf_record_id leaf) checkpoint ci.

(** ** Lemmas on slices and positions *)

Lemma slice_ok {A} (v : list A) (a b : nat) :
  a <= b -> b <= length v -> slice v a b = Some (skipn a (firstn b v)).
Proof.
  intros Hab Hb. unfold slice.
  rewrite (proj2 (Nat.leb_le a b) Hab), (proj2 (Nat.leb_le b (length v)) Hb). simpl.
  rewrite skipn_firstn_comm. reflexivity.
Qed.

Lemma slice_none {A} (v : list A) (a b : nat) : b < a -> slice v a b = None.
Proof.
  intros Hba. unfold slice.
  replace (a <=? b) with false by (symmetry; apply Nat.leb_gt; lia). reflexivity.
Qed.

Lemma slice_some_le {A} (v : list A) (a b : nat) (w : list A) : slice v a b = Some w -> a <= b.
Proof.
  unfold slice. destruct (a <=? b) eqn:E; simpl; [|discriminate].
  intros _. apply Nat.leb_le; assumption.
Qed.

Lemma slice_limit_window (v : list Envelope) (start end_ limit : nat) :
  start <= end_ -> end_ <= length v ->
  slice v start (Nat.min end_ (start + limit)) = Some (spec_window_limit v start end_ limit).
Proof.
  intros Hs He. rewrite slice_ok by lia. f_equal.
  unfold spec_window_limit, spec_window.
  rewrite !skipn_firstn_comm, firstn_firstn. f_equal. lia.
Qed.

Lemma list_position_first {A} (f : A -> bool) (l : list A) (i : nat) (x : A) :
  nth_error l i = Some x -> f x = true ->
  (forall j y, j < i -> nth_error l j = Some y -> f y = false) ->
  list_position f l = Some i.
Proof.
  revert i. induction l as [|a l IH]; intros i Hi Hx Hbefore.
  - destruct i; discriminate.
  - destruct i as [|i]; simpl in *.
    + injection Hi as ->. rewrite Hx. reflexivity.
    + rewrite (Hbefore 0 a) by (reflexivity || lia).
      rewrite (IH i); [reflexivity|assumption|assumption|].
      intros j y Hj Hy. apply (Hbefore (S j)); [lia|assumption].
Qed.

(** With pairwise distinct ids, the position of the id of [log[i]] is [i]. *)
Lemma list_position_nodup (g : Envelope -> nat) (log : list Envelope) (i : nat) (x : Envelope) :
  List.NoDup (map g log) -> nth_error log i = Some x ->
  list_position (fun env => Nat.eqb (g env) (g x)) log = Some i.
Proof.
  intros Hnd Hi. apply (list_position_first _ _ i x Hi).
  - apply Nat.eqb_refl.
  - intros j y Hj Hy. apply Nat.eqb_neq. intros Heq.
    assert (j = i); [|lia].
    eapply NoDup_nth_error; [exact Hnd| |].
    + rewrite length_map. apply nth_error_Some. rewrite Hy. discriminate.
    + rewrite !nth_error_map, Hy, Hi. simpl. rewrite Heq. reflexivity.
Qed.

Lemma fetch_start_since_at {VO VP} (st : State VO VP) l since start :
  since_at st l since start -> fetch_start st l since = Some start.
Proof.
  destruct since as [s|]; simpl.
  - intros (rec & Hs & ->). rewrite Hs. reflexivity.
  - intros ->. reflexivity.
Qed.

Lemma get_package_records_window {VO VP} (st : State VO VP) l log root p since start limit :
  packages st !! l = Some log ->
  get_index_of root (checkpoints st) = Some p ->
  since_at st l since start ->
  start <= get_records_before_checkpoint (checkpoint_indices log) p <= length (entries log) ->
  get_package_records st l root since limit =
    Done (Ok (spec_window_limit (entries log) start
                (get_records_before_checkpoint (checkpoint_indices log) p) limit)) st.
Proof.
  intros Hl Hp Hs Hr. unfold get_package_records.
  rewrite Hl, Hp, (fetch_start_since_at _ _ _ _ Hs), slice_limit_window by lia.
  reflexivity.
Qed.

Lemma get_operator_records_window {VO VP} (st : State VO VP) l log root p since start limit :
  operators st !! l = Some log ->
  get_index_of root (checkpoints st) = Some p ->
  since_at st l since start ->
  start <= get_records_before_checkpoint (checkpoint_indices log) p <= length (entries log) ->
  get_operator_records st l root since limit =
    Done (Ok (spec_window_limit (entries log) start
                (get_records_before_checkpoint (checkpoint_indices log) p) limit)) st.
Proof.
  intros Hl Hp Hs Hr. unfold get_operator_records.
  rewrite Hl, Hp, (fetch_start_since_at _ _ _ _ Hs), slice_limit_window by lia.
  reflexivity.
Qed.

Lemma core_fetch_package_records_window {VP} (info : Core.PackageInfo VP) since p start :
  List.NoDup (map Core.package_record_id (Core.log info)) ->
  core_since_at (Core.log info) Core.package_record_id since start ->
  start <= get_records_before_checkpoint (Core.checkpoint_indices info) p <= length (Core.log info) ->
  Core.fetch_package_records info since p =
    Some (Ok (spec_window (Core.log info) start
                (get_records_before_checkpoint (Core.checkpoint_indices info) p))).
Proof.
  intros Hnd Hs Hr. unfold Core.fetch_package_records.
  destruct since as [h|]; simpl in Hs.
  - destruct Hs as (i & env & Hi & <- & ->).
    unfold Core.get_package_record_index.
    rewrite (list_position_nodup _ _ i env Hnd Hi).
    rewrite slice_ok by lia. reflexivity.
  - subst start. rewrite slice_ok by lia. reflexivity.
Qed.

Lemma core_fetch_operator_records_window {VO} (info : Core.OperatorInfo VO) since p start :
  List.NoDup (map Core.operator_record_id (Core.op_log info)) ->
  core_since_at (Core.op_log info) Core.operator_record_id since start ->
  start <= get_records_before_checkpoint (Core.op_checkpoint_indices info) p <= length (Core.op_log info) ->
  Core.fetch_operator_records info since p =
    Some (Ok (spec_window (Core.op_log info) start
                (get_records_before_checkpoint (Core.op_checkpoint_indices info) p))).
Proof.
  intros Hnd Hs Hr. unfold Core.fetch_operator_records.
  destruct since as [h|]; simpl in Hs.
  - destruct Hs as (i & env & Hi & <- & ->).
    unfold Core.get_operator_record_index.
    rewrite (list_position_nodup _ _ i env Hnd Hi).
    rewrite slice_ok by lia. reflexivity.
  - subst start. rewrite slice_ok by lia. reflexivity.
Qed.

(** ** Panics of the fetch slice *)

Lemma get_package_records_past_root {VO VP} (st : State VO VP) l log root p s rec limit :
  packages st !! l = Some log ->
  get_index_of root (checkpoints st) = Some p ->
  status st l s = Some (Validated rec) ->
  get_records_before_checkpoint (checkpoint_indices log) p < index rec + 1 ->
  get_package_records st l root (Some s) limit = Panic st.
Proof.
  intros Hl Hp Hs Hlt. unfold get_package_records, fetch_start.
  rewrite Hl, Hp, Hs, slice_none by lia. reflexivity.
Qed.

Lemma get_operator_records_past_root {VO VP} (st : State VO VP) l log root p s rec limit :
  operators st !! l = Some log ->
  get_index_of root (checkpoints st) = Some p ->
  status st l s = Some (Validated rec) ->
  get_records_before_checkpoint (checkpoint_indices log) p < index rec + 1 ->
  get_operator_records st l root (Some s) limit = Panic st.
Proof.
  intros Hl Hp Hs Hlt. unfold get_operator_records, fetch_start.
  rewrite Hl, Hp, Hs, slice_none by lia. reflexivity.
Qed.

Lemma get_package_records_ok_start {VO VP} (st : State VO VP) l log root p since start limit v st' :
  packages st !! l = Some log ->
  get_index_of root (checkpoints st) = Some p ->
  fetch_start st l since = Some start ->
  get_package_records st l root since limit = Done (Ok v) st' ->
  start <= get_records_before_checkpoint (checkpoint_indices log) p.
Proof.
  intros Hl Hp Hs. unfold get_package_records. rewrite Hl, Hp, Hs.
  destruct (slice _ _ _) as [w|] eqn:E; [|discriminate].
  intros _. apply slice_some_le in E. lia.
Qed.

Lemma get_operator_records_ok_start {VO VP} (st : State VO VP) l log root p since start limit v st' :
  operators st !! l = Some log ->
  get_index_of root (checkpoints st) = Some p ->
  fetch_start st l since = Some start ->
  get_operator_records st l root since limit = Done (Ok v) st' ->
  start <= get_records_before_checkpoint (checkpoint_indices log) p.
Proof.
  intros Hl Hp Hs. unfold get_operator_records. rewrite Hl, Hp, Hs.
  destruct (slice _ _ _) as [w|] eqn:E; [|discriminate].
  intros _. apply slice_some_le in E. lia.
Qed.

Lemma core_fetch_package_records_past_root {VP} (info : Core.PackageInfo VP) h i p :
  Core.get_package_record_index (Core.log info) h = Ok i ->
  get_records_before_checkpoint (Core.checkpoint_indices info) p < i + 1 ->
  Core.fetch_package_records info (Some h) p = None.
Proof.
  intros Hi Hlt. unfold Core.fetch_package_records. rewrite Hi, slice_none by lia.
  reflexivity.
Qed.

Lemma core_fetch_operator_records_past_root {VO} (info : Core.OperatorInfo VO) h i p :
  Core.get_operator_record_index (Core.op_log info) h = Ok i ->
  get_records_before_checkpoint (Core.op_checkpoint_indices info) p < i + 1 ->
  Core.fetch_operator_records info (Some h) p = None.
Proof.
  intros Hi Hlt. unfold Core.fetch_operator_records. rewrite Hi, slice_none by lia.
  reflexivity.
Qed.

Lemma core_fetch_package_records_ok_start {VP} (info : Core.PackageInfo VP) h i p v :
  Core.get_package_record_index (Core.log info) h = Ok i ->
  Core.fetch_package_records info (Some h) p = Some (Ok v) ->
  i + 1 <= get_records_before_checkpoint (Core.checkpoint_indices info) p.
Proof.
  intros Hi. unfold Core.fetch_package_records. rewrite Hi.
  destruct (slice _ _ _) as [w|] eqn:E; [|discriminate].
  intros _. apply slice_some_le in E. exact E.
Qed.

Lemma core_fetch_operator_records_ok_start {VO} (info : Core.OperatorInfo VO) h i p v :
  Core.get_operator_record_index (Core.op_log info) h = Ok i ->
  Core.fetch_operator_records info (Some h) p = Some (Ok v) ->
  i + 1 <= get_records_before_checkpoint (Core.op_checkpoint_indices info) p.
Proof.
  intros Hi. unfold Core.fetch_operator_records. rewrite Hi.
  destruct (slice _ _ _) as [w|] eqn:E; [|discriminate].
  intros _. apply slice_some_le in E. exact E.
Qed.

(** ** Record status updates *)

Lemma status_set_status {VO VP} (st : State VO VP) l r x l' r' :
  status (set_status st l r x) l' r' =
    if decide (l' = l /\ r' = r) then Some x else status st l' r'.
Proof.
  unfold status, set_status, record_map; simpl.
  destruct (decide (l' = l)) as [->|Hl].
  - rewrite lookup_insert_eq. simpl. destruct (decide (r' = r)) as [->|Hr].
    + rewrite lookup_insert_eq, decide_True by auto. reflexivity.
    + rewrite lookup_insert_ne by congruence. rewrite decide_False by tauto.
      destruct (records st !! l); simpl; [reflexivity|apply lookup_empty].
  - rewrite lookup_insert_ne by congruence. rewrite decide_False by tauto. reflexivity.
Qed.

Lemma status_set_status_other {VO VP} (st : State VO VP) l r x l' r' :
  ~ (l' = l /\ r' = r) -> status (set_status st l r x) l' r' = status st l' r'.
Proof. intros Hne. rewrite status_set_status, decide_False by exact Hne. reflexivity. Qed.

Lemma status_set_status_same {VO VP} (st : State VO VP) l r x :
  status (set_status st l r x) l r = Some x.
Proof. rewrite status_set_status, decide_True by auto. reflexivity. Qed.

Lemma status_with_operators {VO VP} (st : State VO VP) o l r :
  status (with_operators st o) l r = status st l r.
Proof. reflexivity. Qed.

Lemma status_with_packages {VO VP} (st : State VO VP) p l r :
  status (with_packages st p) l r = status st l r.
Proof. reflexivity. Qed.

Lemma status_with_checkpoints {VO VP} (st : State VO VP) c l r :
  status (with_checkpoints st c) l r = status st l r.
Proof. reflexivity. Qed.

Lemma lookup_status_ok {VO VP} (st : State VO VP) l r x :
  lookup_status st l r = Ok x -> status st l r = Some x.
Proof.
  unfold lookup_status, status.
  destruct (records st !! l) as [m|]; simpl; [|discriminate].
  destruct (m !! r); simpl; congruence.
Qed.

Lemma lookup_status_status {VO VP} (st : State VO VP) l r x :
  status st l r = Some x -> lookup_status st l r = Ok x.
Proof.
  unfold lookup_status, status.
  destruct (records st !! l) as [m|]; simpl; [|discriminate].
  intros ->. reflexivity.
Qed.

Lemma record_map_status {VO VP} (st : State VO VP) l r :
  record_map st l !! r = status st l r.
Proof.
  unfold record_map, status. destruct (records st !! l); simpl; [reflexivity|apply lookup_empty].
Qed.

Lemma settled_refl s : is_pending s = false -> settled s s.
Proof. split; auto. Qed.

Lemma store_checkpoint_leaf_status {VO VP} (st st' : State VO VP) {res : result unit DataStoreError} cp leaf l r s :
  status st l r = Some s ->
  store_checkpoint_leaf cp st leaf = Done res st' ->
  status st' l r = Some s \/
  exists rec, s = Validated rec /\ status st' l r = Some (Validated (mkLogRecord (index rec) (Some cp))).
Proof.
  intros Hs. unfold store_checkpoint_leaf.
  set (l0 := leaf_log_id leaf). set (r0 := leaf_record_id leaf).
  destruct (operators st !! l0) as [log|] eqn:Eo;
    [|destruct (packages st !! l0) as [log|] eqn:Ep; [|discriminate]];
  lazymatch goal with
  | |- match status ?st1 l0 r0 with _ => _ end = _ -> _ =>
      assert (Hs1 : status st1 l r = status st l r) by reflexivity;
      destruct (status st1 l0 r0) as [[| |rec]|] eqn:E1; try discriminate;
      intros [= _ <-];
      destruct (decide (l = l0 /\ r = r0)) as [[-> ->]|Hne];
      [ right; rewrite Hs1, Hs in E1; injection E1 as ->; eexists; split;
        [reflexivity|apply status_set_status_same]
      | left; rewrite status_set_status_other by exact Hne; rewrite Hs1; exact Hs ]
  end.
Qed.

Lemma store_checkpoint_leaf_target {VO VP} (st st' : State VO VP) {res : result unit DataStoreError} cp leaf :
  store_checkpoint_leaf cp st leaf = Done res st' ->
  exists rec, status st' (leaf_log_id leaf) (leaf_record_id leaf) = Some (Validated rec) /\
              checkpoint_index rec = Some cp.
Proof.
  unfold store_checkpoint_leaf.
  destruct (operators st !! leaf_log_id leaf) as [log|];
    [|destruct (packages st !! leaf_log_id leaf) as [log|]; [|discriminate]];
  lazymatch goal with
  | |- match status ?st1 ?a ?b with _ => _ end = _ -> _ =>
      destruct (status st1 a b) as [[| |rec]|]; try discriminate;
      intros [= _ <-]; eexists; split; [apply status_set_status_same|reflexivity]
  end.
Qed.

Lemma store_checkpoint_leaves_settled {VO VP} cp leaves {res : result unit DataStoreError} :
  forall (st st' : State VO VP) l r s0 s,
  status st l r = Some s -> settled s0 s ->
  store_checkpoint_leaves cp st leaves = Done res st' ->
  exists s', status st' l r = Some s' /\ settled s0 s'.
Proof.
  induction leaves as [|leaf rest IH]; intros st st' l r s0 s Hs Hset Hrun; simpl in Hrun.
  - injection Hrun as _ <-. eauto.
  - destruct (store_checkpoint_leaf cp st leaf) as [res1 st1|st1] eqn:E1; [|discriminate].
    destruct (store_checkpoint_leaf_status _ _ _ _ _ _ _ Hs E1) as [H1|(rec & -> & H1)].
    + eapply IH; eauto.
    + eapply IH; [exact H1| |exact Hrun].
      destruct Hset as [_ Hrj]. split; [reflexivity|].
      intros rj Hrj0. specialize (Hrj rj Hrj0). discriminate.
Qed.

(** A pending status at the position an operation overwrites contradicts a
    settled status there. *)
Ltac settled_contra :=
  match goal with
  | El : lookup_status ?st ?l ?r = Ok (Pending _), Hs : status ?st ?l ?r = Some ?s,
    Hnp : is_pending ?s = false |- _ =>
      apply lookup_status_ok in El; rewrite El in Hs; injection Hs as <-; discriminate Hnp
  | E : record_map ?st ?l !! ?r = None, Hs : status ?st ?l ?r = Some _ |- _ =>
      rewrite record_map_status in E; congruence
  end.

Ltac settled_set :=
  match goal with
  | |- exists s', status (set_status _ ?a ?b _) ?l ?r = Some s' /\ settled ?s s' =>
      destruct (decide (l = a /\ r = b)) as [[-> ->]|Hne];
      [ exfalso; settled_contra
      | exists s; split;
        [ rewrite status_set_status_other by exact Hne; assumption
        | apply settled_refl; assumption ] ]
  | |- exists s', status _ ?l ?r = Some s' /\ settled ?s s' =>
      exists s; split; [assumption | apply settled_refl; assumption]
  end.

Lemma step_settled {VO VP} `{Validator VO} `{Validator VP} (st st' : State VO VP) op l r s :
  status st l r = Some s -> is_pending s = false -> step st op = Some st' ->
  exists s', status st' l r = Some s' /\ settled s s'.
Proof.
  intros Hs Hnp Hstep.
  destruct op as [l0 r0 e|l0 r0 reason|l0 r0|l0 r0 e m|l0 r0 reason|l0 r0|l0 r0 d|l0 r0 d
                 |cid c ps| |l0 root since limit|l0 root since limit]; simpl in Hstep.
  - unfold store_operator_record in Hstep.
    destruct (record_map st l0 !! r0) eqn:E; simpl in Hstep; [discriminate|].
    injection Hstep as <-. settled_set.
  - unfold reject_operator_record in Hstep.
    destruct (lookup_status st l0 r0) as [x|err] eqn:El;
      [|injection Hstep as <-; settled_set].
    destruct x as [[[e|]|[e|] m]|rj|rec]; simpl in Hstep; try discriminate;
      injection Hstep as <-; settled_set.
  - unfold validate_operator_record in Hstep.
    destruct (lookup_status st l0 r0) as [x|err] eqn:El;
      [|injection Hstep as <-; settled_set].
    destruct x as [[[e|]|[e|] m]|rj|rec]; simpl in Hstep; try discriminate;
      try (injection Hstep as <-; settled_set).
    destruct (validator_validate _ _) as [v' [a|err]]; simpl in Hstep;
      injection Hstep as <-; settled_set.
  - unfold store_package_record in Hstep.
    destruct (record_map st l0 !! r0) eqn:E; simpl in Hstep; [discriminate|].
    injection Hstep as <-. settled_set.
  - unfold reject_package_record in Hstep.
    destruct (lookup_status st l0 r0) as [x|err] eqn:El;
      [|injection Hstep as <-; settled_set].
    destruct x as [[[e|]|[e|] m]|rj|rec]; simpl in Hstep; try discriminate;
      injection Hstep as <-; settled_set.
  - unfold validate_package_record in Hstep.
    destruct (lookup_status st l0 r0) as [x|err] eqn:El;
      [|injection Hstep as <-; settled_set].
    destruct x as [[[e|]|[e|] m]|rj|rec]; simpl in Hstep; try discriminate;
      try (injection Hstep as <-; settled_set).
    destruct (validator_validate _ _) as [v' [a|err]]; simpl in Hstep;
      injection Hstep as <-; settled_set.
  - unfold is_content_missing in Hstep.
    destruct (lookup_status st l0 r0) as [x|err];
      [destruct x as [[e|e m]|rj|rec]|]; simpl in Hstep; injection Hstep as <-; settled_set.
  - unfold set_content_present in Hstep.
    destruct (lookup_status st l0 r0) as [x|err] eqn:El;
      [|injection Hstep as <-; settled_set].
    destruct x as [[e|e m]|rj|rec]; simpl in Hstep;
      try (injection Hstep as <-; settled_set).
    destruct (bool_decide (m = ∅)); simpl in Hstep; injection Hstep as <-; settled_set.
  - unfold store_checkpoint in Hstep.
    destruct (get_index_of cid (checkpoints st)); simpl in Hstep; [discriminate|].
    destruct (store_checkpoint_leaves _ _ _) as [r1 st1|st1] eqn:E; simpl in Hstep; [|discriminate].
    injection Hstep as <-.
    eapply store_checkpoint_leaves_settled; [| |exact E]; [exact Hs|apply settled_refl; exact Hnp].
  - unfold get_latest_checkpoint in Hstep.
    destruct (last (checkpoints st)) as [[? ?]|]; simpl in Hstep; [|discriminate].
    injection Hstep as <-. settled_set.
  - unfold get_operator_records in Hstep.
    repeat match type of Hstep with
           | state_after (match ?x with _ => _ end) = _ => destruct x; simpl in Hstep
           end; try discriminate; injection Hstep as <-; settled_set.
  - unfold get_package_records in Hstep.
    repeat match type of Hstep with
           | state_after (match ?x with _ => _ end) = _ => destruct x; simpl in Hstep
           end; try discriminate; injection Hstep as <-; settled_set.
Qed.

(** ** Checkpoint installation in the data store *)

Lemma log_checkpoint_indices_set_status {VO VP} (st : State VO VP) a b x l :
  log_checkpoint_indices (set_status st a b x) l = log_checkpoint_indices st l.
Proof. reflexivity. Qed.

Lemma store_checkpoint_leaf_indices {VO VP} (st st' : State VO VP) {res : result unit DataStoreError} cp leaf l :
  store_checkpoint_leaf cp st leaf = Done res st' ->
  log_checkpoint_indices st' l =
    log_checkpoint_indices st l ++ (if Nat.eqb (leaf_log_id leaf) l then [cp] else []).
Proof.
  unfold store_checkpoint_leaf.
  set (l0 := leaf_log_id leaf). set (r0 := leaf_record_id leaf).
  destruct (operators st !! l0) as [log|] eqn:Eo;
    [|destruct (packages st !! l0) as [log|] eqn:Ep; [|discriminate]];
  lazymatch goal with
  | |- match status ?st1 l0 r0 with _ => _ end = _ -> _ =>
      destruct (status st1 l0 r0) as [[| |rec]|]; try discriminate;
      intros [= _ <-]; rewrite log_checkpoint_indices_set_status;
      unfold log_checkpoint_indices; simpl
  end;
  (destruct (Nat.eqb_spec l0 l) as [<-|Hne];
   [ rewrite ?lookup_insert_eq, ?Eo, ?Ep, ?lookup_insert_eq; reflexivity
   | rewrite !lookup_insert_ne by exact Hne; rewrite app_nil_r; reflexivity ]).
Qed.

Lemma store_checkpoint_leaves_indices {VO VP} cp leaves {res : result unit DataStoreError} :
  forall (st st' : State VO VP) l,
  store_checkpoint_leaves cp st leaves = Done res st' ->
  log_checkpoint_indices st' l = log_checkpoint_indices st l ++ repeat cp (leaves_of leaves l).
Proof.
  unfold leaves_of.
  induction leaves as [|leaf rest IH]; intros st st' l Hrun; simpl in Hrun.
  - injection Hrun as _ <-. simpl. rewrite app_nil_r. reflexivity.
  - destruct (store_checkpoint_leaf cp st leaf) as [res1 st1|st1] eqn:E1; [|discriminate].
    rewrite (IH _ _ l Hrun), (store_checkpoint_leaf_indices _ _ _ _ l E1).
    simpl. destruct (Nat.eqb (leaf_log_id leaf) l); simpl; rewrite <- app_assoc; reflexivity.
Qed.

Lemma store_checkpoint_leaves_keep_marked {VO VP} cp leaves {res : result unit DataStoreError} :
  forall (st st' : State VO VP) l r rec,
  status st l r = Some (Validated rec) -> checkpoint_index rec = Some cp ->
  store_checkpoint_leaves cp st leaves = Done res st' ->
  exists rec', status st' l r = Some (Validated rec') /\ checkpoint_index rec' = Some cp.
Proof.
  induction leaves as [|leaf rest IH]; intros st st' l r rec Hs Hc Hrun; simpl in Hrun.
  - injection Hrun as _ <-. eauto.
  - destruct (store_checkpoint_leaf cp st leaf) as [res1 st1|st1] eqn:E1; [|discriminate].
    destruct (store_checkpoint_leaf_status _ _ _ _ _ _ _ Hs E1) as [H1|(rec1 & _ & H1)].
    + eapply IH; eauto.
    + eapply IH; [exact H1|reflexivity|exact Hrun].
Qed.

Lemma store_checkpoint_leaves_marked {VO VP} cp leaves {res : result unit DataStoreError} :
  forall (st st' : State VO VP),
  store_checkpoint_leaves cp st leaves = Done res st' ->
  forall leaf, In leaf leaves ->
  exists rec, status st' (leaf_log_id leaf) (leaf_record_id leaf) = Some (Validated rec) /\
              checkpoint_index rec = Some cp.
Proof.
  induction leaves as [|leaf0 rest IH]; intros st st' Hrun leaf Hin; [destruct Hin|].
  simpl in Hrun.
  destruct (store_checkpoint_leaf cp st leaf0) as [res1 st1|st1] eqn:E1; [|discriminate].
  destruct Hin as [<-|Hin].
  - destruct (store_checkpoint_leaf_target _ _ _ _ E1) as (rec & Hs & Hc).
    eapply store_checkpoint_leaves_keep_marked; eauto.
  - eapply IH; eauto.
Qed.

Lemma store_checkpoint_leaves_checkpoints {VO VP} cp leaves {res : result unit DataStoreError} :
  forall (st st' : State VO VP),
  store_checkpoint_leaves cp st leaves = Done res st' -> checkpoints st' = checkpoints st.
Proof.
  induction leaves as [|leaf rest IH]; intros st st' Hrun; simpl in Hrun.
  - injection Hrun as _ <-. reflexivity.
  - destruct (store_checkpoint_leaf cp st leaf) as [res1 st1|st1] eqn:E1; [|discriminate].
    rewrite (IH _ _ Hrun). unfold store_checkpoint_leaf in E1.
    destruct (operators st !! leaf_log_id leaf);
      [|destruct (packages st !! leaf_log_id leaf); [|discriminate]];
    lazymatch type of E1 with
    | match status ?st2 ?a ?b with _ => _ end = _ =>
        destruct (status st2 a b) as [[| |?]|]; try discriminate; injection E1 as _ <-; reflexivity
    end.
Qed.

Lemma get_index_of_app_new (cid : AnyHash) (c : Checkpoint) cps :
  get_index_of cid cps = None -> get_index_of cid (cps ++ [(cid, c)]) = Some (length cps).
Proof.
  unfold get_index_of. induction cps as [|[h c0] cps IH]; simpl; intros Hn.
  - rewrite Nat.eqb_refl. reflexivity.
  - destruct (Nat.eqb h cid); [discriminate|].
    destruct (list_position _ cps); [discriminate|]. rewrite IH by reflexivity. reflexivity.
Qed.

Lemma Sorted_app_repeat (xs : list nat) (p k : nat) :
  Sorted le xs -> Forall (fun i => i <= p) xs -> Sorted le (xs ++ repeat p k).
Proof.
  intros Hs Hb. induction Hs as [|x xs Hs IH Hhd]; simpl.
  - induction k as [|k IHk]; simpl; constructor; [exact IHk|].
    destruct k; simpl; constructor; lia.
  - inversion Hb as [|? ? Hx Hb']; subst. constructor; [exact (IH Hb')|].
    destruct xs as [|y xs]; simpl.
    + destruct k; simpl; constructor; exact Hx.
    + inversion Hhd; subst. constructor. assumption.
Qed.

(** ** Content presence *)

Lemma missing_after_empty (missing : gset AnyHash) ds : missing = ∅ -> missing_after missing ds = ∅.
Proof.
  revert missing. induction ds as [|d ds IH]; intros missing ->; simpl; [reflexivity|].
  apply IH. set_solver.
Qed.

Lemma set_content_present_all_pending {VO VP} ds :
  forall (st : State VO VP) l r record missing,
  status st l r = Some (Pending (PendingPackage record missing)) ->
  exists st', set_content_present_all st l r ds = Some (last_missing_calls missing ds, st') /\
              status st' l r = Some (Pending (PendingPackage record (missing_after missing ds))).
Proof.
  induction ds as [|d ds IH]; intros st l r record missing Hs; simpl.
  - eauto.
  - unfold set_content_present. rewrite (lookup_status_status _ _ _ _ Hs).
    destruct (decide (missing = ∅)) as [Hm|Hm].
    + rewrite (bool_decide_eq_true_2 _ Hm).
      assert (Hm' : missing ∖ {[d]} = missing) by set_solver.
      destruct (IH st l r record missing Hs) as (st' & Hrun & Hs').
      rewrite Hm' in *. rewrite Hrun. exists st'. split; [|exact Hs'].
      rewrite bool_decide_eq_false_2 by tauto. reflexivity.
    + rewrite (bool_decide_eq_false_2 _ Hm).
      destruct (IH (set_status st l r (Pending (PendingPackage record (missing ∖ {[d]})))) l r record
                   (missing ∖ {[d]}) (status_set_status_same _ _ _ _)) as (st' & Hrun & Hs').
      rewrite Hrun. exists st'. split; [|exact Hs'].
      rewrite (bool_decide_ext (missing <> ∅ /\ missing ∖ {[d]} = ∅) (missing ∖ {[d]} = ∅)) by tauto.
      reflexivity.
Qed.

Lemma last_missing_calls_count (missing : gset AnyHash) ds :
  count_occ Bool.bool_dec (last_missing_calls missing ds) true =
    if bool_decide (missing <> ∅ /\ missing_after missing ds = ∅) then 1 else 0.
Proof.
  revert missing. induction ds as [|d ds IH]; intros missing; simpl.
  - destruct (decide (missing = ∅)) as [Hm|Hm].
    + rewrite bool_decide_eq_false_2 by tauto. reflexivity.
    + rewrite bool_decide_eq_false_2 by tauto. reflexivity.
  - rewrite IH.
    destruct (decide (missing = ∅)) as [Hm|Hm].
    + rewrite (bool_decide_eq_false_2 (missing <> ∅ /\ _)) by tauto.
      rewrite (bool_decide_eq_false_2 (missing <> ∅ /\ missing_after _ _ = ∅)) by tauto.
      rewrite bool_decide_eq_false_2; [reflexivity|].
      intros [Hne _]. apply Hne. set_solver.
    + destruct (decide (missing ∖ {[d]} = ∅)) as [Hd|Hd].
      * rewrite (bool_decide_eq_true_2 (missing <> ∅ /\ _)) by tauto.
        rewrite (bool_decide_eq_false_2 (missing ∖ {[d]} <> ∅ /\ _)) by tauto.
        rewrite bool_decide_eq_true_2; [reflexivity|].
        split; [exact Hm|]. apply missing_after_empty. exact Hd.
      * rewrite (bool_decide_eq_false_2 (missing <> ∅ /\ _)) by tauto.
        simpl.
        rewrite (bool_decide_ext (missing ∖ {[d]} <> ∅ /\ _) (missing <> ∅ /\ missing_after (missing ∖ {[d]}) ds = ∅))
          by tauto.
        reflexivity.
Qed.

(** * Claims *)

(** ** What a data store call leaves behind, also when it panics *)

Lemma store_checkpoint_leaf_shape {VO VP} cp (st : State VO VP) leaf :
  outcome_state (store_checkpoint_leaf cp st leaf) = st \/
  exists st1, checkpoint_pushed cp st (leaf_log_id leaf) st1 /\
    (outcome_state (store_checkpoint_leaf cp st leaf) = st1 \/
     exists s, outcome_state (store_checkpoint_leaf cp st leaf) =
                 set_status st1 (leaf_log_id leaf) (leaf_record_id leaf) s).
Proof.
  unfold store_checkpoint_leaf, checkpoint_pushed. cbv zeta.
  destruct (operators st !! leaf_log_id leaf) as [log|] eqn:Eo; cbv beta iota.
  - right. eexists. split; [left; exists log; split; reflexivity|].
    destruct (status _ _ _) as [[| |rec]|]; cbn [outcome_state];
      [left|left|right; eexists|left]; reflexivity.
  - destruct (packages st !! leaf_log_id leaf) as [log|] eqn:Ep; cbv beta iota;
      [|left; reflexivity].
    right. eexists. split; [right; split; [reflexivity|exists log; split; reflexivity]|].
    destruct (status _ _ _) as [[| |rec]|]; cbn [outcome_state];
      [left|left|right; eexists|left]; reflexivity.
Qed.

Lemma indices_below_set_status {VO VP} b (st : State VO VP) l r s :
  indices_below b (set_status st l r s) <-> indices_below b st.
Proof. split; intros H'; exact H'. Qed.

Lemma indices_below_weaken {VO VP} b b' (st : State VO VP) :
  b <= b' -> indices_below b st -> indices_below b' st.
Proof.
  intros Hb [Ho Hp]. split.
  - intros l log E. destruct (Ho l log E) as [H1 H2]. split; [exact H1|].
    eapply Forall_impl; [exact H2|]. simpl. intros; lia.
  - intros l log E. destruct (Hp l log E) as [H1 H2]. split; [exact H1|].
    eapply Forall_impl; [exact H2|]. simpl. intros; lia.
Qed.

Lemma indices_below_operators {VO VP} b (st : State VO VP) l log' :
  indices_below b st ->
  Sorted le (checkpoint_indices log') -> Forall (fun i => i < b) (checkpoint_indices log') ->
  indices_below b (with_operators st (<[l := log']> (operators st))).
Proof.
  intros [Ho Hp] H1 H2. split; [|exact Hp].
  intros l0 log E. simpl in E. destruct (decide (l = l0)) as [<-|Hne].
  - rewrite lookup_insert_eq in E. injection E as <-. auto.
  - rewrite lookup_insert_ne in E by exact Hne. eauto.
Qed.

Lemma indices_below_packages {VO VP} b (st : State VO VP) l log' :
  indices_below b st ->
  Sorted le (checkpoint_indices log') -> Forall (fun i => i < b) (checkpoint_indices log') ->
  indices_below b (with_packages st (<[l := log']> (packages st))).
Proof.
  intros [Ho Hp] H1 H2. split; [exact Ho|].
  intros l0 log E. simpl in E. destruct (decide (l = l0)) as [<-|Hne].
  - rewrite lookup_insert_eq in E. injection E as <-. auto.
  - rewrite lookup_insert_ne in E by exact Hne. eauto.
Qed.

Lemma indices_push (xs : list nat) cp :
  Sorted le xs /\ Forall (fun i => i < S cp) xs ->
  Sorted le (xs ++ [cp]) /\ Forall (fun i => i < S cp) (xs ++ [cp]).
Proof.
  intros [Hs Hb]. split.
  - apply (Sorted_app_repeat xs cp 1); [exact Hs|].
    eapply Forall_impl; [exact Hb|]. simpl. intros; lia.
  - apply Forall_app. split; [exact Hb|]. constructor; [lia|constructor].
Qed.

Lemma checkpoint_pushed_props {VO VP} cp (st st1 : State VO VP) l :
  checkpoint_pushed cp st l st1 ->
  checkpoints st1 = checkpoints st /\
  (forall l', package_entries st1 l' = package_entries st l' /\
              operator_entries st1 l' = operator_entries st l') /\
  (indices_below (S cp) st -> indices_below (S cp) st1).
Proof.
  unfold package_entries, operator_entries.
  intros [(log & Eo & ->)|(Eo & log & Ep & ->)]; (split; [reflexivity|]); split.
  - intros l'. simpl. split; [reflexivity|].
    destruct (decide (l = l')) as [<-|Hne];
      [rewrite lookup_insert_eq, Eo; reflexivity|rewrite lookup_insert_ne by exact Hne; reflexivity].
  - intros Hb. apply indices_below_operators; [exact Hb|..];
      apply indices_push, (proj1 Hb l log Eo).
  - intros l'. simpl. split; [|reflexivity].
    destruct (decide (l = l')) as [<-|Hne];
      [rewrite lookup_insert_eq, Ep; reflexivity|rewrite lookup_insert_ne by exact Hne; reflexivity].
  - intros Hb. apply indices_below_packages; [exact Hb|..];
      apply indices_push, (proj2 Hb l log Ep).
Qed.

(** The participant loop keeps every property that one iteration keeps,
    whether the iteration returns or panics. *)
Lemma store_checkpoint_leaves_persist {VO VP} (P : State VO VP -> Prop) cp :
  (forall st leaf, P st -> P (outcome_state (store_checkpoint_leaf cp st leaf))) ->
  forall leaves st, P st -> P (outcome_state (store_checkpoint_leaves cp st leaves)).
Proof.
  intros Hleaf leaves. induction leaves as [|leaf rest IH]; intros st Hst; simpl; [exact Hst|].
  specialize (Hleaf st leaf Hst).
  destruct (store_checkpoint_leaf cp st leaf) as [r1 st1|st1]; simpl in *; [apply IH|]; exact Hleaf.
Qed.

Lemma store_checkpoint_leaf_keeps {VO VP} cp (st : State VO VP) leaf :
  let st' := outcome_state (store_checkpoint_leaf cp st leaf) in
  checkpoints st' = checkpoints st /\
  (forall l, package_entries st' l = package_entries st l /\
             operator_entries st' l = operator_entries st l) /\
  (indices_below (S cp) st -> indices_below (S cp) st').
Proof.
  cbv zeta.
  destruct (store_checkpoint_leaf_shape cp st leaf) as [->|(st1 & Hp & [->|[s ->]])].
  - split; [reflexivity|]. split; [intros; split; reflexivity|exact id].
  - exact (checkpoint_pushed_props _ _ _ _ Hp).
  - exact (checkpoint_pushed_props _ _ _ _ Hp).
Qed.

Lemma store_checkpoint_persist {VO VP} (st : State VO VP) cid c leaves :
  let st' := outcome_state (store_checkpoint st cid c leaves) in
  length (checkpoints st') = S (length (checkpoints st)) \/ length (checkpoints st') = length (checkpoints st).
Proof.
  cbv zeta. unfold store_checkpoint.
  destruct (get_index_of cid (checkpoints st)) as [i|]; cbn [outcome_state checkpoints with_checkpoints].
  - right. apply length_insert.
  - left.
    set (st0 := with_checkpoints st (checkpoints st ++ [(cid, c)])).
    assert (H0 : length (checkpoints st0) = S (length (checkpoints st)))
      by (simpl; rewrite length_app; simpl; lia).
    rewrite <- H0.
    apply (store_checkpoint_leaves_persist (fun s => length (checkpoints s) = length (checkpoints st0))).
    + intros s leaf Hs. rewrite (proj1 (store_checkpoint_leaf_keeps _ s leaf)). exact Hs.
    + reflexivity.
Qed.

Lemma store_checkpoint_indices_below {VO VP} (st : State VO VP) cid c leaves :
  indices_below (length (checkpoints st)) st ->
  let st' := outcome_state (store_checkpoint st cid c leaves) in
  indices_below (length (checkpoints st')) st'.
Proof.
  intros Hb. cbv zeta. unfold store_checkpoint.
  destruct (get_index_of cid (checkpoints st)) as [i|]; cbn [outcome_state].
  - cbn [checkpoints with_checkpoints]. rewrite length_insert. exact Hb.
  - set (cp := length (checkpoints st)).
    set (st0 := with_checkpoints st (checkpoints st ++ [(cid, c)])).
    enough (Hc : length (checkpoints (outcome_state (store_checkpoint_leaves cp st0 leaves))) = S cp /\
                 indices_below (S cp) (outcome_state (store_checkpoint_leaves cp st0 leaves)))
      by (destruct Hc as [-> Hc]; exact Hc).
    apply (store_checkpoint_leaves_persist
             (fun s => length (checkpoints s) = S cp /\ indices_below (S cp) s)).
    + intros s leaf [Hl Hs]. destruct (store_checkpoint_leaf_keeps cp s leaf) as (H1 & _ & H3).
      split; [rewrite H1; exact Hl|exact (H3 Hs)].
    + split; [simpl; rewrite length_app; simpl; lia|].
      apply (indices_below_weaken cp); [lia|exact Hb].
Qed.

Lemma step_persist_checkpoints {VO VP} `{Validator VO} `{Validator VP} (st : State VO VP) op :
  (forall cid c ps, op <> StoreCheckpoint cid c ps) ->
  checkpoints (step_persist st op) = checkpoints st.
Proof.
  intros Hop.
  destruct op as [l0 r e|l0 r reason|l0 r|l0 r e m|l0 r reason|l0 r|l0 r d|l0 r d
                 |cid c ps| |l0 root since limit|l0 root since limit];
    try (exfalso; exact (Hop _ _ _ eq_refl)); cbn [step_persist];
    [ unfold store_operator_record | unfold reject_operator_record | unfold validate_operator_record
    | unfold store_package_record | unfold reject_package_record | unfold validate_package_record
    | unfold is_content_missing | unfold set_content_present
    | unfold get_latest_checkpoint | unfold get_operator_records | unfold get_package_records ];
    repeat case_match; reflexivity.
Qed.

Lemma log_default_indices {V} `{Validator V} (b : nat) (m : option (Log V)) :
  (forall log, m = Some log -> Sorted le (checkpoint_indices log) /\ Forall (fun i => i < b) (checkpoint_indices log)) ->
  Sorted le (checkpoint_indices (default log_default m)) /\
  Forall (fun i => i < b) (checkpoint_indices (default log_default m)).
Proof. destruct m as [log|]; simpl; [auto|split; constructor]. Qed.

Lemma step_persist_indices_below {VO VP} `{Validator VO} `{Validator VP} (st : State VO VP) op :
  indices_below (length (checkpoints st)) st ->
  indices_below (length (checkpoints (step_persist st op))) (step_persist st op).
Proof.
  intros Hb.
  destruct op as [l0 r e|l0 r reason|l0 r|l0 r e m|l0 r reason|l0 r|l0 r d|l0 r d
                 |cid c ps| |l0 root since limit|l0 root since limit];
    try (exact (store_checkpoint_indices_below st _ _ _ Hb));
    rewrite step_persist_checkpoints by (intros ? ? ? E; discriminate E); cbn [step_persist];
    [ unfold store_operator_record | unfold reject_operator_record | unfold validate_operator_record
    | unfold store_package_record | unfold reject_package_record | unfold validate_package_record
    | unfold is_content_missing | unfold set_content_present
    | unfold get_latest_checkpoint | unfold get_operator_records | unfold get_package_records ];
    repeat case_match; cbn [outcome_state]; cbv zeta; try exact Hb.
  - apply indices_below_set_status, indices_below_operators; [exact Hb|..];
      eapply (log_default_indices _ (operators st !! l0)); intros log E; exact (proj1 Hb l0 log E).
  - apply indices_below_set_status, indices_below_operators; [exact Hb|..];
      eapply (log_default_indices _ (operators st !! l0)); intros log E; exact (proj1 Hb l0 log E).
  - apply indices_below_set_status, indices_below_packages; [exact Hb|..];
      eapply (log_default_indices _ (packages st !! l0)); intros log E; exact (proj2 Hb l0 log E).
  - apply indices_below_set_status, indices_below_packages; [exact Hb|..];
      eapply (log_default_indices _ (packages st !! l0)); intros log E; exact (proj2 Hb l0 log E).
Qed.

Lemma run_persist_indices_below {VO VP} `{Validator VO} `{Validator VP} ops :
  forall (st : State VO VP), indices_below (length (checkpoints st)) st ->
  indices_below (length (checkpoints (run_persist st ops))) (run_persist st ops).
Proof.
  induction ops as [|op ops IH]; intros st Hb; simpl; [exact Hb|].
  apply IH, step_persist_indices_below, Hb.
Qed.

Lemma indices_below_sorted {VO VP} b (st : State VO VP) l :
  indices_below b st -> Sorted le (log_checkpoint_indices st l).
Proof.
  intros [Ho Hp]. unfold log_checkpoint_indices.
  destruct (operators st !! l) as [log|] eqn:Eo; [exact (proj1 (Ho l log Eo))|].
  destruct (packages st !! l) as [log|] eqn:Ep; [exact (proj1 (Hp l log Ep))|constructor].
Qed.

Lemma indices_below_default {VO VP} : indices_below 0 (@state_default VO VP).
Proof. split; intros l log E; discriminate. Qed.

(** The fetch window.  For a package or operator log whose checkpoint
    [root] is at position [p], and a [since] record validated at log index
    [i] (start [i + 1]) or absent (start [0]), the data store's fetch returns
    [log[start .. end]] capped at [limit] and the core's fetch returns
    [log[start .. end]], where [end] is the number of checkpoint indices
    [<= p], provided [start <= end <= |log|].  With [r1..r5] published under
    [c1] and [r6..r8] under [c2],
    [get_package_records(log, c1.hash, Some(r2), 10)] returns [[r3, r4, r5]]. *)
Lemma fetch_returns_window :
  (forall (VO VP : Type) (st : State VO VP) l log root p since start limit,
     packages st !! l = Some log ->
     get_index_of root (checkpoints st) = Some p ->
     since_at st l since start ->
     start <= get_records_before_checkpoint (checkpoint_indices log) p <= length (entries log) ->
     get_package_records st l root since limit =
       Done (Ok (spec_window_limit (entries log) start
                   (get_records_before_checkpoint (checkpoint_indices log) p) limit)) st) /\
  (forall (VO VP : Type) (st : State VO VP) l log root p since start limit,
     operators st !! l = Some log ->
     get_index_of root (checkpoints st) = Some p ->
     since_at st l since start ->
     start <= get_records_before_checkpoint (checkpoint_indices log) p <= length (entries log) ->
     get_operator_records st l root since limit =
       Done (Ok (spec_window_limit (entries log) start
                   (get_records_before_checkpoint (checkpoint_indices log) p) limit)) st) /\
  (forall (VP : Type) (info : Core.PackageInfo VP) since p start,
     List.NoDup (map Core.package_record_id (Core.log info)) ->
     core_since_at (Core.log info) Core.package_record_id since start ->
     start <= get_records_before_checkpoint (Core.checkpoint_indices info) p <= length (Core.log info) ->
     Core.fetch_package_records info since p =
       Some (Ok (spec_window (Core.log info) start
                   (get_records_before_checkpoint (Core.checkpoint_indices info) p)))) /\
  (forall (VO : Type) (info : Core.OperatorInfo VO) since p start,
     List.NoDup (map Core.operator_record_id (Core.op_log info)) ->
     core_since_at (Core.op_log info) Core.operator_record_id since start ->
     start <= get_records_before_checkpoint (Core.op_checkpoint_indices info) p <= length (Core.op_log info) ->
     Core.fetch_operator_records info since p =
       Some (Ok (spec_window (Core.op_log info) start
                   (get_records_before_checkpoint (Core.op_checkpoint_indices info) p)))) /\
  match fetch_window_state with
  | Some st => get_package_records st 1 100 (Some 12) 10 = Done (Ok [13; 14; 15]) st
  | None => False
  end.
Proof.
  split; [intros; eapply get_package_records_window; eassumption|].
  split; [intros; eapply get_operator_records_window; eassumption|].
  split; [intros; apply core_fetch_package_records_window; assumption|].
  split; [intros; apply core_fetch_operator_records_window; assumption|].
  vm_compute. reflexivity.
Qed.

(** C1 (code bug).  A fetch whose [since] record lies past the root
    checkpoint panics instead of returning a typed error.  In the store of
    the spec's fetch window ([r1..r5] under [c1], [r6..r8] under [c2]),
    [since = r7] (validated at log index 6) with root [c1] ([end = 5])
    makes [get_package_records] slice [entries[7..5]] and panic; the core's
    [fetch_package_records] on the same log slices [log[7..5]] and panics
    too. *)
Lemma fetch_since_after_root_panics :
  match fetch_window_state with
  | Some st => status st 1 17 = Some (Validated (mkLogRecord 6 (Some 1))) /\
               get_package_records st 1 100 (Some 17) 10 = Panic st
  | None => False
  end /\
  Core.fetch_package_records
    (Core.mkPackageInfo 1 "pkg" 0 [11; 12; 13; 14; 15; 16; 17; 18] [0; 0; 0; 0; 0; 1; 1; 1] ∅)
    (Some 17) 0 = None.
Proof. vm_compute. split; [split|]; reflexivity. Qed.

(** C2 (code bug).  Calls that return keep a status that has left
    [Pending] out of [Pending], and keep a rejection the same rejection; a
    repeated rejection or validation fails with [RecordNotPending].  But a
    duplicate [store_package_record] or [store_operator_record] writes
    [Pending] before its [assert!] panics, and the write stays in the store:
    the record re-enters [Pending].  From [rejected_store], a duplicate store
    of the rejected record 5 and a validation turn it into a validated
    record. *)
Theorem duplicate_store_reenters_pending :
  (forall (VO VP : Type) `{Validator VO} `{Validator VP} (st : State VO VP) l r s,
     status st l r = Some s -> is_pending s = false ->
     (forall ops st', run_ops st ops = Some st' ->
        exists s', status st' l r = Some s' /\ is_pending s' = false /\
                   (forall rj, s = Rejected rj -> s' = Rejected rj)) /\
     (forall reason,
        reject_operator_record st l r reason = Done (Err (RecordNotPending r)) st /\
        reject_package_record st l r reason = Done (Err (RecordNotPending r)) st) /\
     validate_operator_record st l r = Done (Err (RecordNotPending r)) st /\
     validate_package_record st l r = Done (Err (RecordNotPending r)) st /\
     (forall e m,
        store_package_record st l r e m = Panic (set_status st l r (Pending (PendingPackage (Some e) m))) /\
        status (step_persist st (StorePackageRecord l r e m)) l r =
          Some (Pending (PendingPackage (Some e) m))) /\
     (forall e,
        store_operator_record st l r e = Panic (set_status st l r (Pending (PendingOperator (Some e)))) /\
        status (step_persist st (StoreOperatorRecord l r e)) l r = Some (Pending (PendingOperator (Some e))))) /\
  status rejected_store 1 5 = Some (Rejected (RejectedPackage 5 "bad")) /\
  status (run_persist rejected_store [StorePackageRecord 1 5 5 ∅]) 1 5 =
    Some (Pending (PendingPackage (Some 5) ∅)) /\
  status (run_persist rejected_store [StorePackageRecord 1 5 5 ∅; ValidatePackageRecord 1 5]) 1 5 =
    Some (Validated (mkLogRecord 0 None)).
Proof.
  split; [|vm_compute; split; [|split]; reflexivity].
  intros VO VP HO HP st l r s Hs Hnp. split; [|split; [|split; [|split; [|split]]]].
  - intros ops. revert st s Hs Hnp.
    induction ops as [|op ops IH]; intros st s Hs Hnp st' Hrun; simpl in Hrun.
    + injection Hrun as <-. exists s. auto.
    + destruct (step st op) as [st1|] eqn:E1; [|discriminate].
      destruct (step_settled _ _ _ _ _ _ Hs Hnp E1) as (s1 & Hs1 & Hnp1 & Hrj1).
      destruct (IH st1 s1 Hs1 Hnp1 st' Hrun) as (s2 & Hs2 & Hnp2 & Hrj2).
      exists s2. split; [exact Hs2|]. split; [exact Hnp2|]. auto.
  - intros reason. unfold reject_operator_record, reject_package_record.
    rewrite (lookup_status_status _ _ _ _ Hs).
    destruct s as [p|rj|rec]; [discriminate| |]; split; reflexivity.
  - unfold validate_operator_record. rewrite (lookup_status_status _ _ _ _ Hs).
    destruct s as [p|rj|rec]; [discriminate| |]; reflexivity.
  - unfold validate_package_record. rewrite (lookup_status_status _ _ _ _ Hs).
    destruct s as [p|rj|rec]; [discriminate| |]; reflexivity.
  - intros e m. cbn [step_persist]. unfold store_package_record.
    rewrite record_map_status, Hs. cbn [outcome_state]. split; [reflexivity|].
    apply status_set_status_same.
  - intros e. cbn [step_persist]. unfold store_operator_record.
    rewrite record_map_status, Hs. cbn [outcome_state]. split; [reflexivity|].
    apply status_set_status_same.
Qed.

Lemma duplicate_store_reenters_pending_witness :
  (forall ops st', run_ops rejected_store ops = Some st' ->
     exists s', status st' 1 5 = Some s' /\ is_pending s' = false /\
                (forall rj, Rejected (RejectedPackage 5 "bad") = Rejected rj -> s' = Rejected rj)) /\
  (forall reason,
     reject_operator_record rejected_store 1 5 reason = Done (Err (RecordNotPending 5)) rejected_store /\
     reject_package_record rejected_store 1 5 reason = Done (Err (RecordNotPending 5)) rejected_store) /\
  validate_operator_record rejected_store 1 5 = Done (Err (RecordNotPending 5)) rejected_store /\
  validate_package_record rejected_store 1 5 = Done (Err (RecordNotPending 5)) rejected_store /\
  (forall e m,
     store_package_record rejected_store 1 5 e m =
       Panic (set_status rejected_store 1 5 (Pending (PendingPackage (Some e) m))) /\
     status (step_persist rejected_store (StorePackageRecord 1 5 e m)) 1 5 =
       Some (Pending (PendingPackage (Some e) m))) /\
  (forall e,
     store_operator_record rejected_store 1 5 e =
       Panic (set_status rejected_store 1 5 (Pending (PendingOperator (Some e)))) /\
     status (step_persist rejected_store (StoreOperatorRecord 1 5 e)) 1 5 =
       Some (Pending (PendingOperator (Some e)))).
Proof.
  exact (proj1 duplicate_store_reenters_pending nat nat _ _ rejected_store 1 5
           (Rejected (RejectedPackage 5 "bad")) ltac:(vm_compute; reflexivity) ltac:(reflexivity)).
Defined.

(** C3.  Validating a pending record with its envelope either appends the
    envelope to its log and marks it [Validated] at the log's former length
    with no checkpoint (validator success), or leaves the log's entries
    unchanged and marks it [Rejected] with the envelope and the error's
    string as the reason (validator failure); this holds for package and
    operator records. *)
Theorem validate_record_all_or_nothing :
  (forall (VO VP : Type) `{Validator VO} `{Validator VP} (st : State VO VP) l r env missing,
     status st l r = Some (Pending (PendingPackage (Some env) missing)) ->
     exists res st', validate_package_record st l r = Done res st' /\
       match snd (validator_validate (validator (default log_default (packages st !! l))) env) with
       | Ok _ =>
           res = Ok tt /\ package_entries st' l = package_entries st l ++ [env] /\
           status st' l r = Some (Validated (mkLogRecord (length (package_entries st l)) None))
       | Err e =>
           res = Err (PackageValidationFailed e) /\ package_entries st' l = package_entries st l /\
           status st' l r =
             Some (Rejected (RejectedPackage env (DataStoreError_to_string (PackageValidationFailed e))))
       end) /\
  (forall (VO VP : Type) `{Validator VO} `{Validator VP} (st : State VO VP) l r env,
     status st l r = Some (Pending (PendingOperator (Some env))) ->
     exists res st', validate_operator_record st l r = Done res st' /\
       match snd (validator_validate (validator (default log_default (operators st !! l))) env) with
       | Ok _ =>
           res = Ok tt /\ operator_entries st' l = operator_entries st l ++ [env] /\
           status st' l r = Some (Validated (mkLogRecord (length (operator_entries st l)) None))
       | Err e =>
           res = Err (OperatorValidationFailed e) /\ operator_entries st' l = operator_entries st l /\
           status st' l r =
             Some (Rejected (RejectedOperator env (DataStoreError_to_string (OperatorValidationFailed e))))
       end).
Proof.
  split.
  - intros VO VP HO HP st l r env missing Hs.
    unfold validate_package_record. rewrite (lookup_status_status _ _ _ _ Hs).
    destruct (validator_validate _ env) as [v' [contents|e]]; simpl;
      (eexists; eexists; split; [reflexivity|]);
      unfold package_entries; cbn [packages set_status with_packages with_records];
      rewrite lookup_insert_eq, status_set_status_same;
      destruct (packages st !! l); simpl; auto.
  - intros VO VP HO HP st l r env Hs.
    unfold validate_operator_record. rewrite (lookup_status_status _ _ _ _ Hs).
    destruct (validator_validate _ env) as [v' [contents|e]]; simpl;
      (eexists; eexists; split; [reflexivity|]);
      unfold operator_entries; cbn [operators set_status with_operators with_records];
      rewrite lookup_insert_eq, status_set_status_same;
      destruct (operators st !! l); simpl; auto.
Qed.

Lemma validate_record_all_or_nothing_witness :
  exists res st', validate_package_record pending_store 1 5 = Done res st' /\
    (res = Ok tt /\ package_entries st' 1 = package_entries pending_store 1 ++ [5] /\
     status st' 1 5 = Some (Validated (mkLogRecord (length (package_entries pending_store 1)) None))).
Proof.
  exact (proj1 validate_record_all_or_nothing nat nat _ _ pending_store 1 5 5 ∅
           ltac:(vm_compute; reflexivity)).
Defined.

(** C4 (code bug).  In the data store, a checkpoint stored with participant leaves
    gets the next index [p]; afterwards each participant record is
    [Validated] and marked with [p], each log's checkpoint indices grow by
    one [p] per participant leaf of that log, and in every store reached
    from the empty one every log's checkpoint indices are sorted.  The core
    does not keep that order: [NewCheckpoint] [tokio::spawn]s one
    [mark_published] task per leaf, and the tasks of two checkpoints may
    take the package lock in either order.  With records [7] and [8] of one
    package checkpointed under [5] (index [1]) and [6] (index [2]), the
    task of the later checkpoint running first leaves the package's
    checkpoint indices [[2; 1]], which are not sorted; run in spawn order
    they are [[1; 2]]. *)
Theorem checkpoint_marks_out_of_order :
  (forall (VO VP : Type) `{Validator VO} `{Validator VP} ops (st' : State VO VP) cid c leaves,
     let st := run_persist state_default ops in
     store_checkpoint st cid c leaves = Done (Ok tt) st' ->
     get_index_of cid (checkpoints st') = Some (length (checkpoints st)) /\
     (forall leaf, In leaf leaves ->
        exists rec, status st' (leaf_log_id leaf) (leaf_record_id leaf) = Some (Validated rec) /\
                    checkpoint_index rec = Some (length (checkpoints st))) /\
     (forall l, log_checkpoint_indices st' l =
                  log_checkpoint_indices st l ++ repeat (length (checkpoints st)) (leaves_of leaves l)) /\
     (forall l, Sorted le (log_checkpoint_indices st' l))) /\
  (exists s resps lv,
     Core.run_events core_example_log
       (Core.start core_example_state) core_out_of_order_events = Some (s, resps, lv) /\
     core_published (Core.package_states (Core.core s)) 1 7 5 /\
     core_published (Core.package_states (Core.core s)) 1 8 6 /\
     core_checkpoint_indices (Core.package_states (Core.core s)) 1 = [2; 1] /\
     ~ Sorted le (core_checkpoint_indices (Core.package_states (Core.core s)) 1)) /\
  (exists s resps lv,
     Core.run_events core_example_log
       (Core.start core_example_state) core_in_order_events = Some (s, resps, lv) /\
     core_checkpoint_indices (Core.package_states (Core.core s)) 1 = [1; 2]).
Proof.
  split; [|split].
  - intros VO VP HO HP ops st' cid c leaves st Hst.
    pose proof (store_checkpoint_indices_below st cid c leaves
                  (run_persist_indices_below ops state_default indices_below_default)) as Hb.
    cbv zeta in Hb. rewrite Hst in Hb. cbn [outcome_state] in Hb.
    unfold store_checkpoint in Hst.
    destruct (get_index_of cid (checkpoints st)) eqn:Eg; [discriminate|].
    destruct (store_checkpoint_leaves _ _ leaves) as [r1 st1|st1] eqn:Er; [|discriminate].
    injection Hst as -> <-.
    split; [|split; [|split]].
    + rewrite (store_checkpoint_leaves_checkpoints _ _ _ _ Er). simpl.
      apply get_index_of_app_new. exact Eg.
    + exact (store_checkpoint_leaves_marked _ _ _ _ Er).
    + intros l. rewrite (store_checkpoint_leaves_indices _ _ _ _ l Er). reflexivity.
    + intros l. exact (indices_below_sorted _ _ l Hb).
  - do 3 eexists. split; [vm_compute; reflexivity|].
    split; [|split; [|split]].
    + do 2 eexists. split; [vm_compute; reflexivity|]. split; vm_compute; reflexivity.
    + do 2 eexists. split; [vm_compute; reflexivity|]. split; vm_compute; reflexivity.
    + vm_compute. reflexivity.
    + vm_compute. intros Hs. inversion Hs as [|x l Hs' Hhd]; subst.
      inversion Hhd as [|y l' Hle]; subst. lia.
  - do 3 eexists. split; [vm_compute; reflexivity|]. vm_compute. reflexivity.
Qed.

Lemma checkpoint_marks_out_of_order_witness :
  get_index_of 100 (checkpoints checkpointed_store) = Some 0 /\
  (forall l, Sorted le (log_checkpoint_indices checkpointed_store l)) /\
  log_checkpoint_indices checkpointed_store 1 = [0].
Proof.
  destruct (proj1 checkpoint_marks_out_of_order nat nat accept_all_validator accept_all_validator
              [StorePackageRecord 1 11 11 ∅; ValidatePackageRecord 1 11] checkpointed_store
              100 1 [mkLogLeaf 1 11] ltac:(vm_compute; reflexivity)) as (H1 & _ & H3 & H4).
  split; [exact H1|]. split; [exact H4|].
  rewrite H3. reflexivity.
Defined.

(** C5 (amended).  For a pending package record, reporting digests present
    one call at a time answers [true] exactly on a call that makes a
    non-empty missing set empty; so at most one call answers [true], and one
    does exactly when the missing set was non-empty at first and the calls
    empty it.  For an operator record the answer is [false]; for a record no
    longer pending the call fails with [RecordNotPending]. *)
Theorem set_content_present_true_once :
  (forall (VO VP : Type) (st : State VO VP) l r record missing ds,
     status st l r = Some (Pending (PendingPackage record missing)) ->
     exists st', set_content_present_all st l r ds = Some (last_missing_calls missing ds, st') /\
       status st' l r = Some (Pending (PendingPackage record (missing_after missing ds))) /\
       count_occ Bool.bool_dec (last_missing_calls missing ds) true =
         (if bool_decide (missing <> ∅ /\ missing_after missing ds = ∅) then 1 else 0)) /\
  (forall (VO VP : Type) (st : State VO VP) l r record d,
     status st l r = Some (Pending (PendingOperator record)) ->
     set_content_present st l r d = Done (Ok false) st) /\
  (forall (VO VP : Type) (st : State VO VP) l r s d,
     status st l r = Some s -> is_pending s = false ->
     set_content_present st l r d = Done (Err (RecordNotPending r)) st).
Proof.
  split; [|split].
  - intros VO VP st l r record missing ds Hs.
    destruct (set_content_present_all_pending ds st l r record missing Hs) as (st' & H1 & H2).
    exists st'. split; [exact H1|]. split; [exact H2|]. apply last_missing_calls_count.
  - intros VO VP st l r record d Hs. unfold set_content_present.
    rewrite (lookup_status_status _ _ _ _ Hs). reflexivity.
  - intros VO VP st l r s d Hs Hnp. unfold set_content_present.
    rewrite (lookup_status_status _ _ _ _ Hs). destruct s; [discriminate|reflexivity..].
Qed.

Lemma set_content_present_true_once_witness :
  (exists st', set_content_present_all pending_missing_store 1 5 [7; 8] =
                 Some (last_missing_calls {[7; 8]} [7; 8], st') /\
    status st' 1 5 = Some (Pending (PendingPackage (Some 5) (missing_after {[7; 8]} [7; 8]))) /\
    count_occ Bool.bool_dec (last_missing_calls {[7; 8]} [7; 8]) true =
      (if bool_decide (({[7; 8]} : gset AnyHash) <> ∅ /\ missing_after {[7; 8]} [7; 8] = ∅) then 1 else 0)) /\
  last_missing_calls {[7; 8]} [7; 8] = [false; true].
Proof.
  split.
  - apply (proj1 set_content_present_true_once nat nat pending_missing_store 1 5 (Some 5)
             ({[7; 8]} : gset AnyHash) [7; 8]).
    vm_compute. reflexivity.
  - vm_compute. reflexivity.
Defined.

(** C5 counterexample: a package record stored with nothing missing never
    gets a [true] answer, although after any of the calls no content is
    missing. *)
Lemma set_content_present_stored_complete :
  set_content_present_all pending_store 1 5 [7; 8] = Some ([false; false], pending_store) /\
  status pending_store 1 5 = Some (Pending (PendingPackage (Some 5) ∅)).
Proof. vm_compute. split; reflexivity. Qed.

(** C6 (code bug).  In the data store, fetching package records [since] a
    record that was rejected panics (the [unreachable!()] of
    [get_package_records]) instead of returning an error, while the core
    answers the same question with [PackageRecordNotFound]. *)
Lemma fetch_since_rejected_panics :
  match run_ops state_default published_and_rejected_ops with
  | Some st => status st 1 12 = Some (Rejected (RejectedPackage 12 "bad")) /\
               get_package_records st 1 100 (Some 12) 10 = Panic st
  | None => False
  end /\
  Core.fetch_package_records (Core.mkPackageInfo 1 "pkg" 0 [11] [0] ∅) (Some 12) 0 =
    Some (Err (Core.PackageRecordNotFound 12)).
Proof. vm_compute. split; [split|]; reflexivity. Qed.

(** C7 (code bug).  A package record whose validation names a needed content digest
    that is not among the provided content sources: when the submitter
    still waits for the answer, [new_record] answers [Rejected], leaves the
    package's log, records and checkpoint indices unchanged, sends no leaf,
    and rolls its validator back to the snapshot taken before validation,
    hence to the one before the submission under the snapshot law.  But
    [response.send(state).unwrap()] comes before the rollback: when the
    submitter has dropped its receiver the send panics and the validator
    keeps the state the validation left ([v'], not rolled back).  With a
    validator that needs each record's own digest and obeys the snapshot
    law, submitting record [7] of ["pkg"] with no content leaves the
    package's validator at [0] when the answer is received and at [1] when
    it is not. *)
Theorem new_record_missing_content_skips_rollback :
  (forall (VP : Type) `{Validator VP} (info : Core.PackageInfo VP) record content_sources v' contents
     needed transparency_open,
   validator_validate (Core.validator info) record = (v', Ok contents) ->
   In needed contents -> ~ In needed (map Core.digest content_sources) ->
   (exists reason info',
      Core.new_record info record content_sources true transparency_open =
        (info', Some (Core.Rejected reason), []) /\
      Core.validator info' = validator_rollback v' (validator_snapshot (Core.validator info)) /\
      Core.log info' = Core.log info /\ Core.records info' = Core.records info /\
      Core.checkpoint_indices info' = Core.checkpoint_indices info /\
      (snapshot_rollback_law VP -> Core.validator info' = Core.validator info)) /\
   Core.new_record info record content_sources false transparency_open =
     (Core.with_validator info v', None, [])) /\
  @snapshot_rollback_law nat release_validator /\
  (exists s resps lv,
     @Core.run_events nat nat release_validator core_example_log (Core.start core_example_state)
       [Core.Receive (Core.SubmitPackageRecord "pkg" 7 []) true; Core.RunTask 0 true true] = Some (s, resps, lv) /\
     resps = [None; Some (Core.RecordStateResponse (Core.Rejected (Core.needed_content_reason 7)))] /\
     option_map Core.validator (Core.package_states (Core.core s) !! 1) = Some 0) /\
  (exists s resps lv,
     @Core.run_events nat nat release_validator core_example_log (Core.start core_example_state)
       [Core.Receive (Core.SubmitPackageRecord "pkg" 7 []) true; Core.RunTask 0 false true] = Some (s, resps, lv) /\
     resps = [None; None] /\
     option_map Core.validator (Core.package_states (Core.core s) !! 1) = Some 1).
Proof.
  split; [|split; [|split]].
  - intros VP HP info record content_sources v' contents needed to Hv Hin Hnot.
    unfold Core.new_record. rewrite Hv.
    destruct (List.find _ contents) as [d|] eqn:Ef.
    + split; [|reflexivity].
      do 2 eexists. split; [reflexivity|]. cbn.
      split; [reflexivity|]. split; [reflexivity|]. split; [reflexivity|]. split; [reflexivity|].
      intros Hlaw. pose proof (Hlaw (Core.validator info) record) as Hl.
      rewrite Hv in Hl. exact Hl.
    + exfalso. pose proof (find_none _ _ Ef needed Hin) as Hn. simpl in Hn.
      apply Hnot. apply list_elem_of_In.
      destruct (bool_decide_reflect (needed ∈ map Core.digest content_sources)) as [Hm|Hm];
        [exact Hm|discriminate].
  - intros v record. reflexivity.
  - do 3 eexists. split; [vm_compute; reflexivity|]. split; vm_compute; reflexivity.
  - do 3 eexists. split; [vm_compute; reflexivity|]. split; vm_compute; reflexivity.
Qed.

Lemma new_record_missing_content_skips_rollback_witness :
  (exists reason info',
     @Core.new_record nat release_validator (Core.mkPackageInfo 1 "pkg" 0 [] [] ∅) 7 [] true true =
       (info', Some (Core.Rejected reason), []) /\
     Core.validator info' = 0) /\
  @Core.new_record nat release_validator (Core.mkPackageInfo 1 "pkg" 0 [] [] ∅) 7 [] false true =
    (Core.mkPackageInfo 1 "pkg" 1 [] [] ∅, None, []).
Proof.
  destruct (proj1 new_record_missing_content_skips_rollback nat release_validator
              (Core.mkPackageInfo 1 "pkg" 0 [] [] ∅) 7 [] 1 [7] 7 true
              ltac:(reflexivity) ltac:(simpl; auto) ltac:(simpl; auto))
    as [(reason & info' & Hr & Hv & _) Hclosed].
  split; [exists reason, info'; split; [exact Hr|exact Hv]|exact Hclosed].
Defined.

(** C8.  Storing a package or operator record under a log id and record id
    that already have a status fails (the store's [assert!] panics): it
    never returns [Ok] while overwriting the existing status. *)
Theorem store_record_existing_fails :
  forall (VO VP : Type) (st : State VO VP) l r s,
  status st l r = Some s ->
  (forall record, store_operator_record st l r record = Panic (set_status st l r (Pending (PendingOperator (Some record))))) /\
  (forall record missing, store_package_record st l r record missing =
     Panic (set_status st l r (Pending (PendingPackage (Some record) missing)))).
Proof.
  intros VO VP st l r s Hs.
  unfold store_operator_record, store_package_record. rewrite record_map_status, Hs.
  split; reflexivity.
Qed.

Lemma store_record_existing_fails_witness :
  (forall record, store_operator_record rejected_store 1 5 record =
     Panic (set_status rejected_store 1 5 (Pending (PendingOperator (Some record))))) /\
  (forall record missing, store_package_record rejected_store 1 5 record missing =
     Panic (set_status rejected_store 1 5 (Pending (PendingPackage (Some record) missing)))).
Proof.
  exact (store_record_existing_fails nat nat rejected_store 1 5 (Rejected (RejectedPackage 5 "bad"))
           ltac:(vm_compute; reflexivity)).
Defined.

(** C9 (amended).  With a pending publish in storage, [enqueue] fails
    exactly when loading the pending publish fails, or the entry targets
    another package, or producing the entry fails, or the entry is [Init]
    and the batch already initializes the package, or storing the batch
    back fails; a failure leaves the stored batch unchanged, and otherwise
    the entry is appended to the batch's entries and the batch is stored
    back.  Starting a publish while one is pending fails and leaves it in
    storage, so at most one pending publish exists at a time. *)
Theorem enqueue_pending_publish :
  forall (io : Publish.Io) (info : Publish.PublishInfo) (name : string)
    (entry : result Publish.PublishEntry string),
  ((exists e, fst (Publish.enqueue io (Some info) name entry) = Err e) <->
     (is_Some (Publish.load_error io) \/ Publish.package info <> name \/ (exists e, entry = Err e) \/
      (entry = Ok Publish.Init /\ Publish.initializing info = true) \/ is_Some (Publish.store_error io))) /\
  ((exists e, fst (Publish.enqueue io (Some info) name entry) = Err e) ->
     snd (Publish.enqueue io (Some info) name entry) = Some info) /\
  (forall e, Publish.load_error io = None -> Publish.package info = name -> entry = Ok e ->
     ~ (e = Publish.Init /\ Publish.initializing info = true) -> Publish.store_error io = None ->
     Publish.enqueue io (Some info) name entry =
       (Ok None, Some (Publish.mkPublishInfo (Publish.package info) (Publish.head info)
                                             (Publish.entries info ++ [e])))) /\
  (forall io' name', (exists e, fst (Publish.publish_start io' (Some info) name') = Err e) /\
                     snd (Publish.publish_start io' (Some info) name') = Some info).
Proof.
  intros [le se] info name entry. unfold Publish.enqueue, Publish.publish_start. cbn [Publish.load_error Publish.store_error].
  split; [|split; [|split]].
  - destruct le as [l|]; [split; intros _; [left; eauto|eauto]|].
    destruct (String.eqb_spec (Publish.package info) name) as [Hn|Hn]; simpl;
      [|split; intros _; [right; left; exact Hn|eauto]].
    destruct entry as [e|err]; simpl; [|split; intros _; eauto 6].
    destruct (Publish.is_init e && Publish.initializing info) eqn:Ei; simpl.
    + split; intros _; [|eauto]. right. right. right. left.
      apply andb_true_iff in Ei as [Hi Hin]. destruct e; try discriminate. auto.
    + destruct se as [x|]; simpl; [split; intros _; eauto 7|].
      split; [intros [x Hx]; discriminate|].
      intros Hx. repeat match goal with
                        | H : _ \/ _ |- _ => destruct H
                        | H : _ /\ _ |- _ => destruct H
                        | H : exists _, _ |- _ => destruct H
                        | H : is_Some None |- _ => destruct H
                        end; try congruence.
      injection H as ->. simpl in Ei. congruence.
  - destruct le as [l|]; [reflexivity|].
    destruct (negb (String.eqb (Publish.package info) name)); [reflexivity|].
    destruct entry as [e|err]; simpl; [|reflexivity].
    destruct (Publish.is_init e && Publish.initializing info); simpl; [reflexivity|].
    destruct se; [reflexivity|]. intros [x Hx]. discriminate.
  - intros e -> Hn -> Hne ->. rewrite Hn, String.eqb_refl. simpl.
    destruct e; simpl; [|reflexivity..].
    destruct (Publish.initializing info) eqn:Ei; [|reflexivity].
    exfalso. apply Hne. auto.
  - intros [le' se'] name'. simpl. destruct le'; simpl; eauto.
Qed.

Lemma enqueue_pending_publish_witness :
  Publish.enqueue Publish.io_ok (Some (Publish.mkPublishInfo "pkg" None [Publish.Init])) "pkg"
                  (Ok (Publish.Release "1.0.0" 7)) =
    (Ok None, Some (Publish.mkPublishInfo "pkg" None [Publish.Init; Publish.Release "1.0.0" 7])).
Proof.
  exact (proj1 (proj2 (proj2 (enqueue_pending_publish Publish.io_ok
           (Publish.mkPublishInfo "pkg" None [Publish.Init]) "pkg" (Ok (Publish.Release "1.0.0" 7)))))
           (Publish.Release "1.0.0" 7) eq_refl eq_refl eq_refl ltac:(intros [H _]; discriminate) eq_refl).
Defined.

(** C9 counterexample: the entry targets the pending batch's package and is
    not [Init], and every storage operation succeeds, yet [enqueue] fails,
    because producing the entry failed. *)
Lemma enqueue_entry_error :
  Publish.enqueue Publish.io_ok (Some (Publish.mkPublishInfo "pkg" None [])) "pkg" (Err "io error") =
    (Err "io error", Some (Publish.mkPublishInfo "pkg" None [])).
Proof. reflexivity. Qed.

(** C10.  In both fetch implementations, a [since] record at log index [i]
    with [i + 1] beyond [end] (the number of checkpoint indices [<= p])
    makes the slice [log[i + 1 .. end]] panic; so a fetch that returns
    entries had [start <= end]. *)
Theorem fetch_start_past_end_panics :
  (forall (VO VP : Type) (st : State VO VP) l log root p s rec limit,
     packages st !! l = Some log -> get_index_of root (checkpoints st) = Some p ->
     status st l s = Some (Validated rec) ->
     get_records_before_checkpoint (checkpoint_indices log) p < index rec + 1 ->
     get_package_records st l root (Some s) limit = Panic st) /\
  (forall (VO VP : Type) (st : State VO VP) l log root p s rec limit,
     operators st !! l = Some log -> get_index_of root (checkpoints st) = Some p ->
     status st l s = Some (Validated rec) ->
     get_records_before_checkpoint (checkpoint_indices log) p < index rec + 1 ->
     get_operator_records st l root (Some s) limit = Panic st) /\
  (forall (VP : Type) (info : Core.PackageInfo VP) h i p,
     Core.get_package_record_index (Core.log info) h = Ok i ->
     get_records_before_checkpoint (Core.checkpoint_indices info) p < i + 1 ->
     Core.fetch_package_records info (Some h) p = None) /\
  (forall (VO : Type) (info : Core.OperatorInfo VO) h i p,
     Core.get_operator_record_index (Core.op_log info) h = Ok i ->
     get_records_before_checkpoint (Core.op_checkpoint_indices info) p < i + 1 ->
     Core.fetch_operator_records info (Some h) p = None) /\
  (forall (VO VP : Type) (st st' : State VO VP) l log root p since start limit v,
     packages st !! l = Some log -> get_index_of root (checkpoints st) = Some p ->
     fetch_start st l since = Some start ->
     get_package_records st l root since limit = Done (Ok v) st' ->
     start <= get_records_before_checkpoint (checkpoint_indices log) p) /\
  (forall (VP : Type) (info : Core.PackageInfo VP) h i p v,
     Core.get_package_record_index (Core.log info) h = Ok i ->
     Core.fetch_package_records info (Some h) p = Some (Ok v) ->
     i + 1 <= get_records_before_checkpoint (Core.checkpoint_indices info) p).
Proof.
  split; [intros; eapply get_package_records_past_root; eassumption|].
  split; [intros; eapply get_operator_records_past_root; eassumption|].
  split; [intros; eapply core_fetch_package_records_past_root; eassumption|].
  split; [intros; eapply core_fetch_operator_records_past_root; eassumption|].
  split; [intros; eapply get_package_records_ok_start; eassumption|].
  intros; eapply core_fetch_package_records_ok_start; eassumption.
Qed.

Lemma fetch_start_past_end_panics_witness :
  get_package_records fetch_window_store 1 100 (Some 17) 10 = Panic fetch_window_store /\
  Core.fetch_package_records (Core.mkPackageInfo 1 "pkg" 0 [11; 12; 13] [0; 0; 1] ∅) (Some 13) 0 = None.
Proof.
  split.
  - exact (proj1 fetch_start_past_end_panics nat nat fetch_window_store 1
             (mkLog 8 [11; 12; 13; 14; 15; 16; 17; 18] [0; 0; 0; 0; 0; 1; 1; 1]) 100 0 17
             (mkLogRecord 6 (Some 1)) 10
             ltac:(vm_compute; reflexivity) ltac:(vm_compute; reflexivity)
             ltac:(vm_compute; reflexivity) ltac:(vm_compute; lia)).
  - exact (proj1 (proj2 (proj2 fetch_start_past_end_panics)) nat
             (Core.mkPackageInfo 1 "pkg" 0 [11; 12; 13] [0; 0; 1] ∅) 13 2 0
             ltac:(vm_compute; reflexivity) ltac:(vm_compute; lia)).
Defined.

(** * Further properties of the code *)

(** ** Well-formed data stores *)








Lemma is_content_missing_same {VO VP} (st st' : State VO VP) l r d res :
  is_content_missing st l r d = Done res st' -> st' = st.
Proof. unfold is_content_missing. repeat case_match; congruence. Qed.

Lemma get_latest_checkpoint_same {VO VP} (st st' : State VO VP) res :
  get_latest_checkpoint st = Done res st' -> st' = st.
Proof. unfold get_latest_checkpoint. repeat case_match; congruence. Qed.

Lemma get_operator_records_same {VO VP} (st st' : State VO VP) l root since limit res :
  get_operator_records st l root since limit = Done res st' -> st' = st.
Proof. unfold get_operator_records. repeat case_match; congruence. Qed.

Lemma get_package_records_same {VO VP} (st st' : State VO VP) l root since limit res :
  get_package_records st l root since limit = Done res st' -> st' = st.
Proof. unfold get_package_records. repeat case_match; congruence. Qed.

Lemma state_after_done {VO VP A} (o : @outcome VO VP A) st' :
  state_after o = Some st' -> exists res, o = Done res st'.
Proof. destruct o; simpl; [intros [= ->]; eauto|discriminate]. Qed.






Lemma store_checkpoint_leaf_other {VO VP} cp (st st' : State VO VP) {res : result unit DataStoreError} leaf l r :
  store_checkpoint_leaf cp st leaf = Done res st' -> leaf <> mkLogLeaf l r ->
  status st' l r = status st l r.
Proof.
  intros E Hne. unfold store_checkpoint_leaf in E.
  destruct (operators st !! leaf_log_id leaf);
    [|destruct (packages st !! leaf_log_id leaf); [|discriminate]];
  lazymatch type of E with
  | match status ?st1 ?a ?b with _ => _ end = _ =>
      destruct (status st1 a b) as [[| |?]|]; try discriminate; injection E as _ <-;
      apply (status_set_status_other st1 a b);
      intros [E1 E2]; apply Hne; destruct leaf; simpl in *; subst; reflexivity
  end.
Qed.

Lemma store_checkpoint_leaves_other {VO VP} cp leaves {res : result unit DataStoreError} :
  forall (st st' : State VO VP) l r,
  store_checkpoint_leaves cp st leaves = Done res st' -> ~ In (mkLogLeaf l r) leaves ->
  status st' l r = status st l r.
Proof.
  induction leaves as [|leaf rest IH]; intros st st' l r Hrun Hin; simpl in Hrun.
  - injection Hrun as _ <-. reflexivity.
  - destruct (store_checkpoint_leaf cp st leaf) as [res1 st1|st1] eqn:E1; [|discriminate].
    rewrite (IH st1 st' l r Hrun) by (intros H'; apply Hin; right; exact H').
    apply (store_checkpoint_leaf_other cp st st1 leaf l r E1).
    intros ->. apply Hin. left. reflexivity.
Qed.

Lemma store_checkpoint_leaf_entries {VO VP} cp (st st' : State VO VP) {res : result unit DataStoreError} leaf l :
  store_checkpoint_leaf cp st leaf = Done res st' ->
  package_entries st' l = package_entries st l /\ operator_entries st' l = operator_entries st l.
Proof.
  unfold store_checkpoint_leaf, package_entries, operator_entries.
  set (l0 := leaf_log_id leaf). set (r0 := leaf_record_id leaf).
  destruct (operators st !! l0) as [log|] eqn:Eo;
    [|destruct (packages st !! l0) as [log|] eqn:Ep; [|discriminate]];
  lazymatch goal with
  | |- match status ?st1 l0 r0 with _ => _ end = _ -> _ =>
      destruct (status st1 l0 r0) as [[| |rec]|]; try discriminate;
      intros [= _ <-]; simpl
  end;
  (destruct (decide (l0 = l)) as [<-|Hne];
   [ rewrite ?lookup_insert_eq, ?Eo, ?Ep; split; reflexivity
   | rewrite !lookup_insert_ne by exact Hne; split; reflexivity ]).
Qed.

Lemma store_checkpoint_leaves_entries {VO VP} cp leaves {res : result unit DataStoreError} :
  forall (st st' : State VO VP) l,
  store_checkpoint_leaves cp st leaves = Done res st' ->
  package_entries st' l = package_entries st l /\ operator_entries st' l = operator_entries st l.
Proof.
  induction leaves as [|leaf rest IH]; intros st st' l Hrun; simpl in Hrun.
  - injection Hrun as _ <-. split; reflexivity.
  - destruct (store_checkpoint_leaf cp st leaf) as [res1 st1|st1] eqn:E1; [|discriminate].
    destruct (IH st1 st' l Hrun) as [H1 H2].
    destruct (store_checkpoint_leaf_entries cp st st1 leaf l E1) as [H3 H4].
    split; congruence.
Qed.

Lemma firstn_prefix {A} (xs : list A) (a b : nat) : a <= b -> firstn a xs `prefix_of` firstn b xs.
Proof.
  revert a b. induction xs as [|x xs IH]; intros a b Hab.
  - rewrite !firstn_nil. reflexivity.
  - destruct a as [|a]; simpl; [apply prefix_nil|].
    destruct b as [|b]; [lia|]. simpl. apply prefix_cons. apply IH. lia.
Qed.

Lemma skipn_prefix {A} (xs ys : list A) (n : nat) : xs `prefix_of` ys -> skipn n xs `prefix_of` skipn n ys.
Proof.
  intros [k ->]. exists (skipn (n - length xs) k). apply skipn_app.
Qed.

Lemma get_records_before_checkpoint_mono (indices : list nat) (p p' : nat) :
  p <= p' -> get_records_before_checkpoint indices p <= get_records_before_checkpoint indices p'.
Proof.
  intros Hp. unfold get_records_before_checkpoint.
  induction indices as [|i is IH]; simpl; [lia|].
  destruct (Nat.leb_spec i p), (Nat.leb_spec i p'); simpl; lia.
Qed.





Ltac entries_prefix_finish :=
  unfold package_entries, operator_entries;
  cbn [set_status with_records with_packages with_operators packages operators];
  try match goal with
  | |- context [<[?a := _]> _ !! ?b] =>
      destruct (decide (a = b)) as [<-|?Hne];
      [rewrite !lookup_insert_eq|rewrite !lookup_insert_ne by exact Hne]
  end;
  repeat case_match; simpl; split;
  first [reflexivity | apply prefix_nil | apply prefix_app_r; reflexivity].

Lemma step_entries_prefix {VO VP} `{Validator VO} `{Validator VP} (st st' : State VO VP) op l :
  step st op = Some st' ->
  package_entries st l `prefix_of` package_entries st' l /\
  operator_entries st l `prefix_of` operator_entries st' l.
Proof.
  intros Hstep.
  destruct op as [l0 r e|l0 r reason|l0 r|l0 r e m|l0 r reason|l0 r|l0 r d|l0 r d
                 |cid c ps| |l0 root since limit|l0 root since limit]; simpl in Hstep;
    apply state_after_done in Hstep as [res Hstep].
  - unfold store_operator_record in Hstep.
    destruct (record_map st l0 !! r); [discriminate|]. injection Hstep as _ <-. split; reflexivity.
  - unfold reject_operator_record in Hstep.
    repeat case_match; try discriminate; injection Hstep as _ <-; split; reflexivity.
  - unfold validate_operator_record in Hstep.
    destruct (lookup_status st l0 r) as [[[[e|]|e m]|rj|rec]|err];
      try discriminate; try (injection Hstep as _ <-; split; reflexivity).
    destruct (validator_validate _ e) as [v' [contents|err]]; injection Hstep as _ <-;
      entries_prefix_finish.
  - unfold store_package_record in Hstep.
    destruct (record_map st l0 !! r); [discriminate|]. injection Hstep as _ <-. split; reflexivity.
  - unfold reject_package_record in Hstep.
    repeat case_match; try discriminate; injection Hstep as _ <-; split; reflexivity.
  - unfold validate_package_record in Hstep.
    destruct (lookup_status st l0 r) as [[[e|[e|] m]|rj|rec]|err];
      try discriminate; try (injection Hstep as _ <-; split; reflexivity).
    destruct (validator_validate _ e) as [v' [contents|err]]; injection Hstep as _ <-;
      entries_prefix_finish.
  - apply is_content_missing_same in Hstep. subst st'. split; reflexivity.
  - unfold set_content_present in Hstep.
    repeat case_match; try discriminate; injection Hstep as _ <-; split; reflexivity.
  - unfold store_checkpoint in Hstep.
    destruct (get_index_of cid (checkpoints st)); [discriminate|].
    destruct (store_checkpoint_leaves _ _ ps) as [r1 st1|st1] eqn:Er; [|discriminate].
    injection Hstep as _ <-.
    destruct (store_checkpoint_leaves_entries _ _ _ _ l Er) as [-> ->]. split; reflexivity.
  - apply get_latest_checkpoint_same in Hstep. subst st'. split; reflexivity.
  - apply get_operator_records_same in Hstep. subst st'. split; reflexivity.
  - apply get_package_records_same in Hstep. subst st'. split; reflexivity.
Qed.

Lemma slice_prefix {A} (xs : list A) a b b' w w' :
  b <= b' -> slice xs a b = Some w -> slice xs a b' = Some w' -> w `prefix_of` w'.
Proof.
  unfold slice. intros Hb. destruct (_ && _); [|discriminate]. intros [= <-].
  destruct (_ && _); [|discriminate]. intros [= <-]. apply firstn_prefix. lia.
Qed.

Lemma step_persist_entries_prefix {VO VP} `{Validator VO} `{Validator VP} (st : State VO VP) op l :
  package_entries st l `prefix_of` package_entries (step_persist st op) l /\
  operator_entries st l `prefix_of` operator_entries (step_persist st op) l.
Proof.
  destruct op as [l0 r e|l0 r reason|l0 r|l0 r e m|l0 r reason|l0 r|l0 r d|l0 r d
                 |cid c ps| |l0 root since limit|l0 root since limit].
  9: { cbn [step_persist]. unfold store_checkpoint.
       destruct (get_index_of cid (checkpoints st)); cbn [outcome_state]; [split; reflexivity|].
       set (st0 := with_checkpoints st (checkpoints st ++ [(cid, c)])).
       enough (Hc : package_entries (outcome_state (store_checkpoint_leaves (length (checkpoints st)) st0 ps)) l =
                      package_entries st0 l /\
                    operator_entries (outcome_state (store_checkpoint_leaves (length (checkpoints st)) st0 ps)) l =
                      operator_entries st0 l)
         by (destruct Hc as [-> ->]; split; reflexivity).
       apply (store_checkpoint_leaves_persist
                (fun s => package_entries s l = package_entries st0 l /\ operator_entries s l = operator_entries st0 l)).
       - intros s leaf [E1 E2]. destruct (store_checkpoint_leaf_keeps (length (checkpoints st)) s leaf) as (_ & H2 & _).
         destruct (H2 l) as [H3 H4]. split; congruence.
       - split; reflexivity. }
  all: cbn [step_persist];
    first [ progress unfold store_operator_record | progress unfold reject_operator_record
          | progress unfold validate_operator_record | progress unfold store_package_record
          | progress unfold reject_package_record | progress unfold validate_package_record
          | progress unfold is_content_missing | progress unfold set_content_present
          | progress unfold get_latest_checkpoint | progress unfold get_operator_records
          | progress unfold get_package_records ];
    repeat case_match; cbn [outcome_state]; cbv zeta;
    first [split; reflexivity | entries_prefix_finish].
Qed.

(** ** Extras: the data store's record reads and updates *)



(** X2.  Right after [store_package_record] succeeds, [get_package_record]
    reports the record [Pending] with its envelope and no checkpoint, and
    [is_content_missing] answers whether the digest is in the given missing
    set; right after [store_operator_record] succeeds,
    [get_operator_record] reports it [Pending] and [is_content_missing]
    answers [false]. *)
Theorem store_then_get_record :
  (forall (VO VP : Type) (st st' : State VO VP) l r record missing res,
     store_package_record st l r record missing = Done res st' ->
     get_package_record st' l r = Done (Ok (mkStoreRecord StorePending record None)) st' /\
     forall d, is_content_missing st' l r d = Done (Ok (bool_decide (d ∈ missing))) st') /\
  (forall (VO VP : Type) (st st' : State VO VP) l r record res,
     store_operator_record st l r record = Done res st' ->
     get_operator_record st' l r = Done (Ok (mkStoreRecord StorePending record None)) st' /\
     forall d, is_content_missing st' l r d = Done (Ok false) st').
Proof.
  split.
  - intros VO VP st st' l r record missing res Hs. unfold store_package_record in Hs.
    destruct (record_map st l !! r); [discriminate|]. injection Hs as _ <-.
    unfold get_package_record, is_content_missing.
    rewrite (lookup_status_status _ _ _ _ (status_set_status_same _ _ _ _)).
    split; reflexivity.
  - intros VO VP st st' l r record res Hs. unfold store_operator_record in Hs.
    destruct (record_map st l !! r); [discriminate|]. injection Hs as _ <-.
    unfold get_operator_record, is_content_missing.
    rewrite (lookup_status_status _ _ _ _ (status_set_status_same _ _ _ _)).
    split; reflexivity.
Qed.

(** X3.  Rejecting a pending record (with its envelope) succeeds; then the
    record reads back as [Rejected] with the given reason and its envelope,
    and content queries on it fail with [RecordNotPending]. *)
Theorem reject_then_get_record :
  (forall (VO VP : Type) (st : State VO VP) l r record missing reason,
     status st l r = Some (Pending (PendingPackage (Some record) missing)) ->
     exists st', reject_package_record st l r reason = Done (Ok tt) st' /\
       get_package_record st' l r = Done (Ok (mkStoreRecord (StoreRejected reason) record None)) st' /\
       forall d, is_content_missing st' l r d = Done (Err (RecordNotPending r)) st') /\
  (forall (VO VP : Type) (st : State VO VP) l r record reason,
     status st l r = Some (Pending (PendingOperator (Some record))) ->
     exists st', reject_operator_record st l r reason = Done (Ok tt) st' /\
       get_operator_record st' l r = Done (Ok (mkStoreRecord (StoreRejected reason) record None)) st' /\
       forall d, is_content_missing st' l r d = Done (Err (RecordNotPending r)) st').
Proof.
  split.
  - intros VO VP st l r record missing reason Hs. unfold reject_package_record.
    rewrite (lookup_status_status _ _ _ _ Hs). eexists. split; [reflexivity|].
    unfold get_package_record, is_content_missing.
    rewrite (lookup_status_status _ _ _ _ (status_set_status_same _ _ _ _)).
    split; reflexivity.
  - intros VO VP st l r record reason Hs. unfold reject_operator_record.
    rewrite (lookup_status_status _ _ _ _ Hs). eexists. split; [reflexivity|].
    unfold get_operator_record, is_content_missing.
    rewrite (lookup_status_status _ _ _ _ (status_set_status_same _ _ _ _)).
    split; reflexivity.
Qed.

Lemma reject_then_get_record_witness :
  exists st', reject_package_record pending_store 1 5 "late" = Done (Ok tt) st' /\
    get_package_record st' 1 5 = Done (Ok (mkStoreRecord (StoreRejected "late") 5 None)) st' /\
    forall d, is_content_missing st' 1 5 d = Done (Err (RecordNotPending 5)) st'.
Proof.
  exact (proj1 reject_then_get_record nat nat pending_store 1 5 5 ∅ "late"
           ltac:(vm_compute; reflexivity)).
Defined.

(** X4.  Validating a pending record with its envelope: when the validator
    accepts it, the record reads back as [Validated] with that envelope and
    no checkpoint; when the validator fails, it reads back as [Rejected]
    with the error's string and the envelope. *)
Theorem validate_then_get_record :
  (forall (VO VP : Type) `{Validator VO} `{Validator VP} (st st' : State VO VP) l r record missing res,
     status st l r = Some (Pending (PendingPackage (Some record) missing)) ->
     validate_package_record st l r = Done res st' ->
     (res = Ok tt /\
      get_package_record st' l r = Done (Ok (mkStoreRecord StoreValidated record None)) st') \/
     (exists e, res = Err (PackageValidationFailed e) /\
      get_package_record st' l r =
        Done (Ok (mkStoreRecord (StoreRejected (DataStoreError_to_string (PackageValidationFailed e)))
                                record None)) st')) /\
  (forall (VO VP : Type) `{Validator VO} `{Validator VP} (st st' : State VO VP) l r record res,
     status st l r = Some (Pending (PendingOperator (Some record))) ->
     validate_operator_record st l r = Done res st' ->
     (res = Ok tt /\
      get_operator_record st' l r = Done (Ok (mkStoreRecord StoreValidated record None)) st') \/
     (exists e, res = Err (OperatorValidationFailed e) /\
      get_operator_record st' l r =
        Done (Ok (mkStoreRecord (StoreRejected (DataStoreError_to_string (OperatorValidationFailed e)))
                                record None)) st')).
Proof.
  split.
  - intros VO VP HO HP st st' l r record missing res Hs Hv.
    unfold validate_package_record in Hv. rewrite (lookup_status_status _ _ _ _ Hs) in Hv.
    destruct (validator_validate _ record) as [v' [contents|e]]; injection Hv as <- <-.
    + left. split; [reflexivity|]. unfold get_package_record.
      rewrite (lookup_status_status _ _ _ _ (status_set_status_same _ _ _ _)).
      cbn [set_status with_records with_packages packages].
      rewrite lookup_insert_eq. unfold validated_store_record, checkpoint_of. simpl.
      rewrite nth_error_app2, Nat.sub_diag by lia. reflexivity.
    + right. exists e. split; [reflexivity|]. unfold get_package_record.
      rewrite (lookup_status_status _ _ _ _ (status_set_status_same _ _ _ _)). reflexivity.
  - intros VO VP HO HP st st' l r record res Hs Hv.
    unfold validate_operator_record in Hv. rewrite (lookup_status_status _ _ _ _ Hs) in Hv.
    destruct (validator_validate _ record) as [v' [contents|e]]; injection Hv as <- <-.
    + left. split; [reflexivity|]. unfold get_operator_record.
      rewrite (lookup_status_status _ _ _ _ (status_set_status_same _ _ _ _)).
      cbn [set_status with_records with_operators operators].
      rewrite lookup_insert_eq. unfold validated_store_record, checkpoint_of. simpl.
      rewrite nth_error_app2, Nat.sub_diag by lia. reflexivity.
    + right. exists e. split; [reflexivity|]. unfold get_operator_record.
      rewrite (lookup_status_status _ _ _ _ (status_set_status_same _ _ _ _)). reflexivity.
Qed.

Lemma validate_then_get_record_witness :
  (@Ok unit DataStoreError tt = Ok tt /\
   get_package_record validated_store 1 11 = Done (Ok (mkStoreRecord StoreValidated 11 None)) validated_store) \/
  (exists e, @Ok unit DataStoreError tt = Err (PackageValidationFailed e) /\
   get_package_record validated_store 1 11 =
     Done (Ok (mkStoreRecord (StoreRejected (DataStoreError_to_string (PackageValidationFailed e)))
                             11 None)) validated_store).
Proof.
  exact (proj1 validate_then_get_record nat nat _ _
           (default state_default (run_ops state_default [StorePackageRecord 1 11 11 ∅]))
           validated_store 1 11 11 ∅ (Ok tt)
           ltac:(vm_compute; reflexivity) ltac:(vm_compute; reflexivity)).
Defined.

(** X5.  Reporting a digest present for a pending package record answers
    [true] exactly when the digest was the last missing one; afterwards that
    digest is no longer missing, and every other digest is missing exactly
    when it was before. *)
Theorem set_content_present_then_missing :
  forall (VO VP : Type) (st : State VO VP) l r record missing d,
  status st l r = Some (Pending (PendingPackage record missing)) ->
  exists st', set_content_present st l r d =
                Done (Ok (bool_decide (missing <> ∅ /\ missing ∖ {[d]} = ∅))) st' /\
    is_content_missing st' l r d = Done (Ok false) st' /\
    forall d', d' <> d -> is_content_missing st' l r d' = Done (Ok (bool_decide (d' ∈ missing))) st'.
Proof.
  intros VO VP st l r record missing d Hs.
  unfold set_content_present. rewrite (lookup_status_status _ _ _ _ Hs).
  destruct (decide (missing = ∅)) as [Hm|Hm].
  - rewrite (bool_decide_eq_true_2 _ Hm). exists st.
    split; [rewrite bool_decide_eq_false_2 by tauto; reflexivity|].
    unfold is_content_missing. rewrite (lookup_status_status _ _ _ _ Hs).
    split; [rewrite bool_decide_eq_false_2 by set_solver; reflexivity|reflexivity].
  - rewrite (bool_decide_eq_false_2 _ Hm). eexists. split.
    + rewrite (bool_decide_ext (missing <> ∅ /\ missing ∖ {[d]} = ∅) (missing ∖ {[d]} = ∅)) by tauto.
      reflexivity.
    + unfold is_content_missing.
      rewrite (lookup_status_status _ _ _ _ (status_set_status_same _ _ _ _)).
      split; [rewrite bool_decide_eq_false_2 by set_solver; reflexivity|].
      intros d' Hd'. rewrite (bool_decide_ext (d' ∈ missing ∖ {[d]}) (d' ∈ missing)) by set_solver.
      reflexivity.
Qed.

Lemma set_content_present_then_missing_witness :
  exists st' : State nat nat,
    set_content_present (default state_default (run_ops state_default [StorePackageRecord 1 5 5 ({[7]} ∪ {[8]} : gset AnyHash)]))
      1 5 7 = Done (Ok (bool_decide (({[7]} ∪ {[8]} : gset AnyHash) <> ∅ /\ ({[7]} ∪ {[8]} : gset AnyHash) ∖ {[7]} = ∅))) st' /\
    is_content_missing st' 1 5 7 = Done (Ok false) st' /\
    forall d', d' <> 7 -> is_content_missing st' 1 5 d' = Done (Ok (bool_decide (d' ∈ ({[7]} ∪ {[8]} : gset AnyHash)))) st'.
Proof.
  exact (set_content_present_then_missing nat nat
           (default state_default (run_ops state_default [StorePackageRecord 1 5 5 ({[7]} ∪ {[8]} : gset AnyHash)]))
           1 5 (Some 5) ({[7]} ∪ {[8]} : gset AnyHash) 7 ltac:(vm_compute; reflexivity)).
Defined.

Lemma store_then_get_record_witness :
  get_package_record pending_store 1 5 = Done (Ok (mkStoreRecord StorePending 5 None)) pending_store /\
  forall d, is_content_missing pending_store 1 5 d =
              Done (Ok (bool_decide (d ∈ (∅ : gset AnyHash)))) pending_store.
Proof.
  exact (proj1 store_then_get_record nat nat state_default pending_store 1 5 5 ∅ (Ok tt)
           ltac:(vm_compute; reflexivity)).
Defined.

(** X6.  [get_latest_checkpoint] panics exactly when no checkpoint has been
    stored; after [store_checkpoint] succeeds it returns the checkpoint just
    stored. *)
Theorem latest_checkpoint_is_last_stored :
  (forall (VO VP : Type) (st : State VO VP), get_latest_checkpoint st = Panic st <-> checkpoints st = []) /\
  (forall (VO VP : Type) `{Validator VO} `{Validator VP} (st st' : State VO VP) cid c ps res,
     store_checkpoint st cid c ps = Done res st' ->
     get_latest_checkpoint st' = Done (Ok c) st').
Proof.
  split.
  - intros VO VP st. unfold get_latest_checkpoint.
    destruct (checkpoints st) as [|x xs] eqn:E.
    + simpl. split; reflexivity.
    + destruct (last (x :: xs)) as [[h c]|] eqn:El.
      * split; discriminate.
      * rewrite last_None in El. discriminate.
  - intros VO VP HO HP st st' cid c ps res Hs. unfold store_checkpoint in Hs.
    destruct (get_index_of cid (checkpoints st)); [discriminate|].
    destruct (store_checkpoint_leaves _ _ ps) as [r1 st1|st1] eqn:Er; [|discriminate].
    injection Hs as _ <-. unfold get_latest_checkpoint.
    rewrite (store_checkpoint_leaves_checkpoints _ _ _ _ Er). simpl.
    rewrite last_snoc. reflexivity.
Qed.

Lemma latest_checkpoint_is_last_stored_witness :
  get_latest_checkpoint checkpointed_store = Done (Ok 1) checkpointed_store.
Proof.
  exact (proj2 latest_checkpoint_is_last_stored nat nat _ _ validated_store checkpointed_store
           100 1 [mkLogLeaf 1 11] (Ok tt) ltac:(vm_compute; reflexivity)).
Defined.



(** X8.  A data store call that does not panic changes the status of no
    record except the one it addresses (or, for [store_checkpoint], its
    participants). *)
Theorem step_status_frame :
  forall (VO VP : Type) `{Validator VO} `{Validator VP} (st st' : State VO VP) op l r,
  step st op = Some st' -> ~ op_touches op l r -> status st' l r = status st l r.
Proof.
  intros VO VP HO HP st st' op l r Hstep Hno.
  destruct op as [l0 r0 e|l0 r0 reason|l0 r0|l0 r0 e m|l0 r0 reason|l0 r0|l0 r0 d|l0 r0 d
                 |cid c ps| |l0 root since limit|l0 root since limit]; simpl in Hno, Hstep;
    apply state_after_done in Hstep as [res Hstep];
    [ unfold store_operator_record in Hstep | unfold reject_operator_record in Hstep
    | unfold validate_operator_record in Hstep | unfold store_package_record in Hstep
    | unfold reject_package_record in Hstep | unfold validate_package_record in Hstep
    | unfold is_content_missing in Hstep | unfold set_content_present in Hstep
    | unfold store_checkpoint in Hstep | unfold get_latest_checkpoint in Hstep
    | unfold get_operator_records in Hstep | unfold get_package_records in Hstep ];
    repeat case_match; try discriminate; try (injection Hstep as _ <-);
    try reflexivity;
    try (rewrite (status_set_status_other _ l0 r0) by (intros [E1 E2]; apply Hno; split; congruence);
         reflexivity).
  match goal with
  | Er : store_checkpoint_leaves _ _ _ = Done _ _ |- _ =>
      rewrite (store_checkpoint_leaves_other _ _ _ _ l r Er Hno); reflexivity
  end.
Qed.

Lemma step_status_frame_witness :
  status checkpointed_store 1 12 = status validated_store 1 12.
Proof.
  exact (step_status_frame nat nat validated_store checkpointed_store
           (StoreCheckpoint 100 1 [mkLogLeaf 1 11]) 1 12
           ltac:(vm_compute; reflexivity) ltac:(simpl; intros [H|H]; [discriminate|exact H])).
Defined.

(** X9.  The data store's logs are append-only: along any sequence of
    calls, including calls that panic (the store keeps what a panicking call
    wrote), each package log's and each operator log's entries before are a
    prefix of its entries after. *)
Theorem run_ops_entries_append_only :
  forall (VO VP : Type) `{Validator VO} `{Validator VP} ops (st : State VO VP) l,
  package_entries st l `prefix_of` package_entries (run_persist st ops) l /\
  operator_entries st l `prefix_of` operator_entries (run_persist st ops) l.
Proof.
  intros VO VP HO HP ops. induction ops as [|op ops IH]; intros st l; simpl.
  - split; reflexivity.
  - destruct (step_persist_entries_prefix st op l) as [H1 H2].
    destruct (IH (step_persist st op) l) as [H3 H4].
    split; etransitivity; eassumption.
Qed.

Lemma run_ops_entries_append_only_witness :
  package_entries validated_store 1 `prefix_of`
    package_entries (run_persist validated_store
                       [StorePackageRecord 1 12 12 ∅; StorePackageRecord 1 11 11 ∅;
                        ValidatePackageRecord 1 12; StoreCheckpoint 100 2 [mkLogLeaf 1 12]]) 1 /\
  operator_entries validated_store 1 `prefix_of`
    operator_entries (run_persist validated_store
                       [StorePackageRecord 1 12 12 ∅; StorePackageRecord 1 11 11 ∅;
                        ValidatePackageRecord 1 12; StoreCheckpoint 100 2 [mkLogLeaf 1 12]]) 1.
Proof.
  exact (@run_ops_entries_append_only nat nat accept_all_validator accept_all_validator
           [StorePackageRecord 1 12 12 ∅; StorePackageRecord 1 11 11 ∅;
            ValidatePackageRecord 1 12; StoreCheckpoint 100 2 [mkLogLeaf 1 12]]
           validated_store 1).
Defined.

(** X10.  Fetching the same log from the same [since] against a later
    checkpoint extends the result of an earlier one: for the data store's
    [get_package_records] and [get_operator_records] (same limit) and for the
    core service's [fetch_package_records] and [fetch_operator_records],
    when both calls succeed the earlier result is a prefix of the later. *)
Theorem fetch_later_checkpoint_extends :
  (forall (VO VP : Type) (st : State VO VP) l root root' p p' since limit v v',
     get_index_of root (checkpoints st) = Some p -> get_index_of root' (checkpoints st) = Some p' ->
     p <= p' ->
     get_package_records st l root since limit = Done (Ok v) st ->
     get_package_records st l root' since limit = Done (Ok v') st ->
     v `prefix_of` v') /\
  (forall (VO VP : Type) (st : State VO VP) l root root' p p' since limit v v',
     get_index_of root (checkpoints st) = Some p -> get_index_of root' (checkpoints st) = Some p' ->
     p <= p' ->
     get_operator_records st l root since limit = Done (Ok v) st ->
     get_operator_records st l root' since limit = Done (Ok v') st ->
     v `prefix_of` v') /\
  (forall (VP : Type) (info : Core.PackageInfo VP) since p p' v v',
     p <= p' ->
     Core.fetch_package_records info since p = Some (Ok v) ->
     Core.fetch_package_records info since p' = Some (Ok v') ->
     v `prefix_of` v') /\
  (forall (VO : Type) (info : Core.OperatorInfo VO) since p p' v v',
     p <= p' ->
     Core.fetch_operator_records info since p = Some (Ok v) ->
     Core.fetch_operator_records info since p' = Some (Ok v') ->
     v `prefix_of` v').
Proof.
  split; [|split; [|split]].
  - intros VO VP st l root root' p p' since limit v v' Hp Hp' Hle H1 H2.
    unfold get_package_records in H1, H2. rewrite Hp in H1. rewrite Hp' in H2.
    repeat case_match; try discriminate. injection H1 as ->. injection H2 as ->.
    match goal with
    | E1 : slice _ _ _ = Some v, E2 : slice _ _ _ = Some v' |- _ =>
        refine (slice_prefix _ _ _ _ _ _ _ E1 E2)
    end.
    apply Nat.min_le_compat_r, get_records_before_checkpoint_mono, Hle.
  - intros VO VP st l root root' p p' since limit v v' Hp Hp' Hle H1 H2.
    unfold get_operator_records in H1, H2. rewrite Hp in H1. rewrite Hp' in H2.
    repeat case_match; try discriminate. injection H1 as ->. injection H2 as ->.
    match goal with
    | E1 : slice _ _ _ = Some v, E2 : slice _ _ _ = Some v' |- _ =>
        refine (slice_prefix _ _ _ _ _ _ _ E1 E2)
    end.
    apply Nat.min_le_compat_r, get_records_before_checkpoint_mono, Hle.
  - intros VP info since p p' v v' Hle H1 H2. unfold Core.fetch_package_records, option_map in H1, H2.
    repeat case_match; try discriminate; simplify_eq/=;
    match goal with
    | |- ?w `prefix_of` ?w' =>
        match goal with
        | E1 : slice _ _ _ = Some w, E2 : slice _ _ _ = Some w' |- _ =>
            refine (slice_prefix _ _ _ _ _ _ _ E1 E2)
        end
    end; apply get_records_before_checkpoint_mono, Hle.
  - intros VO info since p p' v v' Hle H1 H2. unfold Core.fetch_operator_records, option_map in H1, H2.
    repeat case_match; try discriminate; simplify_eq/=;
    match goal with
    | |- ?w `prefix_of` ?w' =>
        match goal with
        | E1 : slice _ _ _ = Some w, E2 : slice _ _ _ = Some w' |- _ =>
            refine (slice_prefix _ _ _ _ _ _ _ E1 E2)
        end
    end; apply get_records_before_checkpoint_mono, Hle.
Qed.

Lemma fetch_later_checkpoint_extends_witness :
  [11; 12; 13; 14; 15] `prefix_of` [11; 12; 13; 14; 15; 16; 17; 18].
Proof.
  exact (proj1 fetch_later_checkpoint_extends nat nat fetch_window_store 1 100 200 0 1 None 10
           [11; 12; 13; 14; 15] [11; 12; 13; 14; 15; 16; 17; 18]
           ltac:(vm_compute; reflexivity) ltac:(vm_compute; reflexivity) ltac:(lia)
           ltac:(vm_compute; reflexivity) ltac:(vm_compute; reflexivity)).
Defined.

(** ** The core service actor: what a step leaves behind *)

Lemma core_grows_refl {VO VP} (st : Core.CoreState VO VP) : core_grows st st.
Proof. split; [reflexivity|]. intros l info Hl. exists info. repeat split; auto. Qed.

Lemma core_grows_trans {VO VP} (st1 st2 st3 : Core.CoreState VO VP) :
  core_grows st1 st2 -> core_grows st2 st3 -> core_grows st1 st3.
Proof.
  intros [Hc1 Hp1] [Hc2 Hp2]. split; [etransitivity; eassumption|].
  intros l info Hl. destruct (Hp1 _ _ Hl) as (i2 & H2 & Hl2 & Hi2 & Hid2 & Hr2).
  destruct (Hp2 _ _ H2) as (i3 & H3 & Hl3 & Hi3 & Hid3 & Hr3).
  exists i3. split; [exact H3|]. split; [etransitivity; eassumption|].
  split; [etransitivity; eassumption|]. split; [congruence|]. auto.
Qed.

Lemma core_grows_leaf_present {VO VP} (st st' : Core.CoreState VO VP) leaf :
  core_grows st st' -> core_leaf_present (Core.package_states st) leaf ->
  core_leaf_present (Core.package_states st') leaf.
Proof.
  intros [_ Hp] (info & Hi & Hr). destruct (Hp _ _ Hi) as (info' & Hi' & _ & _ & _ & Hr').
  exists info'. auto.
Qed.

(** A package info replaced by one that grew from it. *)
Lemma core_grows_insert {VO VP} (st : Core.CoreState VO VP) l info info' :
  Core.package_states st !! l = Some info ->
  Core.log info `prefix_of` Core.log info' ->
  Core.checkpoint_indices info `prefix_of` Core.checkpoint_indices info' ->
  Core.id info' = Core.id info ->
  (forall r, is_Some (Core.records info !! r) -> is_Some (Core.records info' !! r)) ->
  core_grows st (Core.with_package st l info').
Proof.
  intros Hl Hlog Hci Hid Hr. split; [reflexivity|].
  intros l' i Hl'. simpl. destruct (decide (l = l')) as [<-|Hne].
  - rewrite lookup_insert_eq. rewrite Hl in Hl'. injection Hl' as <-. exists info'. auto.
  - rewrite lookup_insert_ne by exact Hne. exists i. repeat split; auto.
Qed.

Lemma core_ids_wf_insert {VO VP} (st : Core.CoreState VO VP) l info' :
  core_ids_wf st -> Core.id info' = l -> core_ids_wf (Core.with_package st l info').
Proof.
  intros Hids Hid l' i Hl'. simpl in Hl'. destruct (decide (l = l')) as [<-|Hne].
  - rewrite lookup_insert_eq in Hl'. injection Hl' as <-. exact Hid.
  - rewrite lookup_insert_ne in Hl' by exact Hne. exact (Hids _ _ Hl').
Qed.

Lemma core_new_record_parts {VP} `{Validator VP} (info info' : Core.PackageInfo VP) r cs ro to resp lv :
  Core.new_record info r cs ro to = (info', resp, lv) ->
  Core.log info `prefix_of` Core.log info' /\ Core.checkpoint_indices info' = Core.checkpoint_indices info /\
  Core.id info' = Core.id info /\
  (forall k, is_Some (Core.records info !! k) -> is_Some (Core.records info' !! k)) /\
  Forall (fun leaf => leaf_log_id leaf = Core.id info /\
                      is_Some (Core.records info' !! leaf_record_id leaf)) lv.
Proof.
  unfold Core.new_record.
  destruct (validator_validate _ r) as [v [contents|e]];
    [destruct (List.find _ contents); [destruct ro|destruct to]|];
    intros [= <- _ <-]; simpl;
    (split; [first [reflexivity | exists [r]; reflexivity]|]);
    (split; [reflexivity|]); (split; [reflexivity|]); split;
    try (intros k Hk; first [exact Hk | apply lookup_insert_is_Some'; auto]);
    try constructor.
  all: try constructor; simpl; try reflexivity.
  rewrite lookup_insert_eq. eauto.
Qed.

Lemma core_mark_published_parts {VP} (info info' : Core.PackageInfo VP) rid c ci :
  Core.mark_published info rid c ci = Some info' ->
  Core.log info' = Core.log info /\ Core.checkpoint_indices info' = Core.checkpoint_indices info ++ [ci] /\
  Core.id info' = Core.id info /\
  (forall k, is_Some (Core.records info !! k) -> is_Some (Core.records info' !! k)) /\
  exists ri, Core.records info' !! rid = Some ri /\ Core.state ri = Core.Published c.
Proof.
  unfold Core.mark_published. destruct (Core.records info !! rid) as [ri|]; [|discriminate].
  intros [= <-]. simpl. split; [reflexivity|]. split; [reflexivity|]. split; [reflexivity|].
  split; [intros k Hk; apply lookup_insert_is_Some'; auto|].
  rewrite lookup_insert_eq. eauto.
Qed.

Lemma core_run_task_parts {VO VP} `{Validator VP} (st st' : Core.CoreState VO VP) t ro to resp lv :
  Core.run_task st t ro to = (st', resp, lv) ->
  Core.checkpoints st' = Core.checkpoints st /\ Core.checkpoint_index st' = Core.checkpoint_index st /\
  Core.operator_info st' = Core.operator_info st /\ core_grows st st' /\
  (core_ids_wf st -> core_ids_wf st' /\ Forall (core_leaf_present (Core.package_states st')) lv).
Proof.
  destruct t as [pid record cs|pid rid|pid rid|pid rid c ci|since ci|pid since ci]; simpl.
  - destruct (Core.package_states st !! pid) as [info|] eqn:Ei;
      [|intros [= <- _ <-]; (split; [|split; [|split; [|split]]]); auto using core_grows_refl; try (intros Hids; split; [exact Hids|constructor])].
    destruct (Core.new_record info record cs ro to) as [[info' r'] lv'] eqn:En.
    intros [= <- _ <-].
    destruct (core_new_record_parts _ _ _ _ _ _ _ _ En) as (Hlog & Hci & Hid & Hrec & Hlv).
    split; [reflexivity|]. split; [reflexivity|]. split; [reflexivity|].
    split; [apply (core_grows_insert _ _ _ _ Ei Hlog); [rewrite Hci; reflexivity|exact Hid|exact Hrec]|].
    intros Hids. pose proof (Hids _ _ Ei) as Hidp.
    split; [apply core_ids_wf_insert; [exact Hids|congruence]|].
    eapply Forall_impl; [exact Hlv|]. intros leaf [Hll Hr]. exists info'. simpl.
    rewrite Hll, Hidp, lookup_insert_eq. auto.
  - repeat case_match; intros [= <- _ <-]; (split; [|split; [|split; [|split]]]); auto using core_grows_refl; try (intros Hids; split; [exact Hids|constructor]).
  - repeat case_match; intros [= <- _ <-]; (split; [|split; [|split; [|split]]]); auto using core_grows_refl; try (intros Hids; split; [exact Hids|constructor]).
  - destruct (Core.package_states st !! pid) as [info|] eqn:Ei;
      [|intros [= <- _ <-]; (split; [|split; [|split; [|split]]]); auto using core_grows_refl; try (intros Hids; split; [exact Hids|constructor])].
    destruct (Core.mark_published info rid c ci) as [info'|] eqn:Em;
      [|intros [= <- _ <-]; (split; [|split; [|split; [|split]]]); auto using core_grows_refl; try (intros Hids; split; [exact Hids|constructor])].
    intros [= <- _ <-].
    destruct (core_mark_published_parts _ _ _ _ _ Em) as (Hlog & Hci & Hid & Hrec & _).
    split; [reflexivity|]. split; [reflexivity|]. split; [reflexivity|].
    split; [apply (core_grows_insert _ _ _ _ Ei); [rewrite Hlog; reflexivity|rewrite Hci; exists [ci]; reflexivity|exact Hid|exact Hrec]|].
    intros Hids. split; [apply core_ids_wf_insert; [exact Hids|rewrite Hid; exact (Hids _ _ Ei)]|constructor].
  - repeat case_match; intros [= <- _ <-]; (split; [|split; [|split; [|split]]]); auto using core_grows_refl; try (intros Hids; split; [exact Hids|constructor]).
  - repeat case_match; intros [= <- _ <-]; (split; [|split; [|split; [|split]]]); auto using core_grows_refl; try (intros Hids; split; [exact Hids|constructor]).
Qed.

Lemma core_index_wf_new {VO VP} `{Validator VO} `{Validator VP} c r (st : Core.CoreState VO VP) :
  Core.new_state c r = Some st -> core_index_wf st.
Proof.
  unfold Core.new_state. destruct (validator_validate _ r) as [v [x|e]]; [|discriminate].
  intros [= <-]. split; [discriminate|]. split.
  - intros h i. simpl. rewrite lookup_singleton_Some. intros [-> <-]. reflexivity.
  - intros h [<-|[]]. simpl. rewrite lookup_singleton_eq. eauto.
Qed.

Lemma core_ids_wf_new {VO VP} `{Validator VO} `{Validator VP} c r (st : Core.CoreState VO VP) :
  Core.new_state c r = Some st -> core_ids_wf st.
Proof.
  unfold Core.new_state. destruct (validator_validate _ r) as [v [x|e]]; [|discriminate].
  intros [= <-] l info Hl. simpl in Hl. rewrite lookup_empty in Hl. discriminate.
Qed.

Lemma core_index_wf_checkpoint {VO VP} (st st' : Core.CoreState VO VP) c :
  core_index_wf st ->
  Core.checkpoints st' = Core.checkpoints st ++ [c] ->
  Core.checkpoint_index st' = <[c := length (Core.checkpoints st)]> (Core.checkpoint_index st) ->
  core_index_wf st'.
Proof.
  intros (Hne & Hix & Hin) Hc Hi. unfold core_index_wf. rewrite Hc, Hi. split; [destruct (Core.checkpoints st); discriminate|].
  split.
  - intros h i. destruct (decide (h = c)) as [->|Hhc].
    + rewrite lookup_insert_eq. intros [= <-]. rewrite nth_error_app2, Nat.sub_diag by lia. reflexivity.
    + rewrite lookup_insert_ne by congruence. intros Hl. specialize (Hix _ _ Hl).
      rewrite nth_error_app1; [exact Hix|]. apply nth_error_Some. congruence.
  - intros h Hh. destruct (decide (h = c)) as [->|Hhc].
    + rewrite lookup_insert_eq. eauto.
    + rewrite lookup_insert_ne by congruence. apply Hin.
      apply in_app_or in Hh as [Hh|[Hh|[]]]; [exact Hh|congruence].
Qed.

Lemma core_index_of_in {VO VP} (st : Core.CoreState VO VP) root :
  core_index_wf st ->
  (In root (Core.checkpoints st) <-> is_Some (Core.checkpoint_index st !! root)).
Proof.
  intros (_ & Hix & Hin). split; [apply Hin|].
  intros [i Hi]. apply (nth_error_In _ i). exact (Hix _ _ Hi).
Qed.

Lemma core_fetch_operator_records_no_root_error {VO} (info : Core.OperatorInfo VO) since ci h :
  Core.fetch_operator_records info since ci <> Some (Err (Core.CheckpointNotFound h)).
Proof.
  unfold Core.fetch_operator_records, Core.get_operator_record_index, option_map.
  repeat case_match; congruence.
Qed.

Lemma core_fetch_package_records_no_root_error {VP} (info : Core.PackageInfo VP) since ci h :
  Core.fetch_package_records info since ci <> Some (Err (Core.CheckpointNotFound h)).
Proof.
  unfold Core.fetch_package_records, Core.get_package_record_index, option_map.
  repeat case_match; congruence.
Qed.

(** Every leaf names a present package: the [NewCheckpoint] loop spawns one
    task per leaf and does not panic. *)
Lemma core_spawn_mark_published_present {VP} (ps : gmap LogId (Core.PackageInfo VP)) c ci leaves :
  Forall (fun leaf => is_Some (ps !! leaf_log_id leaf)) leaves ->
  Core.spawn_mark_published ps c ci leaves = (map (mark_task c ci) leaves, true).
Proof.
  induction 1 as [|leaf rest [info Hi] _ IH]; simpl; [reflexivity|].
  rewrite Hi, IH. reflexivity.
Qed.

Lemma core_spawn_mark_published {VP} (ps : gmap LogId (Core.PackageInfo VP)) c ci leaves :
  (Forall (fun leaf => is_Some (ps !! leaf_log_id leaf)) leaves /\
   Core.spawn_mark_published ps c ci leaves = (map (mark_task c ci) leaves, true)) \/
  exists spawned, Core.spawn_mark_published ps c ci leaves = (spawned, false).
Proof.
  induction leaves as [|leaf rest IH]; simpl; [left; split; [constructor|reflexivity]|].
  destruct (ps !! leaf_log_id leaf) as [info|] eqn:Ei; [|right; eauto].
  destruct IH as [[Hall ->]|[spawned ->]].
  - left. split; [constructor; [eauto|exact Hall]|reflexivity].
  - right. eauto.
Qed.

Lemma core_process_message_parts {VO VP} `{Validator VO} `{Validator VP} package_log
    (st : Core.CoreState VO VP) msg ro :
  let st' := loop_state (Core.process_message package_log st msg ro) in
  Core.operator_info st' = Core.operator_info st /\
  ((Core.checkpoints st' = Core.checkpoints st /\ Core.checkpoint_index st' = Core.checkpoint_index st) \/
   exists c, Core.checkpoints st' = Core.checkpoints st ++ [c] /\
     Core.checkpoint_index st' = <[c := length (Core.checkpoints st)]> (Core.checkpoint_index st)) /\
  core_grows st st' /\ (core_ids_wf st -> core_ids_wf st').
Proof.
  cbv zeta. destruct msg as [name record cs|l rid|l rid|c leaves|root since|root name since|]; simpl.
  - split; [reflexivity|]. split; [left; split; reflexivity|]. split.
    + split; [reflexivity|]. intros l info Hl. simpl.
      destruct (decide (package_log name = l)) as [<-|Hne].
      * rewrite lookup_insert_eq. unfold Core.package_entry. rewrite Hl. simpl.
        exists info. repeat split; auto.
      * rewrite lookup_insert_ne by exact Hne. exists info. repeat split; auto.
    + intros Hids l info Hl. simpl in Hl.
      destruct (decide (package_log name = l)) as [<-|Hne].
      * rewrite lookup_insert_eq in Hl. injection Hl as <-. unfold Core.package_entry.
        destruct (Core.package_states st !! package_log name) as [i|] eqn:Ei; simpl; [exact (Hids _ _ Ei)|reflexivity].
      * rewrite lookup_insert_ne in Hl by exact Hne. exact (Hids _ _ Hl).
  - unfold Core.reply. repeat case_match; simpl; (split; [reflexivity|]); (split; [left; split; reflexivity|]);
      split; auto using core_grows_refl.
  - unfold Core.reply. repeat case_match; simpl; (split; [reflexivity|]); (split; [left; split; reflexivity|]);
      split; auto using core_grows_refl.
  - destruct (Core.spawn_mark_published _ _ _ _) as [spawned ok].
    assert (Hg : core_grows st (Core.mkCoreState (Core.checkpoints st ++ [c])
                                  (<[c:=length (Core.checkpoints st)]> (Core.checkpoint_index st))
                                  (Core.operator_info st) (Core.package_states st))).
    { split; [exists [c]; reflexivity|]. intros l info Hl. exists info. repeat split; auto. }
    destruct ok; simpl; (split; [reflexivity|]); (split; [right; eauto|]); (split; [exact Hg|auto]).
  - unfold Core.reply. repeat case_match; simpl; (split; [reflexivity|]); (split; [left; split; reflexivity|]);
      split; auto using core_grows_refl.
  - unfold Core.reply. repeat case_match; simpl; (split; [reflexivity|]); (split; [left; split; reflexivity|]);
      split; auto using core_grows_refl.
  - unfold Core.reply. repeat case_match; simpl; (split; [reflexivity|]); (split; [left; split; reflexivity|]);
      split; auto using core_grows_refl.
Qed.

Lemma core_step_receive {VO VP} `{Validator VO} `{Validator VP} package_log
    (s s' : Core.Service VO VP) msg ro resp lv :
  Core.step_event package_log s (Core.Receive msg ro) = Some (s', resp, lv) ->
  Core.alive s = true /\ Core.core s' = loop_state (Core.process_message package_log (Core.core s) msg ro) /\
  Core.tasks s' = Core.tasks s ++ loop_spawned (Core.process_message package_log (Core.core s) msg ro) /\
  lv = [].
Proof.
  simpl. destruct (Core.alive s); [|discriminate].
  destruct (Core.process_message _ _ _ _); intros [= <- _ <-]; auto.
Qed.

Lemma core_step_run {VO VP} `{Validator VO} `{Validator VP} package_log
    (s s' : Core.Service VO VP) i ro to resp lv :
  Core.step_event package_log s (Core.RunTask i ro to) = Some (s', resp, lv) ->
  exists t, Core.tasks s !! i = Some t /\ Core.run_task (Core.core s) t ro to = (Core.core s', resp, lv) /\
    Core.alive s' = Core.alive s /\ Core.tasks s' = delete i (Core.tasks s).
Proof.
  simpl. destruct (Core.tasks s !! i) as [t|]; [|discriminate].
  destruct (Core.run_task _ t ro to) as [[st r] l] eqn:E. intros [= <- <- <-].
  exists t. auto.
Qed.

(** Running the task at the end of the pool. *)
Lemma core_step_run_last {VO VP} `{Validator VO} `{Validator VP} package_log
    (st : Core.CoreState VO VP) a ts t ro to :
  Core.step_event package_log (Core.mkService st a (ts ++ [t])) (Core.RunTask (length ts) ro to) =
    let '(st', resp, lv) := Core.run_task st t ro to in Some (Core.mkService st' a ts, resp, lv).
Proof.
  simpl. rewrite lookup_app_r, Nat.sub_diag by lia. simpl.
  destruct (Core.run_task st t ro to) as [[st' r] l].
  rewrite delete_middle, app_nil_r. reflexivity.
Qed.

Lemma core_step_parts {VO VP} `{Validator VO} `{Validator VP} package_log
    (s s' : Core.Service VO VP) e resp lv :
  Core.step_event package_log s e = Some (s', resp, lv) ->
  Core.operator_info (Core.core s') = Core.operator_info (Core.core s) /\
  (core_index_wf (Core.core s) -> core_index_wf (Core.core s')) /\
  core_grows (Core.core s) (Core.core s') /\
  (core_ids_wf (Core.core s) ->
     core_ids_wf (Core.core s') /\ Forall (core_leaf_present (Core.package_states (Core.core s'))) lv).
Proof.
  destruct e as [msg ro|i ro to]; intros Hs.
  - destruct (core_step_receive _ _ _ _ _ _ _ Hs) as (_ & Hc & _ & ->).
    destruct (core_process_message_parts package_log (Core.core s) msg ro) as (Hop & Hcp & Hg & Hids).
    rewrite Hc. split; [exact Hop|]. split; [|split; [exact Hg|]].
    + intros Hwf. destruct Hcp as [[Hc1 Hi1]|(c & Hc1 & Hi1)].
      * unfold core_index_wf. rewrite Hc1, Hi1. exact Hwf.
      * exact (core_index_wf_checkpoint _ _ _ Hwf Hc1 Hi1).
    + intros Hw. split; [exact (Hids Hw)|constructor].
  - destruct (core_step_run _ _ _ _ _ _ _ _ Hs) as (t & _ & Hr & _ & _).
    destruct (core_run_task_parts _ _ _ _ _ _ _ Hr) as (Hc & Hi & Hop & Hg & Hids).
    split; [exact Hop|]. split; [|split; [exact Hg|exact Hids]].
    unfold core_index_wf. rewrite Hc, Hi. auto.
Qed.

Lemma core_run_events_parts {VO VP} `{Validator VO} `{Validator VP} package_log es :
  forall (s s' : Core.Service VO VP) resps lv,
  Core.run_events package_log s es = Some (s', resps, lv) ->
  Core.operator_info (Core.core s') = Core.operator_info (Core.core s) /\
  (core_index_wf (Core.core s) -> core_index_wf (Core.core s')) /\
  core_grows (Core.core s) (Core.core s') /\
  (core_ids_wf (Core.core s) ->
     core_ids_wf (Core.core s') /\ Forall (core_leaf_present (Core.package_states (Core.core s'))) lv).
Proof.
  induction es as [|e rest IH]; intros s s' resps lv Hrun; simpl in Hrun.
  - injection Hrun as <- _ <-. split; [reflexivity|]. split; [auto|]. split; [apply core_grows_refl|].
    intros Hids. split; [exact Hids|constructor].
  - destruct (Core.step_event package_log s e) as [[[s1 r1] lv1]|] eqn:E1; [|discriminate].
    destruct (Core.run_events package_log s1 rest) as [[[s2 rs] lv2]|] eqn:E2; [|discriminate].
    injection Hrun as <- _ <-.
    destruct (core_step_parts _ _ _ _ _ _ E1) as (Hop1 & Hwf1 & Hg1 & Hids1).
    destruct (IH _ _ _ _ E2) as (Hop2 & Hwf2 & Hg2 & Hids2).
    split; [congruence|]. split; [auto|]. split; [exact (core_grows_trans _ _ _ Hg1 Hg2)|].
    intros Hids. destruct (Hids1 Hids) as [Hw1 Hl1]. destruct (Hids2 Hw1) as [Hw2 Hl2].
    split; [exact Hw2|]. apply Forall_app. split; [|exact Hl2].
    eapply Forall_impl; [exact Hl1|]. intros leaf. apply core_grows_leaf_present. exact Hg2.
Qed.

(** ** Extras: the core service actor *)

(** X11.  From [State::new], after any run of the service in which the
    actor is still running: [GetLatestCheckpoint] is answered by the loop
    with the last checkpoint when its receiver is alive, and panics the
    actor on its [unwrap()] when the receiver was dropped.  A fetch of
    operator or package records whose root is not a checkpoint so far is
    answered [CheckpointNotFound] by the loop (a dropped receiver panics the
    actor); at a known root the answer, from the loop or from a spawned
    task, is never [CheckpointNotFound]. *)
Theorem core_checkpoints_resolve :
  forall (VO VP : Type) `{Validator VO} `{Validator VP} package_log c r es
    (st0 : Core.CoreState VO VP) (s : Core.Service VO VP) resps lv,
  Core.new_state c r = Some st0 ->
  Core.run_events package_log (Core.start st0) es = Some (s, resps, lv) ->
  Core.alive s = true ->
  (exists c', last (Core.checkpoints (Core.core s)) = Some c' /\
     Core.step_event package_log s (Core.Receive Core.GetLatestCheckpoint true) =
       Some (Core.mkService (Core.core s) true (Core.tasks s), Some (Core.CheckpointResponse c'), []) /\
     Core.step_event package_log s (Core.Receive Core.GetLatestCheckpoint false) =
       Some (Core.mkService (Core.core s) false (Core.tasks s), None, [])) /\
  (forall root since ro, ~ In root (Core.checkpoints (Core.core s)) ->
     Core.step_event package_log s (Core.Receive (Core.FetchOperatorRecords root since) ro) =
       Some (Core.mkService (Core.core s) ro (Core.tasks s),
             if ro then Some (Core.OperatorRecordsResponse (Err (Core.CheckpointNotFound root))) else None,
             [])) /\
  (forall root name since ro, ~ In root (Core.checkpoints (Core.core s)) ->
     Core.step_event package_log s (Core.Receive (Core.FetchPackageRecords root name since) ro) =
       Some (Core.mkService (Core.core s) ro (Core.tasks s),
             if ro then Some (Core.PackageRecordsResponse (Err (Core.CheckpointNotFound root))) else None,
             [])) /\
  (forall root since ro, In root (Core.checkpoints (Core.core s)) ->
     exists t, Core.step_event package_log s (Core.Receive (Core.FetchOperatorRecords root since) ro) =
                 Some (Core.mkService (Core.core s) true (Core.tasks s ++ [t]), None, []) /\
       forall (st' st'' : Core.CoreState VO VP) ro' to lv' h,
         Core.run_task st' t ro' to <> (st'', Some (Core.OperatorRecordsResponse (Err (Core.CheckpointNotFound h))), lv')) /\
  (forall root name since ro, In root (Core.checkpoints (Core.core s)) ->
     exists s' resp spawned,
       Core.step_event package_log s (Core.Receive (Core.FetchPackageRecords root name since) ro) =
         Some (s', resp, []) /\
       Core.tasks s' = Core.tasks s ++ spawned /\
       resp <> Some (Core.PackageRecordsResponse (Err (Core.CheckpointNotFound root))) /\
       Forall (fun t => forall (st' st'' : Core.CoreState VO VP) ro' to lv' h,
         Core.run_task st' t ro' to <> (st'', Some (Core.PackageRecordsResponse (Err (Core.CheckpointNotFound h))), lv'))
         spawned).
Proof.
  intros VO VP HO HP package_log c r es st0 s resps lv Hnew Hrun Halive.
  destruct (core_run_events_parts _ _ _ _ _ _ Hrun) as (_ & Hwf & _ & _).
  specialize (Hwf (core_index_wf_new _ _ _ Hnew)).
  pose proof (core_index_of_in (Core.core s)) as Hio.
  destruct s as [st al ts]. simpl in Halive. subst al. cbn [Core.core Core.tasks] in *.
  split; [|split; [|split; [|split]]].
  - destruct (last (Core.checkpoints st)) as [c'|] eqn:El.
    + exists c'. split; [reflexivity|]. simpl. rewrite El. simpl. rewrite app_nil_r. split; reflexivity.
    + exfalso. apply last_None in El. destruct Hwf as [Hne _]. contradiction.
  - intros root since ro Hn. simpl.
    destruct (Core.checkpoint_index st !! root) as [ci|] eqn:Ei;
      [exfalso; apply Hn, (Hio root Hwf); eauto|].
    unfold Core.reply. destruct ro; simpl; rewrite app_nil_r; reflexivity.
  - intros root name since ro Hn. simpl.
    destruct (Core.checkpoint_index st !! root) as [ci|] eqn:Ei;
      [exfalso; apply Hn, (Hio root Hwf); eauto|].
    unfold Core.reply. destruct ro; simpl; rewrite app_nil_r; reflexivity.
  - intros root since ro Hin. apply (Hio root Hwf) in Hin as [ci Hci]. simpl. rewrite Hci.
    eexists. split; [reflexivity|].
    intros st' st'' ro' to lv' h. simpl.
    destruct (Core.fetch_operator_records (Core.operator_info st') since ci) as [res|] eqn:Ef;
      [|congruence].
    destruct ro'; [|congruence]. intros [= _ Hres _]. subst res.
    exact (core_fetch_operator_records_no_root_error _ _ _ _ Ef).
  - intros root name since ro Hin. apply (Hio root Hwf) in Hin as [ci Hci]. simpl. rewrite Hci.
    destruct (Core.package_states st !! package_log name) as [info|].
    + do 3 eexists. split; [reflexivity|]. split; [reflexivity|]. split; [congruence|].
      constructor; [|constructor].
      intros st' st'' ro' to lv' h. simpl.
      destruct (Core.package_states st' !! package_log name) as [info'|]; [|congruence].
      destruct (Core.fetch_package_records info' since ci) as [res|] eqn:Ef; [|congruence].
      destruct ro'; [|congruence]. intros [= _ Hres _]. subst res.
      exact (core_fetch_package_records_no_root_error _ _ _ _ Ef).
    + unfold Core.reply. destruct ro; simpl; do 3 eexists; (split; [reflexivity|]);
        (split; [simpl; rewrite app_nil_r; symmetry; apply app_nil_r|]); (split; [congruence|constructor]).
Qed.

Lemma core_checkpoints_resolve_witness :
  exists c', last (Core.checkpoints (Core.core core_example_after)) = Some c' /\
    Core.step_event core_example_log core_example_after (Core.Receive Core.GetLatestCheckpoint true) =
      Some (Core.mkService (Core.core core_example_after) true (Core.tasks core_example_after),
            Some (Core.CheckpointResponse c'), []) /\
    Core.step_event core_example_log core_example_after (Core.Receive Core.GetLatestCheckpoint false) =
      Some (Core.mkService (Core.core core_example_after) false (Core.tasks core_example_after), None, []).
Proof.
  exact (proj1 (@core_checkpoints_resolve nat nat accept_all_validator accept_all_validator core_example_log
           0 0 core_example_events core_example_state core_example_after
           [None; None; Some (Core.RecordStateResponse Core.Processing)] [mkLogLeaf 1 7]
           ltac:(vm_compute; reflexivity) ltac:(vm_compute; reflexivity) ltac:(vm_compute; reflexivity))).
Defined.

(** X12.  The actor never changes the operator log it starts with: from
    [State::new(c, r)], after any run in which the actor still runs, a
    fetch of operator records at a known root spawns a task that, whenever
    it runs with its receiver alive, answers exactly [[r]] without
    [since], nothing since [r], and [OperatorRecordNotFound] since any other
    record id. *)
Theorem core_operator_log_fixed :
  forall (VO VP : Type) `{Validator VO} `{Validator VP} package_log c r es
    (st0 : Core.CoreState VO VP) (s : Core.Service VO VP) resps lv root since ro,
  Core.new_state c r = Some st0 ->
  Core.run_events package_log (Core.start st0) es = Some (s, resps, lv) ->
  Core.alive s = true -> In root (Core.checkpoints (Core.core s)) ->
  exists t,
    Core.step_event package_log s (Core.Receive (Core.FetchOperatorRecords root since) ro) =
      Some (Core.mkService (Core.core s) true (Core.tasks s ++ [t]), None, []) /\
    forall es' (s' : Core.Service VO VP) resps' lv' to,
      Core.run_events package_log (Core.start st0) es' = Some (s', resps', lv') ->
      Core.run_task (Core.core s') t true to =
        (Core.core s',
         Some (Core.OperatorRecordsResponse
                 match since with
                 | None => Ok [r]
                 | Some h => if Nat.eqb h (Core.operator_record_id r) then Ok []
                             else Err (Core.OperatorRecordNotFound h)
                 end), []).
Proof.
  intros VO VP HO HP package_log c r es st0 s resps lv root since ro Hnew Hrun Halive Hin.
  destruct (core_run_events_parts _ _ _ _ _ _ Hrun) as (_ & Hwf & _ & _).
  specialize (Hwf (core_index_wf_new _ _ _ Hnew)).
  apply (core_index_of_in _ root Hwf) in Hin as [ci Hci].
  destruct s as [st al ts]. simpl in Halive. subst al. cbn [Core.core Core.tasks] in *.
  exists (Core.FetchOperatorRecordsTask since ci). split; [simpl; rewrite Hci; reflexivity|].
  intros es' s' resps' lv' to Hrun'.
  destruct (core_run_events_parts _ _ _ _ _ _ Hrun') as (Hop & _ & _ & _).
  unfold Core.new_state in Hnew.
  destruct (validator_validate _ r) as [v [x|e]]; [|discriminate]. injection Hnew as <-.
  simpl in Hop. simpl. rewrite Hop.
  unfold Core.fetch_operator_records, Core.get_operator_record_index, Core.operator_record_id. simpl.
  destruct since as [h|]; [|reflexivity].
  rewrite (Nat.eqb_sym r h). destruct (Nat.eqb h r); reflexivity.
Qed.

Lemma core_operator_log_fixed_witness :
  exists t,
    Core.step_event core_example_log core_example_after (Core.Receive (Core.FetchOperatorRecords 5 None) true) =
      Some (Core.mkService (Core.core core_example_after) true (Core.tasks core_example_after ++ [t]), None, []) /\
    forall es' (s' : Core.Service nat nat) resps' lv' to,
      Core.run_events core_example_log (Core.start core_example_state) es' = Some (s', resps', lv') ->
      Core.run_task (Core.core s') t true to =
        (Core.core s', Some (Core.OperatorRecordsResponse (Ok [0])), []).
Proof.
  exact (@core_operator_log_fixed nat nat accept_all_validator accept_all_validator core_example_log
           0 0 core_example_events core_example_state core_example_after
           [None; None; Some (Core.RecordStateResponse Core.Processing)] [mkLogLeaf 1 7] 5 None true
           ltac:(vm_compute; reflexivity) ltac:(vm_compute; reflexivity) ltac:(vm_compute; reflexivity)
           ltac:(vm_compute; tauto)).
Defined.

(** X13.  Submitting a package record, running its [new_record] task, then
    asking for the record's status and info, each answered by its own task
    with every receiver alive: a record the package's validator rejects is
    answered and reads back [Rejected] with the validator's reason; an
    accepted record whose needed content is all provided is answered
    [Processing], sends the one leaf [(package id, record id)], and reads
    back as [Processing] with its content sources; an accepted record with
    a needed content digest not provided is answered [Rejected], sends no
    leaf, and its status and info read as before the submission. *)
Theorem core_submit_then_status :
  forall (VO VP : Type) `{Validator VO} `{Validator VP} package_log
    (s : Core.Service VO VP) name r cs v' result,
  let l := package_log name in
  let info := Core.package_entry (Core.core s) l name in
  let rid := Core.package_record_id r in
  let n := length (Core.tasks s) in
  Core.alive s = true ->
  validator_validate (Core.validator info) r = (v', result) ->
  exists s' resps lv,
    Core.run_events package_log s
      [Core.Receive (Core.SubmitPackageRecord name r cs) true; Core.RunTask n true true;
       Core.Receive (Core.GetPackageRecordStatus l rid) true; Core.RunTask n true true;
       Core.Receive (Core.GetPackageRecordInfo l rid) true; Core.RunTask n true true] = Some (s', resps, lv) /\
    Core.tasks s' = Core.tasks s /\
    match result with
    | Err e =>
        resps = [None; Some (Core.RecordStateResponse (Core.Rejected e));
                 None; Some (Core.StatusResponse (Ok (Core.Rejected e)));
                 None; Some (Core.InfoResponse (Ok (Core.mkPackageRecordInfo r cs (Core.Rejected e))))] /\
        lv = []
    | Ok contents =>
        (Forall (fun d => d ∈ map Core.digest cs) contents /\
         resps = [None; Some (Core.RecordStateResponse Core.Processing);
                  None; Some (Core.StatusResponse (Ok Core.Processing));
                  None; Some (Core.InfoResponse (Ok (Core.mkPackageRecordInfo r cs Core.Processing)))] /\
         lv = [mkLogLeaf (Core.id info) rid]) \/
        (exists needed, In needed contents /\ (needed ∉ map Core.digest cs) /\
         resps = [None; Some (Core.RecordStateResponse (Core.Rejected (Core.needed_content_reason needed)));
                  None; Some (Core.StatusResponse
                                match Core.records info !! rid with
                                | Some ri => Ok (Core.state ri)
                                | None => Err (Core.PackageRecordNotFound rid)
                                end);
                  None; Some (Core.InfoResponse
                                match Core.records info !! rid with
                                | Some ri => Ok ri
                                | None => Err (Core.PackageRecordNotFound rid)
                                end)] /\
         lv = [])
    end.
Proof.
  intros VO VP HO HP package_log s name r cs v' result l info rid n Halive Hv.
  destruct s as [st al ts]. simpl in Halive. subst al. cbn [Core.core Core.tasks] in *.
  subst n. unfold Core.run_events, Core.step_event. cbn [Core.alive Core.core Core.tasks Core.process_message].
  fold l. fold info. clearbody info. clearbody l. subst rid.
  repeat first [ rewrite list_lookup_middle by reflexivity | rewrite delete_middle | rewrite app_nil_r
               | progress cbn [Core.run_task Core.package_states Core.with_package_states Core.with_package Core.alive Core.core Core.tasks] ].
  rewrite lookup_insert_eq. cbn iota beta. unfold Core.new_record. rewrite Hv.
  destruct result as [contents|e]; [destruct (List.find _ contents) as [needed|] eqn:Hf|];
  repeat first [ rewrite list_lookup_middle by reflexivity | rewrite delete_middle | rewrite app_nil_r
               | rewrite lookup_insert_eq
               | progress cbn [Core.run_task Core.package_states Core.with_package_states Core.with_package Core.alive Core.core Core.tasks Core.process_message Core.records Core.state Core.with_validator] ].
  all: do 3 eexists; split; [reflexivity|]; split; [reflexivity|].
  - apply find_some in Hf as [Hin Hneg]. apply negb_true_iff, bool_decide_eq_false in Hneg.
    right. exists needed. auto.
  - left. split; [|split; reflexivity].
    apply Forall_forall. intros d Hd.
    pose proof (find_none _ _ Hf d (proj1 (list_elem_of_In _ _) Hd)) as Hn.
    simpl in Hn. apply negb_false_iff, bool_decide_eq_true in Hn. exact Hn.
  - split; reflexivity.
Qed.
Lemma core_submit_then_status_witness :
  exists s' resps lv,
    Core.run_events core_example_log core_example_after
      [Core.Receive (Core.SubmitPackageRecord "pkg" 8 []) true; Core.RunTask 0 true true;
       Core.Receive (Core.GetPackageRecordStatus 1 8) true; Core.RunTask 0 true true;
       Core.Receive (Core.GetPackageRecordInfo 1 8) true; Core.RunTask 0 true true] = Some (s', resps, lv) /\
    Core.tasks s' = Core.tasks core_example_after /\
    resps = [None; Some (Core.RecordStateResponse Core.Processing);
             None; Some (Core.StatusResponse (Ok Core.Processing));
             None; Some (Core.InfoResponse (Ok (Core.mkPackageRecordInfo 8 [] Core.Processing)))] /\
    lv = [mkLogLeaf 1 8].
Proof.
  pose proof (@core_submit_then_status nat nat accept_all_validator accept_all_validator core_example_log
                core_example_after "pkg" 8 [] 2 (Ok []) eq_refl eq_refl) as H.
  cbv zeta in H.
  destruct H as (s' & resps & lv & Hrun & Ht & [(_ & Hr & Hl) | (needed & Hin & _)]).
  - exists s', resps, lv. split; [exact Hrun|]. split; [exact Ht|]. split; [exact Hr|exact Hl].
  - destruct Hin.
Defined.



(** X14.  The actor's logs are append-only: over any run of received
    messages and spawned tasks, whether or not the actor panics on the
    way, a package once present stays present, its log and its checkpoint
    indices only grow at the end, and the list of checkpoints only grows
    at the end. *)
Theorem core_logs_append_only :
  forall (VO VP : Type) `{Validator VO} `{Validator VP} package_log es
    (s s' : Core.Service VO VP) resps leaves,
  Core.run_events package_log s es = Some (s', resps, leaves) ->
  Core.checkpoints (Core.core s) `prefix_of` Core.checkpoints (Core.core s') /\
  forall l info, Core.package_states (Core.core s) !! l = Some info ->
    exists info', Core.package_states (Core.core s') !! l = Some info' /\
      Core.log info `prefix_of` Core.log info' /\
      Core.checkpoint_indices info `prefix_of` Core.checkpoint_indices info'.
Proof.
  intros VO VP HO HP package_log es s s' resps leaves Hrun.
  destruct (core_run_events_parts package_log es s s' resps leaves Hrun) as (_ & _ & [Hc Hp] & _).
  split; [exact Hc|].
  intros l info Hl. destruct (Hp l info Hl) as (info' & Hl' & Hlog & Hidx & _).
  exists info'. auto.
Qed.

Lemma core_logs_append_only_witness :
  Core.run_events core_example_log (Core.start core_example_state) core_example_events =
    Some (core_example_after, [None; None; Some (Core.RecordStateResponse Core.Processing)], [mkLogLeaf 1 7]) /\
  Core.checkpoints core_example_state `prefix_of` Core.checkpoints (Core.core core_example_after).
Proof.
  split; [vm_compute; reflexivity|].
  exact (proj1 (@core_logs_append_only nat nat accept_all_validator accept_all_validator core_example_log
                  core_example_events (Core.start core_example_state) core_example_after
                  [None; None; Some (Core.RecordStateResponse Core.Processing)] [mkLogLeaf 1 7]
                  ltac:(vm_compute; reflexivity))).
Defined.


(** ** Extras: the publish commands *)

(** X15.  [publish init] and [publish release] submit only when no publish
    is pending: when loading the pending publish fails, that error is
    returned, storage is unchanged and nothing is submitted; with none
    pending, storage stays empty and the produced entry is submitted alone
    in a fresh batch [{package: name, head: None, entries: [entry]}]
    (nothing is submitted when producing the entry failed, and that error
    is returned); with a pending publish, nothing is submitted and the
    pending publish is either left as it was or, on success, extended with
    exactly the entry. *)
Theorem publish_entry_submits_only_without_pending :
  forall submit wait_for_publish io storage name entry no_wait res storage' batches,
  Publish.publish_entry submit wait_for_publish io storage name entry no_wait = (res, storage', batches) ->
  (forall e, Publish.load_error io = Some e -> res = Err e /\ storage' = storage /\ batches = []) /\
  (Publish.load_error io = None -> storage = None ->
     storage' = None /\
     match entry with
     | Ok e => batches = [Publish.mkPublishInfo name None [e]]
     | Err e => batches = [] /\ res = Err e
     end) /\
  (forall info, storage = Some info ->
     batches = [] /\
     (storage' = storage \/
      exists e, entry = Ok e /\ res = Ok tt /\
        storage' = Some (Publish.mkPublishInfo (Publish.package info) (Publish.head info)
                           (Publish.entries info ++ [e])))).
Proof.
  intros submit wait [le se] storage name entry no_wait res storage' batches Hp. revert Hp.
  unfold Publish.publish_entry, Publish.enqueue. cbn [Publish.load_error Publish.store_error].
  intros Hp. split; [|split].
  - intros e [= ->]. revert Hp. intros [= <- <- <-]. auto.
  - intros ->. intros ->. revert Hp. destruct entry as [e|e]; simpl.
    + destruct (submit _) as [rid|err]; [destruct no_wait; [|destruct (wait _ _)]|];
        intros [= _ <- <-]; auto.
    + intros [= <- <- <-]. auto.
  - intros info ->. revert Hp. destruct le as [l|]; [intros [= _ <- <-]; auto|]. simpl.
    destruct (negb (String.eqb (Publish.package info) name)).
    { intros [= _ <- <-]. auto. }
    destruct entry as [e|e].
    + destruct (Publish.is_init e && Publish.initializing info).
      * intros [= _ <- <-]. auto.
      * destruct se as [x|]; [intros [= _ <- <-]; auto|].
        intros [= <- <- <-]. split; [reflexivity|]. right. exists e. auto.
    + intros [= _ <- <-]. auto.
Qed.

Lemma publish_entry_submits_only_without_pending_witness :
  Publish.publish_entry (fun _ => Ok 3) (fun _ _ => Ok tt) Publish.io_ok None "pkg" (Ok Publish.Init) false =
    (Ok tt, None, [Publish.mkPublishInfo "pkg" None [Publish.Init]]) /\
  None = @None Publish.PublishInfo /\
  [Publish.mkPublishInfo "pkg" None [Publish.Init]] = [Publish.mkPublishInfo "pkg" None [Publish.Init]].
Proof.
  assert (Hrun : Publish.publish_entry (fun _ => Ok 3) (fun _ _ => Ok tt) Publish.io_ok None "pkg"
                   (Ok Publish.Init) false = (Ok tt, None, [Publish.mkPublishInfo "pkg" None [Publish.Init]]))
    by (vm_compute; reflexivity).
  split; [exact Hrun|].
  exact (proj1 (proj2 (publish_entry_submits_only_without_pending (fun _ => Ok 3) (fun _ _ => Ok tt)
           Publish.io_ok None "pkg" (Ok Publish.Init) false (Ok tt) None
           [Publish.mkPublishInfo "pkg" None [Publish.Init]] Hrun)) eq_refl eq_refl).
Defined.

(** X16.  [publish submit]: when loading the pending publish fails, that
    error is returned, storage is unchanged and nothing is submitted; with
    no pending publish it fails with ["no pending publish to submit"] and
    submits nothing; with a pending publish it submits exactly that batch,
    once; the pending publish is cleared exactly when the submission and
    the [store_publish(None)] after it succeed (also when waiting for the
    record then fails).  A failed submission returns its error and keeps
    the pending publish; so does a failed store after a successful
    submission, which leaves the submitted batch pending. *)
Theorem publish_submit_batch :
  forall submit wait_for_publish io storage no_wait res storage' batches,
  Publish.publish_submit submit wait_for_publish io storage no_wait = (res, storage', batches) ->
  (forall e, Publish.load_error io = Some e -> res = Err e /\ storage' = storage /\ batches = []) /\
  (Publish.load_error io = None -> storage = None ->
     res = Err "no pending publish to submit"%string /\ storage' = None /\ batches = []) /\
  (Publish.load_error io = None -> forall info, storage = Some info ->
     batches = [info] /\
     ((exists record_id, submit info = Ok record_id) /\ Publish.store_error io = None <-> storage' = None) /\
     (forall e, submit info = Err e -> res = Err e /\ storage' = storage) /\
     (forall record_id e, submit info = Ok record_id -> Publish.store_error io = Some e ->
        res = Err e /\ storage' = storage)).
Proof.
  intros submit wait [le se] storage no_wait res storage' batches Hp. revert Hp.
  unfold Publish.publish_submit. cbn [Publish.load_error Publish.store_error]. intros Hp. split; [|split].
  - intros e [= ->]. revert Hp. intros [= <- <- <-]. auto.
  - intros -> ->. revert Hp. intros [= <- <- <-]. auto.
  - intros -> info ->. revert Hp. destruct (submit info) as [rid|err] eqn:Es.
    + destruct se as [x|].
      * intros [= <- <- <-]. split; [reflexivity|]. split; [|split].
        -- split; [intros [_ Hx]; discriminate|discriminate].
        -- intros e [=].
        -- intros record_id e _ [= <-]. auto.
      * intros Hp. assert (Hst : storage' = None /\ batches = [info]).
        { revert Hp. destruct no_wait; [|destruct (wait (Publish.package info) rid)]; intros [= _ <- <-]; auto. }
        destruct Hst as [-> ->]. split; [reflexivity|]. split; [|split].
        -- split; [reflexivity|]. intros _. eauto.
        -- intros e [=].
        -- intros record_id e _ [=].
    + intros [= <- <- <-]. split; [reflexivity|]. split; [|split].
      * split; [intros [[rid Hr] _]; discriminate|discriminate].
      * intros e [= <-]. auto.
      * intros record_id e [=].
Qed.

Lemma publish_submit_batch_witness :
  Publish.publish_submit (fun _ => Ok 3) (fun _ _ => Err "timed out"%string) Publish.io_ok
    (Some (Publish.mkPublishInfo "pkg" None [Publish.Init])) false =
    (Err "timed out"%string, None, [Publish.mkPublishInfo "pkg" None [Publish.Init]]) /\
  [Publish.mkPublishInfo "pkg" None [Publish.Init]] = [Publish.mkPublishInfo "pkg" None [Publish.Init]].
Proof.
  assert (Hrun : Publish.publish_submit (fun _ => Ok 3) (fun _ _ => Err "timed out"%string) Publish.io_ok
                   (Some (Publish.mkPublishInfo "pkg" None [Publish.Init])) false =
                 (Err "timed out"%string, None, [Publish.mkPublishInfo "pkg" None [Publish.Init]]))
    by (vm_compute; reflexivity).
  split; [exact Hrun|].
  exact (proj1 (proj2 (proj2 (publish_submit_batch (fun _ => Ok 3) (fun _ _ => Err "timed out"%string)
           Publish.io_ok (Some (Publish.mkPublishInfo "pkg" None [Publish.Init])) false
           (Err "timed out"%string) None [Publish.mkPublishInfo "pkg" None [Publish.Init]] Hrun))
           eq_refl _ eq_refl)).
Defined.

Lemma filter_length_app {A} (f : A -> bool) (l1 l2 : list A) :
  length (List.filter f (l1 ++ l2)) = length (List.filter f l1) + length (List.filter f l2).
Proof.
  induction l1 as [|a l1 IH]; simpl; [reflexivity|]. destruct (f a); simpl; lia.
Qed.

Lemma existsb_filter_length {A} (f : A -> bool) (l : list A) :
  existsb f l = true <-> 0 < length (List.filter f l).
Proof.
  induction l as [|a l IH]; simpl; [split; [discriminate|lia]|].
  destruct (f a); simpl; [split; [lia|reflexivity]|exact IH].
Qed.

Lemma enqueue_entries_pending name h pre es rs storage :
  length (List.filter Publish.is_init pre) <= 1 ->
  enqueue_entries (Some (Publish.mkPublishInfo name h pre)) name (map (pair Publish.io_ok) es) = (rs, storage) ->
  (length (List.filter Publish.is_init (pre ++ es)) <= 1 ->
     rs = repeat (Ok None) (length es) /\ storage = Some (Publish.mkPublishInfo name h (pre ++ es))) /\
  (1 < length (List.filter Publish.is_init (pre ++ es)) -> exists e, In (Err e) rs).
Proof.
  revert pre rs storage.
  induction es as [|e rest IH]; intros pre rs storage Hpre Hrun; simpl in Hrun.
  - injection Hrun as <- <-. rewrite app_nil_r. split; [auto|lia].
  - unfold Publish.enqueue in Hrun. simpl in Hrun. rewrite String.eqb_refl in Hrun. simpl in Hrun.
    rewrite filter_length_app. simpl.
    destruct (Publish.is_init e && Publish.initializing (Publish.mkPublishInfo name h pre)) eqn:Ei.
    + destruct (enqueue_entries (Some (Publish.mkPublishInfo name h pre)) name (map (pair Publish.io_ok) rest))
        as [rs' s''].
      injection Hrun as <- <-.
      apply andb_true_iff in Ei as [Hi Hex]. unfold Publish.initializing in Hex. simpl in Hex.
      apply existsb_filter_length in Hex. rewrite Hi. simpl.
      split; [lia|]. intros _. eexists. left. reflexivity.
    + destruct (enqueue_entries (Some (Publish.mkPublishInfo name h (pre ++ [e]))) name
                (map (pair Publish.io_ok) rest))
        as [rs' s''] eqn:Er.
      injection Hrun as <- <-.
      assert (Hpre' : length (List.filter Publish.is_init (pre ++ [e])) <= 1).
      { rewrite filter_length_app. simpl.
        destruct (Publish.is_init e) eqn:Hi; simpl; [|lia].
        unfold Publish.initializing in Ei. simpl in Ei.
        destruct (existsb Publish.is_init pre) eqn:Hex; [discriminate|].
        destruct (List.filter Publish.is_init pre) eqn:Hf; simpl; [lia|].
        exfalso. assert (Hlt : 0 < length (List.filter Publish.is_init pre)) by (rewrite Hf; simpl; lia).
        apply existsb_filter_length in Hlt. congruence. }
      destruct (IH _ _ _ Hpre' Er) as [Hok Hbad].
      rewrite <- app_assoc in Hok, Hbad. simpl in Hok, Hbad.
      rewrite filter_length_app in Hok, Hbad. simpl in Hok, Hbad.
      split.
      * intros Hle. destruct (Hok Hle) as [-> ->]. auto.
      * intros Hlt. destruct (Hbad Hlt) as [err Hin]. exists err. right. exact Hin.
Qed.

(** X17.  When every storage operation succeeds, a pending publish built
    with [publish start] and then one [enqueue] per entry for the same
    package accepts every entry exactly when at most one of them is [Init];
    the pending publish is then [{package: name, head: None, entries: es}],
    and [publish submit] (its load succeeding) submits exactly that batch
    once, while [publish abort] succeeds and clears it. *)
Theorem publish_start_enqueue_then_submit :
  forall submit wait_for_publish name calls rs storage io_submit no_wait,
  let es := map snd calls in
  Forall (fun c => fst c = Publish.io_ok) calls ->
  enqueue_entries (snd (Publish.publish_start Publish.io_ok None name)) name calls = (rs, storage) ->
  (rs = repeat (Ok None) (length es) <-> length (List.filter Publish.is_init es) <= 1) /\
  (length (List.filter Publish.is_init es) <= 1 ->
     storage = Some (Publish.mkPublishInfo name None es) /\
     (Publish.load_error io_submit = None ->
        snd (Publish.publish_submit submit wait_for_publish io_submit storage no_wait) =
          [Publish.mkPublishInfo name None es]) /\
     Publish.publish_abort Publish.io_ok storage = (Ok tt, None)).
Proof.
  intros submit wait name calls rs storage io_submit no_wait es Hio Hrun. simpl in Hrun.
  assert (Hcalls : calls = map (pair Publish.io_ok) (map snd calls)).
  { clear - Hio. induction Hio as [|[io e] rest Hc _ IH]; simpl in *; [reflexivity|]. subst io. f_equal. exact IH. }
  fold es in Hcalls.
  rewrite Hcalls in Hrun.
  replace (length es) with (length (map (pair Publish.io_ok) es)) by apply length_map.
  destruct (enqueue_entries_pending name None [] es rs storage ltac:(simpl; lia) Hrun) as [Hok Hbad].
  simpl in Hok, Hbad. rewrite length_map. split.
  - split.
    + intros Hrs. destruct (Nat.le_gt_cases (length (List.filter Publish.is_init es)) 1) as [Hle|Hgt];
        [exact Hle|].
      destruct (Hbad Hgt) as [err Hin]. rewrite Hrs in Hin.
      apply repeat_spec in Hin. discriminate.
    + intros Hle. exact (proj1 (Hok Hle)).
  - intros Hle. destruct (Hok Hle) as [_ ->]. split; [reflexivity|].
    split; [|reflexivity].
    intros Hl. unfold Publish.publish_submit. rewrite Hl.
    destruct (submit _); [destruct (Publish.store_error io_submit); [|destruct no_wait; [|destruct (wait _ _)]]|];
      reflexivity.
Qed.

Lemma publish_start_enqueue_then_submit_witness :
  ([@Ok (option Publish.PublishEntry) string None; Ok None] =
     repeat (Ok None) (length [Publish.Init; Publish.Release "1.0.0" 9]) <->
   length (List.filter Publish.is_init [Publish.Init; Publish.Release "1.0.0" 9]) <= 1) /\
  (length (List.filter Publish.is_init [Publish.Init; Publish.Release "1.0.0" 9]) <= 1 ->
     Some (Publish.mkPublishInfo "pkg" None [Publish.Init; Publish.Release "1.0.0" 9]) =
       Some (Publish.mkPublishInfo "pkg" None [Publish.Init; Publish.Release "1.0.0" 9]) /\
     (Publish.load_error Publish.io_ok = None ->
        snd (Publish.publish_submit (fun _ => Ok 3) (fun _ _ => Ok tt) Publish.io_ok
               (Some (Publish.mkPublishInfo "pkg" None [Publish.Init; Publish.Release "1.0.0" 9])) false) =
          [Publish.mkPublishInfo "pkg" None [Publish.Init; Publish.Release "1.0.0" 9]]) /\
     Publish.publish_abort Publish.io_ok
       (Some (Publish.mkPublishInfo "pkg" None [Publish.Init; Publish.Release "1.0.0" 9])) = (Ok tt, None)).
Proof.
  exact (publish_start_enqueue_then_submit (fun _ => Ok 3) (fun _ _ => Ok tt) "pkg"
           [(Publish.io_ok, Publish.Init); (Publish.io_ok, Publish.Release "1.0.0" 9)] [Ok None; Ok None]
           (Some (Publish.mkPublishInfo "pkg" None [Publish.Init; Publish.Release "1.0.0" 9])) Publish.io_ok false
           ltac:(repeat constructor) ltac:(vm_compute; reflexivity)).
Defined.

(** ** Extras: the validation component *)

Lemma decode_records_none decode_record bodies :
  Validation.decode_records decode_record bodies = None <->
  exists b, In b bodies /\ decode_record b = None.
Proof.
  induction bodies as [|b rest IH]; simpl.
  - split; [discriminate|intros (? & [] & _)].
  - destruct (decode_record b) as [r|] eqn:Eb.
    + destruct (Validation.decode_records decode_record rest) as [rs|] eqn:Er.
      * split; [discriminate|]. intros (b' & [<-|Hin] & Hb').
        -- congruence.
        -- assert (Hn : Some rs = None) by (apply IH; eauto). discriminate.
      * split; [|reflexivity]. intros _. destruct (proj1 IH eq_refl) as (b' & Hin & Hb'). eauto.
    + split; [|reflexivity]. intros _. eauto.
Qed.

Lemma decode_records_length decode_record bodies records :
  Validation.decode_records decode_record bodies = Some records -> length records = length bodies.
Proof.
  revert records. induction bodies as [|b rest IH]; intros records Hd; simpl in Hd.
  - injection Hd as <-. reflexivity.
  - destruct (decode_record b); [|discriminate].
    destruct (Validation.decode_records decode_record rest) as [rs|] eqn:Er; [|discriminate].
    injection Hd as <-. simpl. rewrite (IH rs eq_refl). reflexivity.
Qed.

Lemma decode_records_app decode_record bodies1 bodies2 records :
  Validation.decode_records decode_record (bodies1 ++ bodies2) = Some records ->
  exists records1, Validation.decode_records decode_record bodies1 = Some records1 /\
    records1 = firstn (length bodies1) records.
Proof.
  revert records. induction bodies1 as [|b rest IH]; intros records Hd; simpl in *.
  - eauto.
  - destruct (decode_record b) as [r|]; [|discriminate].
    destruct (Validation.decode_records decode_record (rest ++ bodies2)) as [rs|] eqn:Er; [|discriminate].
    injection Hd as <-. destruct (IH rs eq_refl) as (rs1 & -> & ->). simpl. eauto.
Qed.

Lemma validate_records_length {V} `{Validator V} (st : V) records :
  length (Validation.validate_records st records) = length records.
Proof.
  revert st. induction records as [|r rest IH]; intros st; simpl; [reflexivity|].
  destruct (validator_validate st r) as [st' [x|e]]; simpl; rewrite IH; reflexivity.
Qed.

Lemma validate_records_firstn {V} `{Validator V} (st : V) records n :
  firstn n (Validation.validate_records st records) = Validation.validate_records st (firstn n records).
Proof.
  revert st n. induction records as [|r rest IH]; intros st n.
  - destruct n; reflexivity.
  - destruct n as [|n]; [reflexivity|]. simpl.
    destruct (validator_validate st r) as [st' [x|e]]; simpl; rewrite IH; reflexivity.
Qed.

(** X18.  [Validating::validate] panics exactly when some record body fails
    to decode; otherwise it returns [Ok] (never [Err]) with one verdict per
    record body, in order. *)
Theorem validate_panics_or_one_verdict_each :
  forall (V : Type) `{Validator V} decode_record bodies,
  match Validation.validate (V:=V) decode_record bodies with
  | None => exists b, In b bodies /\ decode_record b = None
  | Some res =>
      (forall b, In b bodies -> is_Some (decode_record b)) /\
      exists verdicts, res = Ok verdicts /\ length verdicts = length bodies
  end.
Proof.
  intros V HV decode_record bodies. unfold Validation.validate.
  destruct (Validation.decode_records decode_record bodies) as [records|] eqn:Ed.
  - split.
    + intros b Hin. destruct (decode_record b) as [r|] eqn:Eb; [eauto|].
      assert (Hn : Validation.decode_records decode_record bodies = None)
        by (apply decode_records_none; eauto).
      congruence.
    + eexists. split; [reflexivity|].
      rewrite validate_records_length. exact (decode_records_length _ _ _ Ed).
  - exact (proj1 (decode_records_none _ _) Ed).
Qed.

(** X19.  The verdicts of [Validating::validate] are prefix-stable: when
    [validate] succeeds on [bodies1 ++ bodies2], it also succeeds on
    [bodies1], and the verdicts there are the first [length bodies1]
    verdicts of the longer run; a record's verdict does not depend on the
    records after it. *)
Theorem validate_prefix_stable :
  forall (V : Type) `{Validator V} decode_record bodies1 bodies2 verdicts,
  Validation.validate (V:=V) decode_record (bodies1 ++ bodies2) = Some (Ok verdicts) ->
  Validation.validate (V:=V) decode_record bodies1 = Some (Ok (firstn (length bodies1) verdicts)).
Proof.
  intros V HV decode_record bodies1 bodies2 verdicts. unfold Validation.validate.
  destruct (Validation.decode_records decode_record (bodies1 ++ bodies2)) as [records|] eqn:Ed;
    [|discriminate].
  intros [= <-].
  destruct (decode_records_app _ _ _ _ Ed) as (records1 & -> & ->).
  rewrite validate_records_firstn. reflexivity.
Qed.

Lemma validate_prefix_stable_witness :
  Validation.validate (V:=nat) (fun b => if String.eqb (Validation.key_id b) "bad" then None else Some 1)
    [Validation.mkProtoEnvelopeBody "AA" "k1" "s1"] =
    Some (Ok (firstn 1 [true; true])).
Proof.
  exact (@validate_prefix_stable nat accept_all_validator
           (fun b => if String.eqb (Validation.key_id b) "bad" then None else Some 1)
           [Validation.mkProtoEnvelopeBody "AA" "k1" "s1"] [Validation.mkProtoEnvelopeBody "BB" "k1" "s2"]
           [true; true] ltac:(vm_compute; reflexivity)).
Defined.

(** X20.  The leaves the actor sends to the transparency service can always
    be handed back: from [State::new], after any run in which the actor
    still runs, a [NewCheckpoint] message carrying any of the leaves sent
    so far, in any order and with repetitions, does not panic (every
    [package_states.get(&leaf.log_id).unwrap()] finds its entry) and spawns
    one [mark_published] task per leaf; whenever such a task runs later, in
    whatever order and after whatever other events, its
    [records.get(&record_id).unwrap()] finds the record, which it marks
    [Published] under the checkpoint. *)
Theorem core_sent_leaves_checkpoint_safely :
  forall (VO VP : Type) `{Validator VO} `{Validator VP} package_log c r es
    (st0 : Core.CoreState VO VP) (s : Core.Service VO VP) resps lv checkpoint leaves ro,
  Core.new_state c r = Some st0 ->
  Core.run_events package_log (Core.start st0) es = Some (s, resps, lv) ->
  Core.alive s = true ->
  incl leaves lv ->
  let ci := length (Core.checkpoints (Core.core s)) in
  exists s1,
    Core.step_event package_log s (Core.Receive (Core.NewCheckpoint checkpoint leaves) ro) = Some (s1, None, []) /\
    Core.alive s1 = true /\
    Core.tasks s1 = Core.tasks s ++ map (mark_task checkpoint ci) leaves /\
    forall es' s' resps' lv' leaf ro' to',
      Core.run_events package_log s1 es' = Some (s', resps', lv') ->
      In leaf leaves ->
      exists st'',
        Core.run_task (Core.core s') (mark_task checkpoint ci leaf) ro' to' = (st'', None, []) /\
        core_published (Core.package_states st'') (leaf_log_id leaf) (leaf_record_id leaf) checkpoint.
Proof.
  intros VO VP HO HP package_log c r es st0 s resps lv checkpoint leaves ro Hnew Hrun Halive Hincl ci.
  destruct (core_run_events_parts package_log es _ _ _ _ Hrun) as (_ & _ & _ & Hids).
  destruct (Hids (core_ids_wf_new c r st0 Hnew)) as [_ Hlv]. clear Hids.
  assert (Hpres : Forall (core_leaf_present (Core.package_states (Core.core s))) leaves).
  { apply Forall_forall. intros leaf Hin. eapply Forall_forall; [exact Hlv|].
    apply list_elem_of_In, Hincl, list_elem_of_In, Hin. }
  assert (Hspawn : Core.spawn_mark_published (Core.package_states (Core.core s)) checkpoint ci leaves =
                     (map (mark_task checkpoint ci) leaves, true)).
  { apply core_spawn_mark_published_present. eapply Forall_impl; [exact Hpres|].
    intros leaf (info & Hi & _). rewrite Hi. eauto. }
  set (st1 := Core.mkCoreState (Core.checkpoints (Core.core s) ++ [checkpoint])
                (<[checkpoint := ci]> (Core.checkpoint_index (Core.core s)))
                (Core.operator_info (Core.core s)) (Core.package_states (Core.core s))).
  exists (Core.mkService st1 true (Core.tasks s ++ map (mark_task checkpoint ci) leaves)).
  split; [|split; [reflexivity|split; [reflexivity|]]].
  - destruct s as [st al ts]. simpl in Halive. subst al. simpl in *. subst ci. rewrite Hspawn. reflexivity.
  - intros es' s' resps' lv' leaf ro' to' Hrun' Hin.
    destruct (core_run_events_parts package_log es' _ _ _ _ Hrun') as (_ & _ & Hgrow & _).
    cbn [Core.core] in Hgrow.
    assert (Hp : core_leaf_present (Core.package_states (Core.core s')) leaf).
    { eapply core_grows_leaf_present; [exact Hgrow|]. exact (proj1 (Forall_forall _ _) Hpres leaf (proj2 (list_elem_of_In _ _) Hin)). }
    destruct Hp as (info & Hi & [ri Hri]).
    unfold mark_task. cbn [Core.run_task]. rewrite Hi.
    unfold Core.mark_published at 1. rewrite Hri.
    set (info' := Core.mkPackageInfo _ _ _ _ _ _).
    exists (Core.with_package (Core.core s') (leaf_log_id leaf) info'). split; [reflexivity|].
    exists info'. eexists. cbn [Core.with_package Core.with_package_states Core.package_states].
    rewrite lookup_insert_eq. split; [reflexivity|]. subst info'. cbn [Core.records].
    rewrite lookup_insert_eq. split; reflexivity.
Qed.

Lemma core_sent_leaves_checkpoint_safely_witness :
  exists s1,
    Core.step_event core_example_log core_example_after
      (Core.Receive (Core.NewCheckpoint 6 [mkLogLeaf 1 7; mkLogLeaf 1 7]) true) = Some (s1, None, []) /\
    Core.alive s1 = true /\
    Core.tasks s1 = Core.tasks core_example_after ++ map (mark_task 6 2) [mkLogLeaf 1 7; mkLogLeaf 1 7].
Proof.
  destruct (@core_sent_leaves_checkpoint_safely nat nat accept_all_validator accept_all_validator
              core_example_log 0 0 core_example_events core_example_state core_example_after
              [None; None; Some (Core.RecordStateResponse Core.Processing)] [mkLogLeaf 1 7]
              6 [mkLogLeaf 1 7; mkLogLeaf 1 7] true
              ltac:(vm_compute; reflexivity) ltac:(vm_compute; reflexivity) ltac:(vm_compute; reflexivity)
              ltac:(intros x [<-|[<-|[]]]; left; reflexivity))
    as (s1 & Hstep & Halive & Htasks & _).
  exists s1. split; [exact Hstep|]. split; [exact Halive|]. exact Htasks.
Defined.
